(** * FlashAPI: routing engine and request dispatch pipeline

    A shallow embedding of [router.py] (pattern compilation, [Route.match],
    the [Router] with its lookup cache) and of the dispatcher of [app.py]
    ([_handle_http_request], [_create_response], [_handle_exception]),
    followed by the properties of the specification stated over it.

    Conventions of the embedding.
    - A Python [str] is a [string]; a character is a code point below 256
      (Latin-1).  Character classes ([\d], [\w], [str.lower],
      [str.isidentifier]) are written out for that range.
    - A [dict] whose iteration order is observable is an association list in
      insertion order; a [dict] used only through lookup is a [gmap].
    - Code that may raise returns an [outcome]; user code (middleware hooks,
      handlers, exception handlers) runs in a state monad over an abstract
      world [W] and a trace of the calls the dispatcher makes. *)

From Stdlib Require Import ZArith Ascii String List Bool Lia DecimalString.
From Stdlib Require SpecFloat.
From stdpp Require Import base option list strings gmap fin_maps.

Import ListNotations.
Local Open Scope string_scope.
Local Open Scope Z_scope.

Set Default Proof Using "Type".
Set Warnings "-register-all".

(* ===================================================================== *)
(** ** Python values *)
(* ===================================================================== *)

(** The values that flow through the router and the dispatcher.  A float is
    a double: a value of the IEEE 754 binary64 format. *)
Inductive pyval : Type :=
| PNone
| PBool (b : bool)
| PInt (z : Z)
| PFloat (x : SpecFloat.spec_float)
| PStr (s : string)
| PBytes (s : string)
| PList (items : list pyval)
| PDict (items : list (pyval * pyval))
| PObject (cls : string).

(** Modelled from the spec: the class [HTTPException] of the module
    [exceptions], which [app.py] imports and which is not among the sources.
    It is the HTTP-level failure that carries its own status code and detail
    message; the dispatcher builds it as [HTTPException(404, text)], reads
    back [status_code] and [detail], and catches it with
    [except Exception], so it is taken to derive from [Exception].

    Every other exception, one whose class does not derive from
    [HTTPException], carries its class name, the names of its base classes
    (its method resolution order after the class itself) and the text of
    [str(exc)]. *)
Inductive exn : Type :=
| HTTPException (status_code : Z) (detail : string)
| PyExc (cls : string) (bases : list string) (msg : string).

Definition exc_mro (e : exn) : list string :=
  match e with
  | HTTPException _ _ => ["HTTPException"; "Exception"; "BaseException"; "object"]
  | PyExc cls bases _ => cls :: bases
  end.

Definition exc_type (e : exn) : string :=
  match e with
  | HTTPException _ _ => "HTTPException"
  | PyExc cls _ _ => cls
  end.

Definition builtin_bases : list string := ["Exception"; "BaseException"; "object"].

Definition TypeError (msg : string) : exn := PyExc "TypeError" builtin_bases msg.
Definition ValueError (msg : string) : exn := PyExc "ValueError" builtin_bases msg.
Definition NameError (msg : string) : exn := PyExc "NameError" builtin_bases msg.
Definition AttributeError (msg : string) : exn := PyExc "AttributeError" builtin_bases msg.
Definition re_error (msg : string) : exn := PyExc "error" builtin_bases msg.

Inductive outcome (A : Type) : Type :=
| Ok (a : A)
| Raise (e : exn).
Arguments Ok {A} a.
Arguments Raise {A} e.

(* ===================================================================== *)
(** ** Characters and strings *)
(* ===================================================================== *)

Module Chars.

Definition code (c : ascii) : nat := nat_of_ascii c.

Definition between (lo hi : nat) (c : ascii) : bool :=
  (lo <=? code c)%nat && (code c <=? hi)%nat.

(** [\d] on a [str] pattern: the decimal digits; below 256 these are
    ['0'..'9']. *)
Definition is_digit (c : ascii) : bool := between 48 57 c.

Definition is_ascii_alpha (c : ascii) : bool := between 65 90 c || between 97 122 c.

(** Letters of the Latin-1 supplement. *)
Definition is_latin1_alpha (c : ascii) : bool :=
  (code c =? 170)%nat || (code c =? 181)%nat || (code c =? 186)%nat
  || between 192 214 c || between 216 246 c || between 248 255 c.

(** Numeric characters of the Latin-1 supplement (superscripts and
    vulgar fractions): alphanumeric for [\w], not part of identifiers. *)
Definition is_latin1_numeric (c : ascii) : bool :=
  (code c =? 178)%nat || (code c =? 179)%nat || (code c =? 185)%nat
  || between 188 190 c.

(** [\w] *)
Definition is_word (c : ascii) : bool :=
  is_ascii_alpha c || is_digit c || (code c =? 95)%nat
  || is_latin1_alpha c || is_latin1_numeric c.

(** First and following characters of [str.isidentifier]. *)
Definition is_id_start (c : ascii) : bool :=
  is_ascii_alpha c || (code c =? 95)%nat || is_latin1_alpha c.
Definition is_id_continue (c : ascii) : bool :=
  is_id_start c || is_digit c || (code c =? 183)%nat.

(** [[^/]] and [[0-9a-f-]] *)
Definition not_slash (c : ascii) : bool := negb (code c =? 47)%nat.
Definition is_hex_hyphen (c : ascii) : bool :=
  is_digit c || between 97 102 c || (code c =? 45)%nat.
Definition is_dot (c : ascii) : bool := (code c =? 46)%nat.

(** Characters with a meaning of their own in a regular expression. *)
Definition is_meta (c : ascii) : bool :=
  existsb (fun m => (code c =? m)%nat)
          [46; 94; 36; 42; 43; 63; 123; 125; 91; 93; 92; 124; 40; 41]%nat.

(** [str.lower] on one character. *)
Definition lower (c : ascii) : ascii :=
  if between 65 90 c || (between 192 222 c && negb (code c =? 215)%nat)
  then ascii_of_nat (code c + 32) else c.

(** Whitespace stripped by [int]. *)
Definition is_space (c : ascii) : bool :=
  between 9 13 c || between 28 32 c || (code c =? 133)%nat || (code c =? 160)%nat.

End Chars.

Module Str.

Fixpoint lower (s : string) : string :=
  match s with
  | EmptyString => EmptyString
  | String c s' => String (Chars.lower c) (lower s')
  end.

Fixpoint forallb (p : ascii -> bool) (s : string) : bool :=
  match s with
  | EmptyString => true
  | String c s' => p c && forallb p s'
  end.

Definition is_empty (s : string) : bool :=
  match s with EmptyString => true | _ => false end.

Fixpoint rev_onto (acc s : string) : string :=
  match s with
  | EmptyString => acc
  | String c s' => rev_onto (String c acc) s'
  end.
Definition rev (s : string) : string := rev_onto EmptyString s.

(** [s.startswith(p)], with the remainder. *)
Fixpoint strip_prefix (p s : string) : option string :=
  match p with
  | EmptyString => Some s
  | String c p' =>
      match s with
      | String d s' => if Ascii.eqb c d then strip_prefix p' s' else None
      | EmptyString => None
      end
  end.

(** The longest prefix whose characters satisfy [p], and what follows. *)
Fixpoint span (p : ascii -> bool) (s : string) : string * string :=
  match s with
  | String c s' =>
      if p c then let '(a, b) := span p s' in (String c a, b)
      else (EmptyString, s)
  | EmptyString => (EmptyString, EmptyString)
  end.

(** [s.replace(old, new)] for a non-empty [old]: every occurrence, left to
    right, without overlap.  [skip] counts the characters of an occurrence
    that was just replaced and are still to be dropped. *)
Fixpoint replace_from (skip : nat) (old new s : string) : string :=
  match s with
  | EmptyString => EmptyString
  | String c s' =>
      match skip with
      | S k => replace_from k old new s'
      | O =>
          match strip_prefix old s with
          | Some _ => new ++ replace_from (String.length old - 1) old new s'
          | None => String c (replace_from O old new s')
          end
      end
  end.

Definition replace (old new s : string) : string := replace_from O old new s.

(** A text without characters that mean something in a regular
    expression. *)
Definition plain (s : string) : bool :=
  forallb (fun c => negb (Chars.is_meta c)) s.

Definition newline : string := String (ascii_of_nat 10) EmptyString.

(** A character written [n] times. *)
Fixpoint replicate (n : nat) (c : ascii) : string :=
  match n with
  | O => EmptyString
  | S n' => String c (replicate n' c)
  end.

End Str.

(* ===================================================================== *)
(** ** Conversions of captured text: [int], [float] *)
(* ===================================================================== *)

Module Conv.

Definition digit_val (c : ascii) : Z := Z.of_nat (Chars.code c) - 48.

(** Digits with single underscores between them, after a first digit. *)
Fixpoint digits_value (acc : Z) (after_us : bool) (s : string) : option Z :=
  match s with
  | EmptyString => if after_us then None else Some acc
  | String c s' =>
      if Chars.is_digit c then digits_value (acc * 10 + digit_val c) false s'
      else if (Chars.code c =? 95)%nat
           then (if after_us then None else digits_value acc true s')
           else None
  end.

Definition unsigned_int (s : string) : option Z :=
  match s with
  | String c s' => if Chars.is_digit c then digits_value (digit_val c) false s' else None
  | EmptyString => None
  end.

Definition strip (s : string) : string :=
  let drop := fun t => snd (Str.span Chars.is_space t) in
  Str.rev (drop (Str.rev (drop s))).

(** [sys.get_int_max_str_digits()] as the interpreter starts: [int] refuses
    a string with more digits than that. *)
Definition int_max_str_digits : N := 4300.

(** The digits of a string; underscores, sign and whitespace do not count. *)
Fixpoint count_digits (s : string) : N :=
  match s with
  | EmptyString => 0%N
  | String c s' => if Chars.is_digit c then N.succ (count_digits s') else count_digits s'
  end.

(** [int(s)] in base 10: surrounding whitespace, an optional sign, digits,
    no more of them than the limit.  [None] stands for [ValueError]. *)
Definition py_int (s : string) : option Z :=
  let limited := fun t =>
    if (count_digits t <=? int_max_str_digits)%N then unsigned_int t else None in
  match strip s with
  | String "+" t => limited t
  | String "-" t => Z.opp <$> limited t
  | t => limited t
  end.

(** The number a string of decimal digits denotes. *)
Fixpoint decimal_from (acc : Z) (s : string) : Z :=
  match s with
  | EmptyString => acc
  | String c s' => decimal_from (acc * 10 + digit_val c) s'
  end.
Definition decimal (s : string) : Z := decimal_from 0 s.

Fixpoint all_digits_value (acc : Z) (s : string) : option Z :=
  match s with
  | EmptyString => Some acc
  | String c s' =>
      if Chars.is_digit c then all_digits_value (acc * 10 + digit_val c) s' else None
  end.

(** The double that [float] returns for the decimal numeral with the
    digits of [mantissa], the last [places] of them after the point: the
    binary64 value nearest to [mantissa / 10^places], the one with an even
    significand when two are equally near, infinity when the number is
    beyond the range of the format, zero when it is below it. *)
Definition binary64 (mantissa : Z) (places : nat) : SpecFloat.spec_float :=
  match mantissa with
  | Zpos m =>
      SpecFloat.SFdiv 53 1024
        (SpecFloat.S754_finite false m 0)
        (SpecFloat.S754_finite false (Z.to_pos (10 ^ Z.of_nat places)) 0)
  | _ => SpecFloat.S754_zero false
  end.

(** [float(s)] on the decimal numerals a float placeholder captures,
    digits with an optional point and fraction.  [None] stands for
    [ValueError]. *)
Definition py_float (s : string) : option SpecFloat.spec_float :=
  let '(int_part, rest) := Str.span Chars.is_digit s in
  if Str.is_empty int_part then None else
  match rest with
  | EmptyString => (fun m => binary64 m O) <$> all_digits_value 0 int_part
  | String "." frac =>
      (fun m => binary64 m (String.length frac))
        <$> all_digits_value 0 (int_part ++ frac)
  | _ => None
  end.

End Conv.

(* ===================================================================== *)
(** ** Regular expressions: the fragment the pattern compiler emits *)
(* ===================================================================== *)

Module Re.

Inductive cclass : Type := Digit | NotSlash | HexHyphen | Dot.

Definition test (k : cclass) : ascii -> bool :=
  match k with
  | Digit => Chars.is_digit
  | NotSlash => Chars.not_slash
  | HexHyphen => Chars.is_hex_hyphen
  | Dot => Chars.is_dot
  end.

(** A character class under a greedy quantifier. *)
Inductive item : Type :=
| Plus (k : cclass)
| Star (k : cclass)
| Opt (k : cclass).

(** A literal character, a dot, which stands for any character but a
    newline, or a named group [(?P<name>...)]. *)
Inductive atom : Type :=
| Lit (c : ascii)
| Any
| Group (name : string) (body : list item).

(** A compiled pattern [^ atoms $]. *)
Definition pattern : Type := list atom.

(** The pattern of a literal text. *)
Fixpoint lits (s : string) : pattern :=
  match s with
  | EmptyString => []
  | String c s' => Lit c :: lits s'
  end.

(** The four group bodies of [type_map]. *)
Definition body_int : list item := [Plus Digit].
Definition body_str : list item := [Plus NotSlash].
Definition body_float : list item := [Plus Digit; Opt Dot; Star Digit].
Definition body_uuid : list item := [Plus HexHyphen].

(** *** Matching

    A backtracking matcher in continuation-passing style, trying the
    alternatives in the order of the [re] module: a greedy quantifier takes
    as much as it can and gives back one character at a time.  [acc] is the
    text consumed by the current group, most recent character first. *)
Section Matcher.
Context {A : Type}.

Fixpoint star (p : ascii -> bool) (s acc : string)
         (k : string -> string -> option A) : option A :=
  match s with
  | String c s' =>
      if p c then
        match star p s' (String c acc) k with
        | Some r => Some r
        | None => k acc s
        end
      else k acc s
  | EmptyString => k acc s
  end.

Fixpoint m_items (its : list item) (s acc : string)
         (k : string -> string -> option A) : option A :=
  match its with
  | [] => k acc s
  | Plus c :: r =>
      match s with
      | String x s' =>
          if test c x
          then star (test c) s' (String x acc) (fun acc' s'' => m_items r s'' acc' k)
          else None
      | EmptyString => None
      end
  | Star c :: r => star (test c) s acc (fun acc' s'' => m_items r s'' acc' k)
  | Opt c :: r =>
      match s with
      | String x s' =>
          if test c x then
            match m_items r s' (String x acc) k with
            | Some v => Some v
            | None => m_items r s acc k
            end
          else m_items r s acc k
      | EmptyString => m_items r s acc k
      end
  end.
End Matcher.

(** [$] without [re.MULTILINE]: the end of the string, or just before a
    newline that ends the string. *)
Definition at_end (s : string) : bool :=
  match s with
  | EmptyString => true
  | String c EmptyString => (Chars.code c =? 10)%nat
  | _ => false
  end.

(** [caps] collects the captures, last group first. *)
Fixpoint m_atoms (p : pattern) (s : string) (caps : list (string * string))
  : option (list (string * string)) :=
  match p with
  | [] => if at_end s then Some (List.rev caps) else None
  | Lit c :: p' =>
      match s with
      | String x s' => if Ascii.eqb c x then m_atoms p' s' caps else None
      | EmptyString => None
      end
  | Any :: p' =>
      match s with
      | String x s' => if (Chars.code x =? 10)%nat then None else m_atoms p' s' caps
      | EmptyString => None
      end
  | Group name body :: p' =>
      m_items body s EmptyString
              (fun acc rest => m_atoms p' rest ((name, Str.rev acc) :: caps))
  end.

(** [pattern.match(s)] followed by [.groupdict()]: the captures by group
    name, in the order of the groups; [None] when there is no match. *)
Definition match_groupdict (p : pattern) (s : string) : option (list (string * string)) :=
  m_atoms p s [].

(** *** Compiling

    [re.compile] on the strings [_compile_pattern] builds.  The embedding
    covers anchors at both ends, literal characters without a meaning of
    their own, the dot, and named groups with one of the four bodies;
    anything else is [Unsupported]. *)
Inductive compiled : Type :=
| Compiled (p : pattern)
| CompileError (e : exn)
| Unsupported.

Definition is_identifier (s : string) : bool :=
  match s with
  | EmptyString => false
  | String c s' => Chars.is_id_start c && Str.forallb Chars.is_id_continue s'
  end.

Definition bodies : list (string * list item) :=
  [ ("\d+\.?\d*)", body_float); ("\d+)", body_int);
    ("[^/]+)", body_str); ("[0-9a-f-]+)", body_uuid) ].

Fixpoint parse_body (bs : list (string * list item)) (s : string)
  : option (list item * string) :=
  match bs with
  | [] => None
  | (text, b) :: bs' =>
      match Str.strip_prefix text s with
      | Some rest => Some (b, rest)
      | None => parse_body bs' s
      end
  end.

Definition cons_atom (a : atom) (r : compiled) : compiled :=
  match r with
  | Compiled p => Compiled (a :: p)
  | other => other
  end.

(** The text after [^].  [seen] holds the group names read so far. *)
Fixpoint parse (fuel : nat) (seen : list string) (s : string) : compiled :=
  match fuel with
  | O => Unsupported
  | S fuel' =>
      match s with
      | EmptyString => Unsupported
      | String "$" EmptyString => Compiled []
      | String c s' =>
          if negb (Chars.is_meta c) then cons_atom (Lit c) (parse fuel' seen s')
          else if Chars.is_dot c then cons_atom Any (parse fuel' seen s')
          else
            match Str.strip_prefix "(?P<" s with
            | None => Unsupported
            | Some s1 =>
                let '(name, s2) := Str.span (fun x => negb (Chars.code x =? 62)%nat) s1 in
                match s2 with
                | EmptyString => CompileError (re_error "missing >, unterminated name")
                | String _ s3 =>
                    if negb (is_identifier name)
                    then CompileError (re_error "bad character in group name")
                    else if bool_decide (name ∈ seen)
                    then CompileError (re_error "redefinition of group name")
                    else
                      match parse_body bodies s3 with
                      | None => Unsupported
                      | Some (b, s4) =>
                          cons_atom (Group name b) (parse fuel' (name :: seen) s4)
                      end
                end
            end
      end
  end.

Definition compile (regex : string) : compiled :=
  match regex with
  | String "^" s => parse (String.length s) [] s
  | _ => Unsupported
  end.

End Re.

(* ===================================================================== *)
(** ** [router.py] *)
(* ===================================================================== *)

(** [RouteConfig]: a dataclass; its fields hold whatever was passed. *)
Record RouteConfig : Type := mkRouteConfig {
  cache_ttl : pyval;
  rate_limit : pyval;
  background_tasks : pyval;
  validate : pyval
}.

Definition RouteConfig_fields : list string :=
  ["cache_ttl"; "rate_limit"; "background_tasks"; "validate"].

(** [RouteConfig()] *)
Definition RouteConfig_default : RouteConfig :=
  {| cache_ttl := PInt 0; rate_limit := PInt 0;
     background_tasks := PNone; validate := PBool true |}.

(** Lookup in an association list (a [dict] in insertion order). *)
Fixpoint assoc {V : Type} (k : string) (d : list (string * V)) : option V :=
  match d with
  | [] => None
  | (k', v) :: d' => if String.eqb k k' then Some v else assoc k d'
  end.

(** [RouteConfig] called with keyword arguments: an unknown keyword is a
    [TypeError]. *)
Definition RouteConfig_init (kwargs : list (string * pyval)) : outcome RouteConfig :=
  if forallb (fun kv => bool_decide (kv.1 ∈ RouteConfig_fields)) kwargs then
    Ok {| cache_ttl := default (cache_ttl RouteConfig_default) (assoc "cache_ttl" kwargs);
          rate_limit := default (rate_limit RouteConfig_default) (assoc "rate_limit" kwargs);
          background_tasks :=
            default (background_tasks RouteConfig_default) (assoc "background_tasks" kwargs);
          validate := default (validate RouteConfig_default) (assoc "validate" kwargs) |}
  else Raise (TypeError "__init__() got an unexpected keyword argument").

Module Compile.

(** One match of [\{(\w+):(\w+)\}] at the start of [s]: the two groups and
    the length of the match. *)
Definition typed_at (s : string) : option (string * string * nat) :=
  match s with
  | String "{" s1 =>
      let '(name, s2) := Str.span Chars.is_word s1 in
      if Str.is_empty name then None else
      match s2 with
      | String ":" s3 =>
          let '(ty, s4) := Str.span Chars.is_word s3 in
          if Str.is_empty ty then None else
          match s4 with
          | String "}" _ => Some (name, ty, (String.length name + String.length ty + 3)%nat)
          | _ => None
          end
      | _ => None
      end
  | _ => None
  end.

(** One match of [\{(\w+)\}] at the start of [s]. *)
Definition basic_at (s : string) : option (string * nat) :=
  match s with
  | String "{" s1 =>
      let '(name, s2) := Str.span Chars.is_word s1 in
      if Str.is_empty name then None else
      match s2 with
      | String "}" _ => Some (name, (String.length name + 2)%nat)
      | _ => None
      end
  | _ => None
  end.

(** [pattern.finditer(s)]: the matches from left to right, without
    overlap; [skip] counts the characters of the last match still to be
    passed over. *)
Fixpoint finditer {G : Type} (at_start : string -> option (G * nat))
         (skip : nat) (s : string) : list G :=
  match s with
  | EmptyString => []
  | String _ s' =>
      match skip with
      | S k => finditer at_start k s'
      | O =>
          match at_start s with
          | Some (g, len) => g :: finditer at_start (len - 1) s'
          | None => finditer at_start O s'
          end
      end
  end.

(** [type_map.get(param_type, r"[^/]+")] *)
Definition type_map_get (param_type : string) : string :=
  if String.eqb param_type "int" then "\d+"
  else if String.eqb param_type "str" then "[^/]+"
  else if String.eqb param_type "float" then "\d+\.?\d*"
  else if String.eqb param_type "uuid" then "[0-9a-f-]+"
  else "[^/]+".

(** The first loop of [_compile_pattern], over the typed placeholders. *)
Definition typed_step (st : gmap string string * string) (m : string * string)
  : gmap string string * string :=
  let '(param_types, path_regex) := st in
  let '(param_name, param_type) := m in
  (<[param_name := param_type]> param_types,
   Str.replace ("{" ++ param_name ++ ":" ++ param_type ++ "}")
               ("(?P<" ++ param_name ++ ">" ++ type_map_get param_type ++ ")")
               path_regex).

(** The second loop, over the untyped placeholders. *)
Definition basic_step (path_regex : string) (param_name : string) : string :=
  Str.replace ("{" ++ param_name ++ "}") ("(?P<" ++ param_name ++ ">[^/]+)") path_regex.

(** The regular expression text and the parameter types of a template. *)
Definition regex_of (path : string) : string * gmap string string :=
  let '(param_types, path_regex) :=
    fold_left typed_step (finditer typed_at O path) (∅, path) in
  let path_regex := fold_left basic_step (finditer basic_at O path_regex) path_regex in
  ("^" ++ path_regex ++ "$", param_types).

Definition _compile_pattern (path : string) : Re.compiled * gmap string string :=
  let '(regex, param_types) := regex_of path in
  (Re.compile regex, param_types).

End Compile.

Section Routing.

(** The handler reference is opaque to the router. *)
Context {Handler : Type}.

Record Route : Type := mkRoute {
  path : string;
  methods : list string;
  handler : Handler;
  config : RouteConfig;
  pattern : Re.pattern;
  param_types : gmap string string
}.

(** What a constructor does: an object, the exception it raises (the
    [re.error] of a pattern that does not compile, a [TypeError]), or a
    template outside the embedded fragment. *)
Inductive constructed (A : Type) : Type :=
| Built (a : A)
| Raised (e : exn)
| OutsideFragment.
Arguments Built {A} a.
Arguments Raised {A} e.
Arguments OutsideFragment {A}.

(** [Route.__init__]; a [config] of [None] becomes [RouteConfig()]. *)
Definition Route_init (path : string) (methods : list string) (handler : Handler)
           (config : option RouteConfig) : constructed Route :=
  match Compile._compile_pattern path with
  | (Re.Compiled p, types) =>
      Built {| path := path; methods := methods; handler := handler;
               config := default RouteConfig_default config;
               pattern := p; param_types := types |}
  | (Re.CompileError e, _) => Raised e
  | (Re.Unsupported, _) => OutsideFragment
  end.

(** The body of the conversion loop of [Route.match] for one captured
    group: a failed [int] or [float] keeps the string. *)
Definition convert (types : gmap string string) (kv : string * string) : string * pyval :=
  let '(param_name, value) := kv in
  match types !! param_name with
  | Some param_type =>
      if String.eqb param_type "int" then
        (param_name, match Conv.py_int value with
                     | Some z => PInt z
                     | None => PStr value
                     end)
      else if String.eqb param_type "float" then
        (param_name, match Conv.py_float value with
                     | Some x => PFloat x
                     | None => PStr value
                     end)
      else if String.eqb param_type "bool" then
        (param_name,
         PBool (bool_decide (Str.lower value ∈ ["true"; "1"; "yes"])))
      else (param_name, PStr value)
  | None => (param_name, PStr value)
  end.

(** [Route.match]; [None] is the [None] of the source. *)
Definition Route_match (r : Route) (path method : string)
  : option (list (string * pyval)) :=
  if negb (bool_decide (method ∈ methods r)) then None
  else
    match Re.match_groupdict (pattern r) path with
    | None => None
    | Some params => Some (map (convert (param_types r)) params)
    end.

Definition cache_entry : Type := Handler * list (string * pyval) * RouteConfig.

Record Router : Type := mkRouter {
  routes : list Route;
  _route_cache : gmap (string * string) cache_entry
}.

Definition Router_init : Router := {| routes := []; _route_cache := ∅ |}.

(** [Router.add_route]: when building the configuration or the route
    raises, the router is left as it was. *)
Definition add_route (self : Router) (path : string) (methods : list string)
           (handler : Handler) (kwargs : list (string * pyval)) : constructed Router :=
  match RouteConfig_init kwargs with
  | Raise e => Raised e
  | Ok config =>
      match Route_init path methods handler (Some config) with
      | Built route => Built {| routes := routes self ++ [route]; _route_cache := ∅ |}
      | Raised e => Raised e
      | OutsideFragment => OutsideFragment
      end
  end.

(** The loop of [find_route]: the first route that matches. *)
Fixpoint scan (rs : list Route) (path method : string) : option cache_entry :=
  match rs with
  | [] => None
  | route :: rs' =>
      match Route_match route path method with
      | Some params => Some (handler route, params, config route)
      | None => scan rs' path method
      end
  end.

(** [Router.find_route]: the result and the router afterwards. *)
Definition find_route (self : Router) (path method : string)
  : option cache_entry * Router :=
  let cache_key := (path, method) in
  match _route_cache self !! cache_key with
  | Some cached => (Some cached, self)
  | None =>
      match scan (routes self) path method with
      | Some result =>
          (Some result,
           {| routes := routes self;
              _route_cache := <[cache_key := result]> (_route_cache self) |})
      | None => (None, self)
      end
  end.

End Routing.

Arguments Route : clear implicits.
Arguments Router : clear implicits.
Arguments cache_entry : clear implicits.
Arguments Built {A} a.
Arguments Raised {A} e.
Arguments OutsideFragment {A}.

(* ===================================================================== *)
(** ** [request.py], [response.py]: the shapes the dispatcher handles *)
(* ===================================================================== *)

Module Request.
(** [method] and [path] are read from the ASGI scope; [path_params] is
    assigned by the dispatcher; [attrs] holds what middleware attaches. *)
Record t : Type := mk {
  method : string;
  path : string;
  headers : list (string * string);
  path_params : list (string * pyval);
  attrs : list (string * pyval)
}.

Definition set_path_params (r : t) (ps : list (string * pyval)) : t :=
  {| method := method r; path := path r; headers := headers r;
     path_params := ps; attrs := attrs r |}.
End Request.

Module Response.
Inductive class : Type :=
| Response | JSONResponse | HTMLResponse | TextResponse | StreamResponse.

(** The [timestamp] field, a reading of the clock, is left out. *)
Record t : Type := mk {
  cls : class;
  content : pyval;
  status_code : Z;
  headers : list (string * string);
  media_type : string
}.

Definition json (content : pyval) (status_code : Z) : t :=
  mk JSONResponse content status_code [] "application/json".

Definition text (content : pyval) : t :=
  mk TextResponse content 200 [] "text/plain; charset=utf-8".
End Response.

(* ===================================================================== *)
(** ** A state and exception monad *)
(* ===================================================================== *)

Definition M (S A : Type) : Type := S -> S * outcome A.

Definition ret {S A : Type} (a : A) : M S A := fun s => (s, Ok a).
Definition raise {S A : Type} (e : exn) : M S A := fun s => (s, Raise e).
Definition bind {S A B : Type} (c : M S A) (k : A -> M S B) : M S B :=
  fun s => match c s with
           | (s', Ok a) => k a s'
           | (s', Raise e) => (s', Raise e)
           end.
Definition get {S : Type} : M S S := fun s => (s, Ok s).
Definition modify {S : Type} (f : S -> S) : M S unit := fun s => (f s, Ok tt).
Definition of_outcome {S A : Type} (o : outcome A) : M S A := fun s => (s, o).

(** [except Exception as exc]: only instances of [Exception] are caught. *)
Definition catches_Exception (e : exn) : bool := bool_decide ("Exception" ∈ exc_mro e).

Definition try_except {S A : Type} (c : M S A) (h : exn -> M S A) : M S A :=
  fun s => match c s with
           | (s', Ok a) => (s', Ok a)
           | (s', Raise e) => if catches_Exception e then h e s' else (s', Raise e)
           end.

Declare Scope monad_scope.
Delimit Scope monad_scope with monad.
Notation "'let!' x := c 'in' k" := (bind c (fun x => k))
  (at level 10, x pattern, c at level 100, k at level 200) : monad_scope.

Fixpoint for_each {S A : Type} (l : list A) (f : A -> M S unit) : M S unit :=
  match l with
  | [] => ret tt
  | x :: l' => bind (f x) (fun _ => for_each l' f)
  end.

(* ===================================================================== *)
(** ** [app.py] *)
(* ===================================================================== *)

(** Names bound in the module [app]: its imports and its two classes. *)
Definition app_globals : list string :=
  [ "asyncio"; "time"; "inspect";
    "Dict"; "List"; "Callable"; "Any"; "Optional"; "Union";
    "dataclass"; "Router"; "Request"; "Response"; "JSONResponse";
    "Middleware"; "HTTPException"; "MemoryCache"; "BackgroundTaskManager";
    "FlashConfig"; "FlashAPI" ].

(** Evaluating a global name: one that is not bound is a [NameError]. *)
Definition global_name (name : string) : outcome unit :=
  if bool_decide (name ∈ app_globals) then Ok tt
  else Raise (NameError ("name '" ++ name ++ "' is not defined")).

(** What a handler returns: a response object or some other value. *)
Inductive result : Type :=
| RetResponse (r : Response.t)
| RetValue (v : pyval).

(** [FlashAPI._create_response] *)
Definition _create_response (res : result) : outcome Response.t :=
  match res with
  | RetResponse r => Ok r
  | RetValue (PDict _ as v) | RetValue (PList _ as v) => Ok (Response.json v 200)
  | RetValue (PStr _ as v) =>
      match global_name "TextResponse" with
      | Ok _ => Ok (Response.text v)
      | Raise e => Raise e
      end
  | RetValue v => Ok (Response.json (PDict [(PStr "result", v)]) 200)
  end.

(** A key of [exception_handlers]: an exception class or a status code. *)
Inductive discriminator : Type :=
| DClass (name : string)
| DStatus (code : Z).

Global Instance discriminator_eq_dec : EqDecision discriminator.
Proof. solve_decision. Defined.

(** [isinstance(exc, exc_class)]: the second argument must be a class. *)
Definition isinstance (exc : exn) (d : discriminator) : outcome bool :=
  match d with
  | DClass c => Ok (bool_decide (c ∈ exc_mro exc))
  | DStatus _ =>
      Raise (TypeError "isinstance() arg 2 must be a type, a tuple of types, or a union")
  end.

(** [exc_class == type(exc)] *)
Definition is_type_of (d : discriminator) (exc : exn) : bool :=
  match d with
  | DClass c => String.eqb c (exc_type exc)
  | DStatus _ => false
  end.

Inductive annotation : Type := AnnEmpty | AnnRequest | AnnOther.

(** [inspect.Parameter.kind] *)
Inductive kind : Type :=
| PositionalOnly | PositionalOrKeyword | VarPositional | KeywordOnly | VarKeyword.

(** A parameter of a handler's signature; [param_required] says that it
    has no default. *)
Record parameter : Type := mkParameter {
  param_name : string;
  param_annotation : annotation;
  param_kind : kind;
  param_required : bool
}.

(** A parameter that a keyword argument can bind, one that collects the
    keywords that bind no parameter (two stars in front of its name), and
    one that takes a single value. *)
Definition by_keyword (p : parameter) : bool :=
  match param_kind p with
  | PositionalOrKeyword | KeywordOnly => true
  | _ => false
  end.
Definition collects_keywords (p : parameter) : bool :=
  match param_kind p with VarKeyword => true | _ => false end.
Definition takes_value (p : parameter) : bool :=
  match param_kind p with
  | VarPositional | VarKeyword => false
  | _ => true
  end.

(** What the dispatcher binds to a parameter. *)
Inductive argument : Type :=
| ArgValue (v : pyval)
| ArgRequest (r : Request.t).

Section Dispatcher.

(** The state of everything outside the dispatcher that user code may read
    and change. *)
Context {W : Type}.

(** [str(exc)] for an [HTTPException], fixed by the class definition. *)
Variable http_exception_str : Z -> string -> string.

Definition exc_str (e : exn) : string :=
  match e with
  | HTTPException code detail => http_exception_str code detail
  | PyExc _ _ msg => msg
  end.

(** User code: a function of the world that returns or raises. *)
Definition user (A : Type) : Type := M W A.

(** A handler: whether it is a coroutine function, its signature, and its
    body as a function of the keyword arguments it is called with. *)
Record Handler : Type := mkHandler {
  is_coroutine : bool;
  signature : list parameter;
  body : list (string * argument) -> user result
}.

(** A middleware object; a hook it does not define is [None]
    ([hasattr] is false).  A hook returns [None] or a replacement.  Requests
    and responses are values: a hook that changes the object it is given and
    returns it is a hook that returns the changed value. *)
Record Middleware : Type := mkMiddleware {
  before_request : option (Request.t -> user (option Request.t));
  after_request : option (Request.t -> Response.t -> user (option Response.t))
}.

Definition exc_handler : Type := exn -> user Response.t.

Record FlashAPI : Type := mkFlashAPI {
  router : Router Handler;
  middleware : list Middleware;
  exception_handlers : list (discriminator * exc_handler)
}.

(** The calls the dispatcher makes, in the order it makes them. *)
Inductive event : Type :=
| EvBefore (i : nat) (request : Request.t)
| EvAfter (i : nat) (request : Request.t) (response : Response.t)
| EvHandler (args : list (string * argument))
| EvSend (response : Response.t).

(** The state of one run of [_handle_http_request]: the application, the
    world, the local variable [request] and the trace. *)
Record dstate : Type := mkDstate {
  self : FlashAPI;
  world : W;
  request : Request.t;
  trace : list event
}.

Definition log (ev : event) : M dstate unit :=
  modify (fun s => {| self := self s; world := world s; request := request s;
                      trace := trace s ++ [ev] |}).

Definition set_request (r : Request.t) : M dstate unit :=
  modify (fun s => {| self := self s; world := world s; request := r;
                      trace := trace s |}).

Definition set_router (rt : Router Handler) : M dstate unit :=
  modify (fun s => {| self := {| router := rt; middleware := middleware (self s);
                                 exception_handlers := exception_handlers (self s) |};
                      world := world s; request := request s; trace := trace s |}).

(** Running user code: it sees and changes the world only.  User code is
    taken to leave the application object alone and not to change in place
    the objects it is handed.  In the source the dictionary
    [request.path_params] is the one stored in the cache of the router, so
    that a handler or a hook that changes it changes the cache entry: such
    code is outside this embedding. *)
Definition call {A : Type} (c : user A) : M dstate A :=
  fun s => let '(w, o) := c (world s) in
           ({| self := self s; world := w; request := request s; trace := trace s |}, o).

Local Open Scope monad_scope.

(** *** Exception handlers *)

Definition _handle_http_exception (exc : exn) : user Response.t :=
  match exc with
  | HTTPException code detail =>
      ret (Response.json (PDict [(PStr "error", PStr detail);
                                 (PStr "status_code", PInt code)]) code)
  | PyExc _ _ _ => raise (AttributeError "object has no attribute 'detail'")
  end.

Definition _handle_404_exception (exc : exn) : user Response.t :=
  ret (Response.json (PDict [(PStr "error", PStr "Not Found");
                             (PStr "message", PStr (exc_str exc))]) 404).

Definition _handle_500_exception (exc : exn) : user Response.t :=
  ret (Response.json (PDict [(PStr "error", PStr "Internal Server Error")]) 500).

(** [self.exception_handlers[exc_class] = handler]: a key already present
    keeps its place. *)
Fixpoint dict_set (hs : list (discriminator * exc_handler))
         (k : discriminator) (h : exc_handler) : list (discriminator * exc_handler) :=
  match hs with
  | [] => [(k, h)]
  | (k', h') :: hs' =>
      if decide (k = k') then (k, h) :: hs' else (k', h') :: dict_set hs' k h
  end.

Definition add_exception_handler (app : FlashAPI) (exc_class : discriminator)
           (h : exc_handler) : FlashAPI :=
  {| router := router app; middleware := middleware app;
     exception_handlers := dict_set (exception_handlers app) exc_class h |}.

Definition add_middleware (app : FlashAPI) (m : Middleware) : FlashAPI :=
  {| router := router app; middleware := middleware app ++ [m];
     exception_handlers := exception_handlers app |}.

(** [FlashAPI.add_route] hands over to the router. *)
Definition FlashAPI_add_route (app : FlashAPI) (path : string) (methods : list string)
           (h : Handler) (kwargs : list (string * pyval)) : constructed FlashAPI :=
  match add_route (router app) path methods h kwargs with
  | Built rt => Built {| router := rt; middleware := middleware app;
                         exception_handlers := exception_handlers app |}
  | Raised e => Raised e
  | OutsideFragment => OutsideFragment
  end.

Definition _setup_default_handlers (app : FlashAPI) : FlashAPI :=
  add_exception_handler
    (add_exception_handler
       (add_exception_handler app (DClass "HTTPException") _handle_http_exception)
       (DStatus 500) _handle_500_exception)
    (DStatus 404) _handle_404_exception.

(** [FlashAPI.__init__] *)
Definition FlashAPI_init : FlashAPI :=
  _setup_default_handlers
    {| router := Router_init; middleware := []; exception_handlers := [] |}.

(** The loop of [_handle_exception] over [exception_handlers.items()],
    and the default response after it. *)
Fixpoint resolve (hs : list (discriminator * exc_handler)) (exc : exn) : user Response.t :=
  match hs with
  | [] =>
      ret (Response.json (PDict [(PStr "error", PStr "Internal Server Error");
                                 (PStr "message", PStr (exc_str exc))]) 500)
  | (exc_class, h) :: hs' =>
      match isinstance exc exc_class with
      | Raise e => raise e
      | Ok b => if b || is_type_of exc_class exc then h exc else resolve hs' exc
      end
  end.

Definition _handle_exception (app : FlashAPI) (exc : exn) : user Response.t :=
  resolve (exception_handlers app) exc.

(** *** Calling the handler *)

Definition bind_parameter (request : Request.t) (path_params : list (string * pyval))
           (p : parameter) : option (string * argument) :=
  match assoc (param_name p) path_params with
  | Some v => Some (param_name p, ArgValue v)
  | None =>
      if String.eqb (param_name p) "request" then Some (param_name p, ArgRequest request)
      else match param_annotation p with
           | AnnRequest => Some (param_name p, ArgRequest request)
           | _ => None
           end
  end.

Definition _prepare_handler_args (request : Request.t) (h : Handler)
           (path_params : list (string * pyval)) : list (string * argument) :=
  omap (bind_parameter request path_params) (signature h).

(** The call of the handler with [handler_args] as keyword arguments.  Each
    keyword binds the parameter of its name when that parameter can be
    given by keyword, and otherwise goes to the parameter that collects
    keywords when the handler has one; each parameter without a
    default needs a value, which a positional-only parameter never gets from
    a keyword.  Anything else is a [TypeError] before the body runs. *)
Definition keyword_accepted (sig : list parameter) (name : string) : bool :=
  existsb (fun p => by_keyword p && String.eqb (param_name p) name) sig
  || existsb collects_keywords sig.

Definition parameter_supplied (args : list (string * argument)) (p : parameter) : bool :=
  negb (takes_value p && param_required p)
  || (by_keyword p && bool_decide (param_name p ∈ map fst args)).

Definition apply_handler (h : Handler) (args : list (string * argument)) : user result :=
  if forallb (keyword_accepted (signature h)) (map fst args)
     && forallb (parameter_supplied args) (signature h)
  then body h args
  else raise (TypeError "handler got arguments that do not fit its parameters").

(** A coroutine function is awaited; any other handler goes through
    [run_in_executor], which accepts no keyword arguments. *)
Definition invoke (h : Handler) (args : list (string * argument)) : user result :=
  if is_coroutine h then apply_handler h args
  else match args with
       | [] => apply_handler h []
       | _ :: _ => raise (TypeError "run_in_executor() got an unexpected keyword argument")
       end.

(** *** The dispatcher *)

Definition indexed {A : Type} (l : list A) : list (nat * A) :=
  combine (seq 0 (length l)) l.

Definition pre_hook (im : nat * Middleware) : M dstate unit :=
  match before_request im.2 with
  | Some hook =>
      let! s := get in
      let! _ := log (EvBefore im.1 (request s)) in
      let! r := call (hook (request s)) in
      set_request (default (request s) r)
  | None => ret tt
  end.

(** The body of the [try] statement. *)
Definition try_body : M dstate Response.t :=
  let! s := get in
  let! _ := for_each (indexed (middleware (self s))) pre_hook in
  let! s := get in
  let '(route_match, rt) :=
    find_route (router (self s)) (Request.path (request s)) (Request.method (request s)) in
  let! _ := set_router rt in
  match route_match with
  | None =>
      raise (HTTPException 404 ("Route " ++ Request.path (request s) ++ " not found"))
  | Some (h, path_params, route_config) =>
      let! _ := set_request (Request.set_path_params (request s) path_params) in
      let! s := get in
      let handler_args := _prepare_handler_args (request s) h path_params in
      let! _ := log (EvHandler handler_args) in
      let! res := call (invoke h handler_args) in
      of_outcome (_create_response res)
  end.

Definition post_hook (im : nat * Middleware) (response : Response.t) : M dstate Response.t :=
  match after_request im.2 with
  | Some hook =>
      let! s := get in
      let! _ := log (EvAfter im.1 (request s) response) in
      let! r := call (hook (request s) response) in
      ret (default response r)
  | None => ret response
  end.

Fixpoint post_loop (ims : list (nat * Middleware)) (response : Response.t)
  : M dstate Response.t :=
  match ims with
  | [] => ret response
  | im :: ims' => let! response' := post_hook im response in post_loop ims' response'
  end.

(** The [try] statement with its [except Exception] clause. *)
Definition try_statement : M dstate Response.t :=
  try_except try_body
    (fun exc => let! s := get in call (_handle_exception (self s) exc)).

(** The loop over [reversed(self.middleware)]. *)
Definition post_phase (response : Response.t) : M dstate Response.t :=
  let! s := get in
  post_loop (rev (indexed (middleware (self s)))) response.

(** [_handle_http_request]; [emit response] stands for
    [await response(scope, receive, send)], the hand-over to the
    transport. *)
Definition _handle_http_request (emit : Response.t -> user unit) : M dstate unit :=
  let! response := try_statement in
  let! response := post_phase response in
  let! _ := log (EvSend response) in
  call (emit response).

(** The state in which a request enters the dispatcher. *)
Definition initial (app : FlashAPI) (req : Request.t) (w : W) : dstate :=
  {| self := app; world := w; request := req; trace := [] |}.

(** One request through the dispatcher. *)
Definition dispatch (app : FlashAPI) (emit : Response.t -> user unit)
           (req : Request.t) (w : W) : dstate * outcome unit :=
  _handle_http_request emit (initial app req w).

End Dispatcher.

Arguments Handler : clear implicits.
Arguments Middleware : clear implicits.
Arguments FlashAPI : clear implicits.
Arguments dstate : clear implicits.
Arguments exc_handler : clear implicits.

(* ===================================================================== *)
(** ** Vocabulary of the properties *)
(* ===================================================================== *)

Section RouterVocabulary.
Context {Handler : Type}.

(** Every cache entry is what a scan of the current routes returns. *)
Definition cache_consistent (r : Router Handler) : Prop :=
  forall path method entry,
    _route_cache r !! (path, method) = Some entry ->
    scan (routes r) path method = Some entry.

(** The routers an application can hold: built by [add_route] and used
    by [find_route], starting from the empty one. *)
Inductive reachable : Router Handler -> Prop :=
| reach_init : reachable Router_init
| reach_add r path methods h kwargs r' :
    reachable r -> add_route r path methods h kwargs = Built r' -> reachable r'
| reach_find r path method :
    reachable r -> reachable (find_route r path method).2.

(** A lookup that found nothing left an entry for its key behind. *)
Definition miss_memoized (r : Router Handler) (path method : string) : Prop :=
  (path, method) ∈ dom (_route_cache (find_route r path method).2).
End RouterVocabulary.

Section DispatcherVocabulary.
Context {W : Type}.

(** The responses handed to the transport, in order. *)
Definition sends (t : list event) : list Response.t :=
  omap (fun ev => match ev with EvSend r => Some r | _ => None end) t.

(** The middleware whose pre-hook, respectively post-hook, was invoked,
    in the order of invocation. *)
Definition befores (t : list event) : list nat :=
  omap (fun ev => match ev with EvBefore i _ => Some i | _ => None end) t.
Definition afters (t : list event) : list nat :=
  omap (fun ev => match ev with EvAfter i _ _ => Some i | _ => None end) t.

(** The positions, among numbered middleware, of those that define a
    pre-hook, respectively a post-hook. *)
Definition hooks_before (ims : list (nat * Middleware W)) : list nat :=
  omap (fun im : nat * Middleware W =>
          match before_request im.2 with Some _ => Some im.1 | None => None end) ims.
Definition hooks_after (ims : list (nat * Middleware W)) : list nat :=
  omap (fun im : nat * Middleware W =>
          match after_request im.2 with Some _ => Some im.1 | None => None end) ims.

(** The same for the registered middleware, in registration order. *)
Definition with_before (ms : list (Middleware W)) : list nat :=
  hooks_before (indexed ms).
Definition with_after (ms : list (Middleware W)) : list nat :=
  hooks_after (indexed ms).


(** Every hook was invoked exactly once, pre-hooks in registration order
    and post-hooks in reverse registration order. *)
Definition each_hook_once (app : FlashAPI W) (run : dstate W * outcome unit) : Prop :=
  befores (trace run.1) = with_before (middleware app)
  /\ afters (trace run.1) = rev (with_after (middleware app)).

(** No pre-hook of these middleware raises. *)
Definition pre_hooks_return (ms : list (Middleware W)) : Prop :=
  forall m hook, m ∈ ms -> before_request m = Some hook ->
    forall rq w, exists w' r, hook rq w = (w', Ok r).

(** What a part of the dispatcher leaves behind: the registered middleware
    and exception handlers as they were, and a trace extended by calls of
    pre-hooks, in registration order, and of the handler. *)
Definition try_footprint (s s' : dstate W) : Prop :=
  middleware (self s') = middleware (self s)
  /\ exception_handlers (self s') = exception_handlers (self s)
  /\ exists evs,
       trace s' = (trace s ++ evs)%list
       /\ sends evs = [] /\ afters evs = []
       /\ befores evs `prefix_of` with_before (middleware (self s))
       /\ (pre_hooks_return (middleware (self s)) ->
           befores evs = with_before (middleware (self s))).

End DispatcherVocabulary.

Section AnswerVocabulary.
Context {W : Type}.




End AnswerVocabulary.

Section PhaseSpecification.
Context {W : Type}.

(** The two phases as the specification words them, with the calls they
    make.

    [runPre(request)]: for each interceptor in registration order, if it
    defines a pre-hook, replace the working request with the return value of
    the hook, falling back to the unmodified request if the hook yields
    nothing.  The result: the hooks called, each with the request it was
    given; the world and the working request at the end; the failure of the
    hook that raised, if one did, which ends the phase. *)
Fixpoint runPre (ims : list (nat * Middleware W)) (request : Request.t) (w : W)
  : list (nat * Request.t) * W * Request.t * option exn :=
  match ims with
  | [] => ([], w, request, None)
  | im :: ims' =>
      match before_request im.2 with
      | None => runPre ims' request w
      | Some hook =>
          match hook request w with
          | (w', Ok r) =>
              let '(calls, w'', request', failure) := runPre ims' (default request r) w' in
              ((im.1, request) :: calls, w'', request', failure)
          | (w', Raise e) => ([(im.1, request)], w', request, Some e)
          end
      end
  end.

(** [runPost(request, response)]: for each interceptor of the list, which
    the dispatcher gives in reverse registration order, if it defines a
    post-hook, replace the working response with the return value of the
    hook, falling back to the unmodified response if the hook yields
    nothing. *)
Fixpoint runPost (ims : list (nat * Middleware W)) (request : Request.t)
         (response : Response.t) (w : W)
  : list (nat * Request.t * Response.t) * W * outcome Response.t :=
  match ims with
  | [] => ([], w, Ok response)
  | im :: ims' =>
      match after_request im.2 with
      | None => runPost ims' request response w
      | Some hook =>
          match hook request response w with
          | (w', Ok r) =>
              let '(calls, w'', o) := runPost ims' request (default response r) w' in
              ((im.1, request, response) :: calls, w'', o)
          | (w', Raise e) => ([(im.1, request, response)], w', Raise e)
          end
      end
  end.

(** The calls of pre-hooks and of post-hooks in a trace, with their
    arguments. *)
Definition before_calls (t : list event) : list (nat * Request.t) :=
  omap (fun ev => match ev with EvBefore i rq => Some (i, rq) | _ => None end) t.
Definition after_calls (t : list event) : list (nat * Request.t * Response.t) :=
  omap (fun ev => match ev with EvAfter i rq rs => Some (i, rq, rs) | _ => None end) t.

Definition before_events (calls : list (nat * Request.t)) : list event :=
  map (fun c => EvBefore c.1 c.2) calls.
Definition after_events (calls : list (nat * Request.t * Response.t)) : list event :=
  map (fun c => EvAfter c.1.1 c.1.2 c.2) calls.

End PhaseSpecification.

(* ===================================================================== *)
(** ** Fixtures *)
(* ===================================================================== *)

Module Fixture.

Definition default_config : RouteConfig := RouteConfig_default.

Definition or_else {A : Type} (d : A) (c : constructed A) : A :=
  match c with Built a => a | _ => d end.

Definition no_route : Route nat :=
  {| path := ""; methods := []; handler := O; config := default_config;
     pattern := []; param_types := ∅ |}.

(** Routes with handlers numbered by registration. *)
Definition route (template : string) (h : nat) : Route nat :=
  or_else no_route (Route_init template ["GET"] h None).

Definition items_route : Route nat := route "/items/{id:int}" 1.
Definition flag_route : Route nat := route "/f/{flag:bool}" 1.

(** The router of [/a/{x}], and that router after a lookup of [/a/fixed]. *)
Definition one_route : Router nat :=
  or_else Router_init (add_route Router_init "/a/{x}" ["GET"] 1%nat []).

Definition looked_up : Router nat := (find_route one_route "/a/fixed" "GET").2.

(** [/a/{x}] registered before [/a/fixed]. *)
Definition two_routes : Router nat :=
  or_else Router_init
    (add_route (or_else Router_init (add_route Router_init "/a/{x}" ["GET"] 1%nat []))
               "/a/fixed" ["GET"] 2%nat []).

(** The dispatcher fixtures run in a world that records the names of the
    hooks and handlers that ran. *)
Definition World : Type := list string.

Definition note {A : Type} (name : string) (o : outcome A) : user A :=
  fun w : World => ((w ++ [name])%list, o).

Definition http_str (code : Z) (detail : string) : string := detail.

Definition get_request (path : string) : Request.t :=
  Request.mk "GET" path [] [] [].

Definition emit (r : Response.t) : user (W := World) unit := note "send" (Ok tt).

(** An order-recording interceptor. *)
Definition recorder (name : string) : Middleware World :=
  {| before_request := Some (fun _ => note ("pre " ++ name) (Ok None));
     after_request := Some (fun _ _ => note ("post " ++ name) (Ok None)) |}.

(** An interceptor whose pre-hook refuses every request. *)
Definition gatekeeper : Middleware World :=
  {| before_request :=
       Some (fun _ => note "pre gate" (Raise (HTTPException 401 "unauthorized")));
     after_request := Some (fun _ _ => note "post gate" (Ok None)) |}.


Definition failing_handler : Handler World :=
  {| is_coroutine := true; signature := [];
     body := fun _ => note "handler" (Raise (ValueError "boom")) |}.

Definition forbidden_handler : Handler World :=
  {| is_coroutine := true; signature := [];
     body := fun _ => note "handler" (Raise (HTTPException 403 "forbidden")) |}.

Definition hello_handler : Handler World :=
  {| is_coroutine := true; signature := [];
     body := fun _ => note "handler" (Ok (RetValue (PDict [(PStr "hello", PStr "world")]))) |}.

Definition app0 : FlashAPI World := FlashAPI_init http_str.

Definition with_route (app : FlashAPI World) (template : string) (h : Handler World)
  : FlashAPI World :=
  or_else app (FlashAPI_add_route app template ["GET"] h []).

(** The default application with three routes. *)
Definition app_routes : FlashAPI World :=
  with_route (with_route (with_route app0 "/hello" hello_handler)
                         "/boom" failing_handler)
             "/secret" forbidden_handler.

Definition app_recorders : FlashAPI World :=
  add_middleware (add_middleware app_routes (recorder "A")) (recorder "B").

Definition app_gate : FlashAPI World :=
  add_middleware (add_middleware app_routes gatekeeper) (recorder "B").


End Fixture.

(* ===================================================================== *)
(** ** More of the code: names, dictionaries, [request.py] *)
(* ===================================================================== *)

(** A placeholder name the pattern compiler and [re.compile] both accept: a
    run of [\w] characters that is an identifier. *)
Definition is_name (name : string) : bool :=
  Re.is_identifier name && Str.forallb Chars.is_word name.

(** A placeholder type: a non-empty run of [\w] characters. *)
Definition is_type_tag (ty : string) : bool :=
  negb (Str.is_empty ty) && Str.forallb Chars.is_word ty.

(** The group body that [type_map] gives a declared type. *)
Definition group_body (param_type : string) : list Re.item :=
  if String.eqb param_type "int" then Re.body_int
  else if String.eqb param_type "float" then Re.body_float
  else if String.eqb param_type "uuid" then Re.body_uuid
  else Re.body_str.

(** No opening brace in a text. *)
Definition no_brace (s : string) : bool :=
  Str.forallb (fun c => negb (Ascii.eqb "{" c)) s.

(** The text of a named group, as [_compile_pattern] writes it. *)
Definition group_text (name body : string) : string :=
  String "(" (String "?" (String "P" (String "<" (name ++ String ">" (body ++ ")"))))).

Module Dict.

(** [d[k] = v] on a [dict] with string keys, kept in insertion order: a key
    already present keeps its place. *)
Fixpoint set {V : Type} (d : list (string * V)) (k : string) (v : V) : list (string * V) :=
  match d with
  | [] => [(k, v)]
  | (k', v') :: d' =>
      if String.eqb k k' then (k, v) :: d' else (k', v') :: set d' k v
  end.

(** [d.get(k)] *)
Definition get {V : Type} (d : list (string * V)) (k : string) : option V := assoc k d.

End Dict.

(** The property [Request.headers]: the header pairs of the scope, names in
    lowercase, as a [dict]; of two headers with the same name the later one
    stays. *)
Definition Request_headers (r : Request.t) : list (string * string) :=
  fold_left (fun d kv => Dict.set d (Str.lower kv.1) kv.2) (Request.headers r) [].

(** [Request.get_header] *)
Definition get_header (r : Request.t) (name : string) (default : option string)
  : option string :=
  match Dict.get (Request_headers r) (Str.lower name) with
  | Some v => Some v
  | None => default
  end.

(* ===================================================================== *)
(** ** More of [app.py] *)
(* ===================================================================== *)

(** The end of [FlashAPI.__call__] for a request that was handled: the
    elapsed time is appended to [request_times], and the oldest entry is
    dropped once there are more than 1000. *)
Definition record_time {T : Type} (request_times : list T) (response_time : T) : list T :=
  let times := (request_times ++ [response_time])%list in
  if (1000 <? length times)%nat then tail times else times.

Section Registrations.
Context {W : Type}.
Variable http_exception_str : Z -> string -> string.

(** An application after a sequence of [add_exception_handler] calls. *)
Definition register_all (app : FlashAPI W)
           (regs : list (discriminator * exc_handler W)) : FlashAPI W :=
  fold_left (fun a kh => add_exception_handler a kh.1 kh.2) regs app.

(** The handler stored under a key, as [exception_handlers[key]] reads it. *)
Fixpoint handler_of (hs : list (discriminator * exc_handler W)) (k : discriminator)
  : option (exc_handler W) :=
  match hs with
  | [] => None
  | (k', h) :: hs' => if decide (k = k') then Some h else handler_of hs' k
  end.

(** The applications a program can set up: built by [__init__] and
    configured by [add_route], [add_middleware] and
    [add_exception_handler], in any order. *)
Inductive configured : FlashAPI W -> Prop :=
| configured_init : configured (FlashAPI_init http_exception_str)
| configured_route app path methods h kwargs app' :
    configured app ->
    FlashAPI_add_route app path methods h kwargs = Built app' ->
    configured app'
| configured_middleware app m :
    configured app -> configured (add_middleware app m)
| configured_handler app exc_class h :
    configured app -> configured (add_exception_handler app exc_class h).

End Registrations.

(* ===================================================================== *)
(** ** [response.py], [middleware.py] *)
(* ===================================================================== *)

Definition Response_set_header (r : Response.t) (k v : string) : Response.t :=
  {| Response.cls := Response.cls r; Response.content := Response.content r;
     Response.status_code := Response.status_code r;
     Response.headers := Dict.set (Response.headers r) k v;
     Response.media_type := Response.media_type r |}.

Definition Response_set_content (r : Response.t) (c : pyval) : Response.t :=
  {| Response.cls := Response.cls r; Response.content := c;
     Response.status_code := Response.status_code r;
     Response.headers := Response.headers r;
     Response.media_type := Response.media_type r |}.

Module CORS.

Record t : Type := mk {
  allow_origins : list string;
  allow_methods : list string;
  allow_headers : list string
}.

(** [given or fallback]: [None] and the empty list are both false. *)
Definition or_list (given : option (list string)) (fallback : list string) : list string :=
  match given with
  | Some (x :: l) => x :: l
  | _ => fallback
  end.

(** [CORSMiddleware.__init__] *)
Definition init (origins methods headers : option (list string)) : t :=
  {| allow_origins := or_list origins ["*"];
     allow_methods := or_list methods ["GET"; "POST"; "PUT"; "DELETE"; "PATCH"];
     allow_headers := or_list headers ["Content-Type"; "Authorization"] |}.

(** [", ".join(l)] *)
Fixpoint join (l : list string) : string :=
  match l with
  | [] => ""
  | [x] => x
  | x :: l' => x ++ ", " ++ join l'
  end.

(** Whether the hook sets the headers: there is a non-empty [Origin] and it
    is listed, or [*] is. *)
Definition allowed (self : t) (request : Request.t) : option string :=
  match get_header request "origin" None with
  | Some origin =>
      if negb (Str.is_empty origin)
         && (bool_decide (origin ∈ allow_origins self)
             || bool_decide ("*" ∈ allow_origins self))
      then Some origin else None
  | None => None
  end.

(** [CORSMiddleware.after_request] *)
Definition after_request (self : t) (request : Request.t) (response : Response.t)
  : Response.t :=
  match allowed self request with
  | Some origin =>
      Response_set_header
        (Response_set_header
           (Response_set_header
              (Response_set_header response "Access-Control-Allow-Origin" origin)
              "Access-Control-Allow-Methods" (join (allow_methods self)))
           "Access-Control-Allow-Headers" (join (allow_headers self)))
        "Access-Control-Allow-Credentials" "true"
  | None => response
  end.

End CORS.

Module Compression.
Section Compression.

(** The library functions the hook calls: [gzip.compress], whose output
    carries the time of the call, [json.dumps] with the keyword arguments of
    a JSON response, and [str] for any other content. *)
Variable gzip_compress : string -> string.
Variable json_dumps : pyval -> outcome string.
Variable py_str : pyval -> string.

(** [str(n)] for a length. *)
Definition str_of_len (n : nat) : string := NilEmpty.string_of_uint (Nat.to_uint n).

(** [s.encode('utf-8')] on code points below 256: one byte below 128, two
    bytes from there on. *)
Fixpoint utf8_encode (s : string) : string :=
  match s with
  | EmptyString => EmptyString
  | String c s' =>
      if (Chars.code c <? 128)%nat then String c (utf8_encode s')
      else String (ascii_of_nat (192 + Chars.code c / 64))
                  (String (ascii_of_nat (128 + Chars.code c mod 64)) (utf8_encode s'))
  end.

(** [Response._encode_content], with the override of [JSONResponse]. *)
Definition _encode_content (r : Response.t) : outcome string :=
  match Response.cls r with
  | Response.JSONResponse =>
      match json_dumps (Response.content r) with
      | Ok text => Ok (utf8_encode text)
      | Raise e => Raise e
      end
  | _ =>
      match Response.content r with
      | PBytes b => Ok b
      | PStr text => Ok (utf8_encode text)
      | v => Ok (utf8_encode (py_str v))
      end
  end.

(** [sub in s] on strings. *)
Fixpoint contains (sub s : string) : bool :=
  match Str.strip_prefix sub s with
  | Some _ => true
  | None =>
      match s with
      | EmptyString => false
      | String _ s' => contains sub s'
      end
  end.

Definition compressible_types : list string :=
  ["text/"; "application/json"; "application/javascript"].

(** [CompressionMiddleware._should_compress] *)
Definition _should_compress (response : Response.t) : bool :=
  let content_type := default "" (Dict.get (Response.headers response) "content-type") in
  existsb (fun ct => contains ct content_type) compressible_types.

(** [CompressionMiddleware._compress_response] *)
Definition _compress_response (min_size : Z) (response : Response.t) : outcome Response.t :=
  match _encode_content response with
  | Raise e => Raise e
  | Ok content =>
      if (Z.of_nat (String.length content) <? min_size)%Z then Ok response
      else
        let compressed := gzip_compress content in
        Ok (Response_set_header
              (Response_set_header
                 (Response_set_content response (PBytes compressed))
                 "content-encoding" "gzip")
              "content-length" (str_of_len (String.length compressed)))
  end.

(** [CompressionMiddleware.after_request] *)
Definition after_request (min_size : Z) (request : Request.t) (response : Response.t)
  : outcome Response.t :=
  let accept_encoding := default "" (get_header request "accept-encoding" (Some "")) in
  if contains "gzip" accept_encoding && _should_compress response
  then _compress_response min_size response
  else Ok response.

End Compression.
End Compression.

(* ===================================================================== *)
(** ** [caching.py]: [MemoryCache] *)
(* ===================================================================== *)

Module MemoryCache.
Section MemoryCache.

(** Readings of [time.time()], how a reading compares with an expiry
    ([<]) and what adding a time-to-live to a reading gives ([+]); these are
    float operations of the interpreter. *)
Context {Time : Type}.
Variable before : Time -> Time -> bool.
Variable plus : Time -> Z -> Time.

(** The attribute [_cache]: data and expiry by key. *)
Abbreviation cache := (gmap string (pyval * option Time)).

(** [MemoryCache.get], at a clock reading [now]: the value and the cache
    afterwards. *)
Definition get (self : cache) (now : Time) (key : string) : pyval * cache :=
  match self !! key with
  | Some (data, expiry) =>
      match expiry with
      | None => (data, self)
      | Some e => if before now e then (data, self) else (PNone, delete key self)
      end
  | None => (PNone, self)
  end.

(** [MemoryCache.set]; a [ttl] of [None] or of zero is false and gives no
    expiry. *)
Definition set (self : cache) (now : Time) (key : string) (value : pyval)
           (ttl : option Z) : cache :=
  let expiry := match ttl with
                | Some z => if (z =? 0)%Z then None else Some (plus now z)
                | None => None
                end in
  <[key := (value, expiry)]> self.

(** [MemoryCache.delete] *)
Definition remove (self : cache) (key : string) : cache :=
  match self !! key with
  | Some _ => delete key self
  | None => self
  end.

(** [MemoryCache.clear] *)
Definition clear (self : cache) : cache := ∅.

End MemoryCache.
End MemoryCache.

(* ===================================================================== *)
(** ** More fixtures *)
(* ===================================================================== *)

Module Sample.
Import Fixture.

(** A handler registered for [ValueError]. *)
Definition value_error_handler : exc_handler World :=
  fun _ => note "on ValueError" (Ok (Response.json (PStr "bad value") 400)).

(** The default application with that handler added. *)
Definition app_value_error : FlashAPI World :=
  register_all app0 [(DClass "ValueError", value_error_handler)].

(** A handler with the signature [(id, request, q=None)]. *)
Definition item_signature : list parameter :=
  [ {| param_name := "id"; param_annotation := AnnOther;
       param_kind := PositionalOrKeyword; param_required := true |};
    {| param_name := "request"; param_annotation := AnnEmpty;
       param_kind := PositionalOrKeyword; param_required := true |};
    {| param_name := "q"; param_annotation := AnnEmpty;
       param_kind := PositionalOrKeyword; param_required := false |} ].

Definition item_handler (coroutine : bool) : Handler World :=
  {| is_coroutine := coroutine; signature := item_signature;
     body := fun _ => note "item" (Ok (RetValue (PDict []))) |}.

(** A handler that returns a string, and the default application with a
    route to it behind a recorder. *)
Definition text_handler : Handler World :=
  {| is_coroutine := true; signature := [];
     body := fun _ => note "text" (Ok (RetValue (PStr "hello"))) |}.

Definition app_text : FlashAPI World :=
  add_middleware (with_route app0 "/text" text_handler) (recorder "A").

(** A request from a browser, with an origin, and one that accepts gzip. *)
Definition browser_request : Request.t :=
  Request.mk "GET" "/" [("Host", "api.example"); ("Origin", "https://a.example");
                        ("Accept-Encoding", "gzip, br")] [] [].

(** Two headers of the same name in different case. *)
Definition twice_request : Request.t :=
  Request.mk "GET" "/" [("X-Tag", "one"); ("Host", "h"); ("x-tag", "two")] [] [].

Definition plain_response : Response.t :=
  Response.mk Response.Response (PStr "ok") 200 [("X-Frame-Options", "DENY")] "text/plain".

(** A JSON response that names its content type in its headers. *)
Definition labelled_json : Response.t :=
  Response.mk Response.JSONResponse (PDict []) 200
              [("content-type", "application/json")] "application/json".



(** An interceptor that marks what passes through it: its pre-hook returns
    the request with one more attribute, its post-hook the response with
    one more header. *)
Definition marked (r : Request.t) (name : string) : Request.t :=
  Request.mk (Request.method r) (Request.path r) (Request.headers r)
             (Request.path_params r) (Request.attrs r ++ [(name, PBool true)]).

Definition stamper (name : string) : Middleware World :=
  {| before_request :=
       Some (fun rq => note ("pre " ++ name) (Ok (Some (marked rq name))));
     after_request :=
       Some (fun _ rs =>
               note ("post " ++ name) (Ok (Some (Response_set_header rs name "seen")))) |}.

(** The three routes behind a stamper, a recorder, which returns nothing,
    and another stamper. *)
Definition app_stampers : FlashAPI World :=
  add_middleware (add_middleware (add_middleware app_routes (stamper "A")) (recorder "B"))
                 (stamper "C").



(** Stand-ins for the library functions of the compression hook. *)
Definition gzip_compress (s : string) : string := "gz:" ++ s.
Definition json_dumps (v : pyval) : outcome string :=
  match v with
  | PBytes _ => Raise (TypeError "Object of type bytes is not JSON serializable")
  | _ => Ok "{}"
  end.
Definition py_str (v : pyval) : string := "".

End Sample.

(* ===================================================================== *)
(** ** Route templates with any number of placeholders *)
(* ===================================================================== *)

Module Template.

(** A route template as a program writes it: literal text and
    placeholders, typed or not. *)
Inductive piece : Type :=
| Text (s : string)
| Hole (name : string) (ty : option string).

(** The text of a placeholder, and the text of the group that
    [_compile_pattern] puts in its place. *)
Definition hole_text (name : string) (ty : option string) : string :=
  match ty with
  | Some t => String "{" (name ++ String ":" (t ++ "}"))
  | None => String "{" (name ++ "}")
  end.

Definition body_text (ty : option string) : string :=
  match ty with
  | Some t => Compile.type_map_get t
  | None => "[^/]+"
  end.

(** A template written out, the placeholders that [done] selects as
    groups and the others as they are. *)
Fixpoint render_with (done : string -> option string -> bool) (tpl : list piece) : string :=
  match tpl with
  | [] => ""
  | Text s :: r => s ++ render_with done r
  | Hole n ty :: r =>
      (if done n ty then group_text n (body_text ty) else hole_text n ty)
      ++ render_with done r
  end.

(** One step of either loop of [_compile_pattern], for a placeholder. *)
Definition replace_key (path_regex : string) (k : string * option string) : string :=
  Str.replace (hole_text k.1 k.2) (group_text k.1 (body_text k.2)) path_regex.

(** The template itself. *)
Definition render : list piece -> string := render_with (fun _ _ => false).

Definition is_typed (ty : option string) : bool :=
  match ty with Some _ => true | None => false end.

(** A placeholder the two patterns of [_compile_pattern] recognise and
    [re.compile] accepts. *)
Definition valid_key (n : string) (ty : option string) : Prop :=
  is_name n = true /\ match ty with Some t => is_type_tag t = true | None => True end.

(** Literal text without metacharacters, names that are identifiers, types
    that are words. *)
Definition well_formed (tpl : list piece) : bool :=
  forallb (fun p => match p with
                    | Text s => Str.plain s
                    | Hole n ty =>
                        is_name n && match ty with
                                     | Some t => is_type_tag t
                                     | None => true
                                     end
                    end) tpl.

Definition hole_body (ty : option string) : list Re.item :=
  match ty with
  | Some t => group_body t
  | None => Re.body_str
  end.

(** The pattern of a template: its text as literals, a group for each
    placeholder. *)
Fixpoint atoms (tpl : list piece) : Re.pattern :=
  match tpl with
  | [] => []
  | Text s :: r => (Re.lits s ++ atoms r)%list
  | Hole n ty :: r => Re.Group n (hole_body ty) :: atoms r
  end.

(** The names of the placeholders, and the types of the typed ones, the
    last declaration of a name last. *)
Definition names (tpl : list piece) : list string :=
  omap (fun p => match p with Hole n _ => Some n | Text _ => None end) tpl.

Definition typed_holes (tpl : list piece) : list (string * string) :=
  omap (fun p => match p with Hole n (Some t) => Some (n, t) | _ => None end) tpl.

Definition untyped_holes (tpl : list piece) : list string :=
  omap (fun p => match p with Hole n None => Some n | _ => None end) tpl.

(** What [re.compile] makes of the groups of a template, from left to
    right, [seen] holding the names of the groups before it: a name that
    comes again is an error. *)
Fixpoint compiled_from (seen : list string) (tpl : list piece) : Re.compiled :=
  match tpl with
  | [] => Re.Compiled []
  | Text s :: r => fold_right Re.cons_atom (compiled_from seen r) (Re.lits s)
  | Hole n ty :: r =>
      if bool_decide (n ∈ seen)
      then Re.CompileError (re_error "redefinition of group name")
      else Re.cons_atom (Re.Group n (hole_body ty)) (compiled_from (n :: seen) r)
  end.

Definition declared (tpl : list piece) : gmap string string :=
  fold_left (fun m nt => <[nt.1 := nt.2]> m) (typed_holes tpl) ∅.

(** The types of the placeholders, in order. *)
Definition kinds (tpl : list piece) : list (option string) :=
  omap (fun p => match p with Hole _ ty => Some ty | Text _ => None end) tpl.

(** The path a template stands for when values are written in place of its
    placeholders, in order. *)
Fixpoint fill (tpl : list piece) (vs : list string) : string :=
  match tpl with
  | [] => ""
  | Text t :: r => t ++ fill r vs
  | Hole _ _ :: r =>
      match vs with
      | v :: vs' => v ++ fill r vs'
      | [] => fill r []
      end
  end.

(** The values the group of a placeholder takes: a run of a class that is
    not empty, and for [float] digits, or digits, a point and digits. *)
Definition run (p : ascii -> bool) (v : string) : bool :=
  negb (Str.is_empty v) && Str.forallb p v.

Definition numeral (v : string) : bool :=
  let '(ds, rest) := Str.span Chars.is_digit v in
  negb (Str.is_empty ds)
  && match rest with
     | EmptyString => true
     | String c fs => Chars.is_dot c && Str.forallb Chars.is_digit fs
     end.

Definition value_ok (ty : option string) (v : string) : bool :=
  match ty with
  | Some t =>
      if String.eqb t "int" then run Chars.is_digit v
      else if String.eqb t "float" then numeral v
      else if String.eqb t "uuid" then run Chars.is_hex_hyphen v
      else run Chars.not_slash v
  | None => run Chars.not_slash v
  end.

(** The end of a path segment: the end of the text or a slash. *)
Definition ends_segment (s : string) : bool :=
  match s with
  | EmptyString => true
  | String c _ => Ascii.eqb c "/"
  end.

(** A template whose placeholders each fill a path segment to its end: a
    placeholder is the last piece or is followed by text that begins with a
    slash. *)
Fixpoint segmented (tpl : list piece) : bool :=
  match tpl with
  | [] => true
  | Text _ :: r => segmented r
  | Hole _ _ :: r =>
      match r with
      | [] => true
      | Text t :: _ => negb (Str.is_empty t) && ends_segment t && segmented r
      | Hole _ _ :: _ => false
      end
  end.

End Template.

Module TemplateSample.
Import Template.

(** [/users/{id:int}/posts/{slug}] and [/{a}/{a:int}]. *)
Definition user_posts : list piece :=
  [Text "/users/"; Hole "id" (Some "int"); Text "/posts/"; Hole "slug" None].

Definition twice_named : list piece :=
  [Text "/"; Hole "a" None; Text "/"; Hole "a" (Some "int")].

End TemplateSample.

(* ===================================================================== *)
(** * Properties *)
(* ===================================================================== *)

Local Open Scope list_scope.

(* --------------------------------------------------------------------- *)
(** ** The router *)
(* --------------------------------------------------------------------- *)

Section RouterFacts.
Context {Handler : Type}.
Implicit Types (r : Router Handler) (path method : string).

Lemma find_route_cached r path method entry :
  _route_cache r !! (path, method) = Some entry ->
  find_route r path method = (Some entry, r).
Proof. intros Hc. unfold find_route. by rewrite Hc. Qed.

Lemma find_route_cold r path method :
  _route_cache r !! (path, method) = None ->
  find_route r path method =
    match scan (routes r) path method with
    | Some entry =>
        (Some entry,
         {| routes := routes r;
            _route_cache := <[(path, method) := entry]> (_route_cache r) |})
    | None => (None, r)
    end.
Proof. intros Hc. unfold find_route. by rewrite Hc. Qed.

Lemma find_route_routes r path method :
  routes (find_route r path method).2 = routes r.
Proof.
  unfold find_route.
  destruct (_route_cache r !! (path, method)); [done|].
  by destruct (scan (routes r) path method).
Qed.

(** The scan stops at the first route that matches. *)
Lemma scan_first_match (pre post : list (Route Handler)) route path method params :
  (forall x, x ∈ pre -> Route_match x path method = None) ->
  Route_match route path method = Some params ->
  scan (pre ++ route :: post) path method = Some (handler route, params, config route).
Proof.
  intros Hpre Hm. induction pre as [|x pre IH]; simpl.
  - by rewrite Hm.
  - rewrite (Hpre x) by apply list_elem_of_here.
    apply IH. intros y Hy. apply Hpre. by apply list_elem_of_further.
Qed.

(** A scan that returns an entry returns that of a route that matches,
    after routes that do not. *)
Lemma scan_Some (rs : list (Route Handler)) path method entry :
  scan rs path method = Some entry ->
  exists pre route post params,
    rs = pre ++ route :: post
    /\ (forall x, x ∈ pre -> Route_match x path method = None)
    /\ Route_match route path method = Some params
    /\ entry = (handler route, params, config route).
Proof.
  induction rs as [|x rs IH]; simpl; [done|].
  destruct (Route_match x path method) as [ps|] eqn:Hx.
  - intros [= <-]. exists [], x, rs, ps. repeat split; [|done].
    intros y Hy. by apply elem_of_nil in Hy.
  - intros Hs. destruct (IH Hs) as (pre & route & post & ps & -> & Hpre & Hm & ->).
    exists (x :: pre), route, post, ps. repeat split; [|done].
    intros y Hy. apply elem_of_cons in Hy as [->|Hy]; [done|by apply Hpre].
Qed.

Lemma scan_None (rs : list (Route Handler)) path method :
  scan rs path method = None <->
  forall x, x ∈ rs -> Route_match x path method = None.
Proof.
  induction rs as [|x rs IH]; simpl.
  - split; [|done]. intros _ y Hy. by apply elem_of_nil in Hy.
  - destruct (Route_match x path method) as [ps|] eqn:Hx.
    + split; [done|]. intros Hall. specialize (Hall x (list_elem_of_here _ _)). congruence.
    + rewrite IH. split.
      * intros Hall y Hy. apply elem_of_cons in Hy as [-> | Hy]; [done|by apply Hall].
      * intros Hall y Hy. apply Hall. by apply list_elem_of_further.
Qed.

Lemma find_route_consistent r path method :
  cache_consistent r -> cache_consistent (find_route r path method).2.
Proof.
  intros Hr. unfold find_route.
  destruct (_route_cache r !! (path, method)) eqn:Hc; [done|].
  destruct (scan (routes r) path method) as [entry|] eqn:Hs; [|done].
  intros p m e. simpl. rewrite lookup_insert.
  case_decide as Hk.
  - intros [= <-]. by injection Hk as <- <-.
  - apply Hr.
Qed.

Lemma add_route_shape r path methods h kwargs r' :
  add_route r path methods h kwargs = Built r' ->
  exists cfg route,
    RouteConfig_init kwargs = Ok cfg
    /\ Route_init path methods h (Some cfg) = Built route
    /\ r' = {| routes := routes r ++ [route]; _route_cache := ∅ |}.
Proof.
  unfold add_route.
  destruct (RouteConfig_init kwargs) as [cfg|]; [|done].
  destruct (Route_init path methods h (Some cfg)) as [route| |] eqn:Hr; [|done..].
  intros [= <-]. by exists cfg, route.
Qed.

Lemma empty_cache_consistent (rs : list (Route Handler)) :
  cache_consistent {| routes := rs; _route_cache := ∅ |}.
Proof. intros p m e. simpl. by rewrite lookup_empty. Qed.

Lemma reachable_consistent r : reachable r -> cache_consistent r.
Proof.
  induction 1 as [|r p ms h kw r' _ _ Hadd|r p m _ IH].
  - apply empty_cache_consistent.
  - apply add_route_shape in Hadd as (cfg & route & _ & _ & ->).
    apply empty_cache_consistent.
  - by apply find_route_consistent.
Qed.

(** C4 (amended).  A lookup that scans the whole table without success
    returns [None] and leaves the router as it was: the miss is not
    memoized, and a second lookup of the same pair scans the routes again
    and returns [None] again. *)
Theorem find_route_miss_not_memoized r path method :
  _route_cache r !! (path, method) = None ->
  scan (routes r) path method = None ->
  find_route r path method = (None, r)
  /\ ~ miss_memoized r path method
  /\ find_route (find_route r path method).2 path method
     = (scan (routes r) path method, r).
Proof.
  intros Hc Hs.
  assert (Hf : find_route r path method = (None, r)).
  { by rewrite find_route_cold, Hs. }
  split; [done|]. split.
  - unfold miss_memoized. rewrite Hf. simpl.
    rewrite elem_of_dom, Hc. by intros [? ?].
  - by rewrite Hf, Hs.
Qed.

(** C5.  On a pair that is not cached, [find_route] scans the routes in
    insertion order: it returns the handler, the parameters and the
    configuration of the first route whose [match] succeeds, whatever routes
    follow it; what it returns is always that of such a first route; and it
    returns [None] exactly when no route matches. *)
Theorem find_route_first_match r path method :
  _route_cache r !! (path, method) = None ->
  (forall pre route post params,
      routes r = pre ++ route :: post ->
      (forall x, x ∈ pre -> Route_match x path method = None) ->
      Route_match route path method = Some params ->
      (find_route r path method).1 = Some (handler route, params, config route))
  /\ (forall entry,
        (find_route r path method).1 = Some entry ->
        exists pre route post params,
          routes r = pre ++ route :: post
          /\ (forall x, x ∈ pre -> Route_match x path method = None)
          /\ Route_match route path method = Some params
          /\ entry = (handler route, params, config route))
  /\ ((find_route r path method).1 = None <->
      forall x, x ∈ routes r -> Route_match x path method = None).
Proof.
  intros Hc.
  assert (Hf : (find_route r path method).1 = scan (routes r) path method).
  { rewrite find_route_cold by done. by destruct (scan (routes r) path method). }
  rewrite Hf. split; [|split].
  - intros pre route post params Hr Hpre Hm.
    by rewrite Hr, (scan_first_match pre post route path method params).
  - intros entry. apply scan_Some.
  - apply scan_None.
Qed.

(** C7.  An [add_route] that returns has appended the new route and left
    the cache empty, whatever the cache held; every router built by
    [add_route] and used by [find_route] keeps each cache entry equal to a
    scan of its current routes; and a lookup that follows an [add_route],
    for any key, those cached before included, scans the new routes: it
    returns what the scan returns and stores it as the only entry. *)
Theorem add_route_invalidates r path methods h kwargs r' :
  reachable r ->
  add_route r path methods h kwargs = Built r' ->
  (exists cfg route,
      RouteConfig_init kwargs = Ok cfg
      /\ Route_init path methods h (Some cfg) = Built route
      /\ routes r' = routes r ++ [route])
  /\ _route_cache r' = ∅
  /\ cache_consistent r /\ cache_consistent r'
  /\ (forall p m,
        (find_route r' p m).1 = scan (routes r') p m
        /\ cache_consistent (find_route r' p m).2)
  /\ forall p m,
       find_route r' p m
       = match scan (routes r') p m with
         | Some entry =>
             (Some entry, {| routes := routes r'; _route_cache := {[ (p, m) := entry ]} |})
         | None => (None, r')
         end.
Proof.
  intros Hreach Hadd.
  assert (Hr' : reachable r') by (by eapply reach_add).
  destruct (add_route_shape _ _ _ _ _ _ Hadd) as (cfg & route & Hcfg & Hroute & ->).
  split; [by exists cfg, route|].
  split; [done|].
  split; [by apply reachable_consistent|].
  split; [by apply reachable_consistent|].
  split.
  - intros p m. split.
    + rewrite find_route_cold by apply lookup_empty.
      by destruct (scan _ p m).
    + by apply find_route_consistent, reachable_consistent.
  - intros p m. rewrite find_route_cold by apply lookup_empty.
    cbn [routes _route_cache]. destruct (scan _ p m); [|done].
    by rewrite insert_empty.
Qed.

(** C10.  A lookup leaves the routes as they were, and it leaves the cache
    as it was unless it is a cold lookup that finds a route, which adds
    the entry it returns under its own key; every other key keeps its
    entry. *)
Theorem find_route_frame r path method :
  routes (find_route r path method).2 = routes r
  /\ (_route_cache (find_route r path method).2 = _route_cache r
      \/ (_route_cache r !! (path, method) = None
          /\ exists entry,
               (find_route r path method).1 = Some entry
               /\ scan (routes r) path method = Some entry
               /\ _route_cache (find_route r path method).2
                  = <[(path, method) := entry]> (_route_cache r)))
  /\ forall key, key ≠ (path, method) ->
       _route_cache (find_route r path method).2 !! key = _route_cache r !! key.
Proof.
  split; [apply find_route_routes|].
  unfold find_route.
  destruct (_route_cache r !! (path, method)) as [cached|] eqn:Hc.
  { split; [by left|done]. }
  destruct (scan (routes r) path method) as [entry|] eqn:Hs.
  - split.
    + right. split; [done|]. by exists entry.
    + intros key Hk. simpl. by rewrite lookup_insert_ne.
  - split; [by left|done].
Qed.

End RouterFacts.

(* --------------------------------------------------------------------- *)
(** ** Strings, conversions and the matcher *)
(* --------------------------------------------------------------------- *)

Section StringFacts.

Lemma rev_onto_rev_onto (s acc acc' : string) :
  Str.rev_onto acc (Str.rev_onto acc' s) = Str.rev_onto (s ++ acc)%string acc'.
Proof.
  revert acc acc'. induction s as [|c s IH]; intros acc acc'; simpl; [done|].
  by rewrite IH.
Qed.

Lemma append_empty_r (s : string) : (s ++ "")%string = s.
Proof.
  induction s as [|c s IH]; [done|].
  change (String c (s ++ "")%string = String c s). by rewrite IH.
Qed.

Lemma app_String (c : ascii) (a b : string) :
  (String c a ++ b)%string = String c (a ++ b)%string.
Proof. done. Qed.

Lemma rev_rev (s : string) : Str.rev (Str.rev s) = s.
Proof. unfold Str.rev. rewrite rev_onto_rev_onto. cbn [Str.rev_onto]. apply append_empty_r. Qed.

Lemma forallb_rev_onto (p : ascii -> bool) (s acc : string) :
  Str.forallb p (Str.rev_onto acc s) = Str.forallb p acc && Str.forallb p s.
Proof.
  revert acc. induction s as [|c s IH]; intros acc; simpl.
  - by rewrite andb_true_r.
  - rewrite IH. simpl. destruct (p c), (Str.forallb p acc), (Str.forallb p s); done.
Qed.

Lemma strip_prefix_Some (p s rest : string) :
  Str.strip_prefix p s = Some rest <-> s = (p ++ rest)%string.
Proof.
  revert s. induction p as [|c p IH]; intros s; simpl.
  - split; [by intros [= ->]|by intros ->].
  - destruct s as [|d s]; [split; [done|discriminate]|].
    destruct (Ascii.eqb c d) eqn:Hcd.
    + apply Ascii.eqb_eq in Hcd as ->. rewrite IH. split; [by intros ->|by intros [= ->]].
    + apply Ascii.eqb_neq in Hcd. split; [done|]. intros [= -> _]. done.
Qed.

Lemma digit_not_space (c : ascii) : Chars.is_digit c = true -> Chars.is_space c = false.
Proof.
  unfold Chars.is_digit, Chars.is_space, Chars.between.
  intros H. apply andb_true_iff in H as [H1 H2].
  apply Nat.leb_le in H1, H2.
  repeat match goal with
         | |- context [(?a <=? ?b)%nat] => destruct (Nat.leb_spec a b)
         | |- context [(?a =? ?b)%nat] => destruct (Nat.eqb_spec a b)
         end; simpl; try done; lia.
Qed.

Lemma digit_not_newline (c : ascii) : Chars.is_digit c = true -> (Chars.code c =? 10)%nat = false.
Proof.
  unfold Chars.is_digit, Chars.between.
  intros H. apply andb_true_iff in H as [H1 H2].
  apply Nat.leb_le in H1, H2. apply Nat.eqb_neq. lia.
Qed.

Lemma drop_space_digits (s : string) :
  Str.forallb Chars.is_digit s = true -> snd (Str.span Chars.is_space s) = s.
Proof.
  destruct s as [|c s]; simpl; [done|].
  intros H. apply andb_true_iff in H as [Hc _].
  by rewrite (digit_not_space c Hc).
Qed.

Lemma strip_digits (s : string) :
  Str.forallb Chars.is_digit s = true -> Conv.strip s = s.
Proof.
  intros H. unfold Conv.strip.
  rewrite (drop_space_digits s H).
  rewrite drop_space_digits; [apply rev_rev|].
  unfold Str.rev. by rewrite forallb_rev_onto, H.
Qed.

Lemma digits_value_decimal (s : string) (acc : Z) :
  Str.forallb Chars.is_digit s = true ->
  Conv.digits_value acc false s = Some (Conv.decimal_from acc s).
Proof.
  revert acc. induction s as [|c s IH]; intros acc; simpl; [done|].
  intros H. apply andb_true_iff in H as [Hc Hs]. rewrite Hc. by apply IH.
Qed.

Lemma count_digits_run (s : string) :
  Str.forallb Chars.is_digit s = true ->
  Conv.count_digits s = N.of_nat (String.length s).
Proof.
  induction s as [|c s IH]; [done|]. cbn [Str.forallb Conv.count_digits String.length].
  intros H. apply andb_true_iff in H as [Hc Hs]. rewrite Hc, (IH Hs). lia.
Qed.

(** [int] on one or more digits is the number they denote, unless there
    are more digits than the limit allows. *)
Lemma py_int_digits (s : string) :
  s <> EmptyString -> Str.forallb Chars.is_digit s = true ->
  Conv.py_int s
  = if (N.of_nat (String.length s) <=? Conv.int_max_str_digits)%N
    then Some (Conv.decimal s) else None.
Proof.
  intros Hne H. unfold Conv.py_int. rewrite (strip_digits s H).
  pose proof (count_digits_run s H) as Hn.
  destruct s as [|c s]; [done|]. simpl in H.
  apply andb_true_iff in H as [Hc Hs].
  assert (Hu : Conv.unsigned_int (String c s) = Some (Conv.decimal (String c s))).
  { unfold Conv.unsigned_int. rewrite Hc.
    rewrite (digits_value_decimal s _ Hs). unfold Conv.decimal. simpl.
    done. }
  assert (Hl : (if (Conv.count_digits (String c s) <=? Conv.int_max_str_digits)%N
                then Conv.unsigned_int (String c s) else None)
               = if (N.of_nat (String.length (String c s)) <=? Conv.int_max_str_digits)%N
                 then Some (Conv.decimal (String c s)) else None).
  { rewrite Hn, Hu. done. }
  destruct c as [[] [] [] [] [] [] [] []]; try discriminate Hc; exact Hl.
Qed.

Lemma span_app_stop (p : ascii -> bool) (a b : string) :
  Str.forallb p a = true ->
  match b with EmptyString => True | String c _ => p c = false end ->
  Str.span p (a ++ b)%string = (a, b).
Proof.
  intros Ha Hb. induction a as [|c a IH].
  - change (Str.span p b = (EmptyString, b)).
    destruct b as [|c b]; simpl; [done|]. by rewrite Hb.
  - simpl in Ha. apply andb_true_iff in Ha as [Hc Ha].
    rewrite app_String. simpl. rewrite Hc, (IH Ha). done.
Qed.

Lemma span_spec (p : ascii -> bool) (s : string) :
  let '(a, b) := Str.span p s in
  s = (a ++ b)%string /\ Str.forallb p a = true
  /\ match b with EmptyString => True | String c _ => p c = false end.
Proof.
  induction s as [|c s IH]; simpl; [done|].
  destruct (p c) eqn:Hc.
  - destruct (Str.span p s) as [a b]. destruct IH as (-> & Ha & Hb).
    simpl. by rewrite Hc, Ha.
  - done.
Qed.

End StringFacts.

Section MatcherFacts.

(** Literal text in front of a pattern is stripped from the subject. *)
Lemma m_atoms_lits (pre : string) (p : Re.pattern) (s : string) caps :
  Re.m_atoms (Re.lits pre ++ p) s caps =
  match Str.strip_prefix pre s with
  | Some rest => Re.m_atoms p rest caps
  | None => None
  end.
Proof.
  revert s. induction pre as [|c pre IH]; intros s; simpl; [done|].
  destruct s as [|x s]; [done|].
  destruct (Ascii.eqb c x); [apply IH|done].
Qed.

(** A greedy run in front of [$]: it takes the longest run or fails,
    because no shorter run is followed by the end of the subject. *)
Lemma star_at_end {A : Type} (p : ascii -> bool) (F : string -> A) (s acc : string) :
  (forall c, p c = true -> (Chars.code c =? 10)%nat = false) ->
  Re.star p s acc (fun acc' rest => if Re.at_end rest then Some (F acc') else None) =
  let '(ds, rest) := Str.span p s in
  if Re.at_end rest then Some (F (Str.rev_onto acc ds)) else None.
Proof.
  intros Hp. revert acc. induction s as [|c s IH]; intros acc; simpl; [done|].
  destruct (p c) eqn:Hc; [|done].
  rewrite IH. destruct (Str.span p s) as [ds rest]. simpl.
  destruct (Re.at_end rest); [done|].
  rewrite (Hp c Hc). by destruct s.
Qed.

(** A last group [\d+]: the subject is one or more digits up to [$]. *)
Lemma m_atoms_int_last (name : string) (s : string) caps :
  Re.m_atoms [Re.Group name Re.body_int] s caps =
  let '(ds, rest) := Str.span Chars.is_digit s in
  if negb (Str.is_empty ds) && Re.at_end rest
  then Some (List.rev ((name, ds) :: caps)) else None.
Proof.
  cbn [Re.m_atoms Re.body_int Re.m_items Re.test].
  destruct s as [|c s]; [done|].
  cbn [Str.span]. destruct (Chars.is_digit c) eqn:Hc; [|done].
  rewrite (star_at_end Chars.is_digit
             (fun acc' => List.rev ((name, Str.rev acc') :: caps)))
    by apply digit_not_newline.
  destruct (Str.span Chars.is_digit s) as [ds rest].
  cbn [Str.is_empty negb andb].
  destruct (Re.at_end rest); [|done].
  do 4 f_equal.
  change (Str.rev (Str.rev_onto EmptyString (String c ds)) = String c ds).
  apply rev_rev.
Qed.

Lemma at_end_cases (s : string) :
  Re.at_end s = true <-> s = EmptyString \/ s = Str.newline.
Proof.
  destruct s as [|c [|d s]]; simpl.
  - split; [by left|done].
  - split.
    + intros H. right. apply Nat.eqb_eq in H. unfold Str.newline. f_equal.
      rewrite <- (ascii_nat_embedding c). unfold Chars.code in H. by rewrite H.
    + intros [H|H]; [done|]. by injection H as ->.
  - split; [done|]. intros [H|H]; done.
Qed.

End MatcherFacts.

(* --------------------------------------------------------------------- *)
(** ** [_compile_pattern] on a literal text followed by [{id:int}] *)
(* --------------------------------------------------------------------- *)

Section CompileFacts.

(** A fact about one character that is not a metacharacter, by cases on the
    character. *)
Ltac by_char c H :=
  destruct c as [[] [] [] [] [] [] [] []];
  first [reflexivity | (vm_compute in H; discriminate H)].

Lemma typed_at_plain (c : ascii) (s : string) :
  Chars.is_meta c = false -> Compile.typed_at (String c s) = None.
Proof. intros H. by_char c H. Qed.

Lemma basic_at_plain (c : ascii) (s : string) :
  Chars.is_meta c = false -> Compile.basic_at (String c s) = None.
Proof. intros H. by_char c H. Qed.

Lemma brace_eqb_plain (c : ascii) :
  Chars.is_meta c = false -> Ascii.eqb "{" c = false.
Proof. intros H. by_char c H. Qed.

Lemma parse_plain_step (c : ascii) (s : string) (fuel : nat) (seen : list string) :
  Chars.is_meta c = false ->
  Re.parse (S fuel) seen (String c s) = Re.cons_atom (Re.Lit c) (Re.parse fuel seen s).
Proof. intros H. by_char c H. Qed.

Lemma app_assoc_string (a b c : string) :
  ((a ++ b) ++ c)%string = (a ++ (b ++ c))%string.
Proof.
  induction a as [|x a IH]; [done|].
  rewrite !app_String. by rewrite IH.
Qed.

Lemma length_app_string (a b : string) :
  String.length (a ++ b)%string = (String.length a + String.length b)%nat.
Proof.
  induction a as [|x a IH]; [done|].
  rewrite app_String. simpl. by rewrite IH.
Qed.

Lemma plain_cons (c : ascii) (s : string) :
  Str.plain (String c s) = true -> Chars.is_meta c = false /\ Str.plain s = true.
Proof.
  unfold Str.plain. simpl. intros H. apply andb_true_iff in H as [Hc Hs].
  split; [by destruct (Chars.is_meta c)|done].
Qed.

Lemma finditer_plain {G : Type} (at_start : string -> option (G * nat)) (pre tail : string) :
  (forall c t, Chars.is_meta c = false -> at_start (String c t) = None) ->
  Str.plain pre = true ->
  Compile.finditer at_start 0 (pre ++ tail)%string = Compile.finditer at_start 0 tail.
Proof.
  intros Hat. induction pre as [|c pre IH]; [done|].
  intros Hp. apply plain_cons in Hp as [Hc Hp].
  rewrite app_String. cbn [Compile.finditer]. rewrite (Hat c _ Hc). by apply IH.
Qed.

Lemma replace_plain (old' new pre tail : string) :
  Str.plain pre = true ->
  Str.replace (String "{" old') new (pre ++ tail)%string
  = (pre ++ Str.replace (String "{" old') new tail)%string.
Proof.
  unfold Str.replace. induction pre as [|c pre IH]; [done|].
  intros Hp. apply plain_cons in Hp as [Hc Hp].
  rewrite !app_String. cbn [Str.replace_from Str.strip_prefix].
  rewrite (brace_eqb_plain c Hc). by rewrite IH.
Qed.

Lemma parse_plain (pre tail : string) (fuel : nat) (seen : list string) :
  Str.plain pre = true ->
  Re.parse (String.length pre + fuel) seen (pre ++ tail)%string
  = fold_right Re.cons_atom (Re.parse fuel seen tail) (Re.lits pre).
Proof.
  induction pre as [|c pre IH]; [done|].
  intros Hp. apply plain_cons in Hp as [Hc Hp].
  rewrite app_String. cbn [String.length Nat.add Re.lits fold_right].
  rewrite (parse_plain_step c _ _ _ Hc). by rewrite IH.
Qed.

Lemma cons_atoms_compiled (l p : Re.pattern) :
  fold_right Re.cons_atom (Re.Compiled p) l = Re.Compiled (l ++ p).
Proof. induction l as [|a l IH]; simpl; [done|by rewrite IH]. Qed.

Lemma compile_int_template (pre : string) :
  Str.plain pre = true ->
  Compile._compile_pattern (pre ++ "{id:int}")%string
  = (Re.Compiled (Re.lits pre ++ [Re.Group "id" Re.body_int]), <["id" := "int"]> ∅).
Proof.
  intros Hp. unfold Compile._compile_pattern, Compile.regex_of.
  rewrite (finditer_plain Compile.typed_at pre "{id:int}" typed_at_plain Hp).
  change (Compile.finditer Compile.typed_at 0 "{id:int}") with [("id", "int")].
  cbn [fold_left].
  change (Compile.typed_step (∅, (pre ++ "{id:int}")%string) ("id", "int"))
    with (<["id" := "int"]> (∅ : gmap string string),
          Str.replace "{id:int}" "(?P<id>\d+)" (pre ++ "{id:int}")%string).
  rewrite (replace_plain _ _ pre "{id:int}" Hp).
  change (Str.replace "{id:int}" "(?P<id>\d+)" "{id:int}") with "(?P<id>\d+)".
  rewrite (finditer_plain Compile.basic_at pre "(?P<id>\d+)" basic_at_plain Hp).
  change (Compile.finditer Compile.basic_at 0 "(?P<id>\d+)") with (@nil string).
  cbn [fold_left].
  change ("^" ++ (pre ++ "(?P<id>\d+)") ++ "$")%string
    with (String "^" ((pre ++ "(?P<id>\d+)") ++ "$"))%string.
  cbn [Re.compile].
  rewrite app_assoc_string.
  change ("(?P<id>\d+)" ++ "$")%string with "(?P<id>\d+)$".
  rewrite length_app_string, (parse_plain pre _ _ _ Hp).
  change (Re.parse (String.length "(?P<id>\d+)$") [] "(?P<id>\d+)$")
    with (Re.Compiled [Re.Group "id" Re.body_int]).
  by rewrite cons_atoms_compiled.
Qed.

End CompileFacts.

(* --------------------------------------------------------------------- *)
(** ** [Route.match] *)
(* --------------------------------------------------------------------- *)

Section RouteFacts.

(** What a route whose pattern is a literal text followed by the group of
    an [int] placeholder accepts: the text, one or more digits and,
    optionally, one newline that ends the path.  The parameter is the
    integer the digits denote, or the digits as a string when [int] refuses
    them for their number. *)
Lemma int_pattern_match {H : Type} (r : Route H) (pre path method : string)
      (ps : list (string * pyval)) :
  pattern r = Re.lits pre ++ [Re.Group "id" Re.body_int] ->
  param_types r !! "id" = Some "int" ->
  method ∈ methods r ->
  Route_match r path method = Some ps <->
  exists ds,
    ds <> EmptyString /\ Str.forallb Chars.is_digit ds = true
    /\ (path = (pre ++ ds)%string \/ path = (pre ++ ds ++ Str.newline)%string)
    /\ ps = [("id", if (N.of_nat (String.length ds) <=? Conv.int_max_str_digits)%N
                     then PInt (Conv.decimal ds) else PStr ds)].
Proof.
  intros Hpat Htypes Hmethod.
  unfold Route_match, Re.match_groupdict.
  rewrite bool_decide_eq_true_2 by done. cbn [negb].
  rewrite Hpat, m_atoms_lits.
  assert (Hconv : forall ds, ds <> EmptyString -> Str.forallb Chars.is_digit ds = true ->
                    map (convert (param_types r)) (List.rev [("id", ds)])
                    = [("id", if (N.of_nat (String.length ds) <=? Conv.int_max_str_digits)%N
                              then PInt (Conv.decimal ds) else PStr ds)]).
  { intros ds Hne Hds. cbn [List.rev app map]. unfold convert. rewrite Htypes.
    change ("int" =? "int")%string with true. cbn iota.
    rewrite py_int_digits by done.
    by destruct (N.of_nat (String.length ds) <=? Conv.int_max_str_digits)%N. }
  split.
  - destruct (Str.strip_prefix pre path) as [rest|] eqn:Hpre; [|done].
    apply strip_prefix_Some in Hpre as ->.
    rewrite (m_atoms_int_last "id").
    pose proof (span_spec Chars.is_digit rest) as Hspan.
    destruct (Str.span Chars.is_digit rest) as [ds tail].
    destruct Hspan as (-> & Hds & _).
    destruct (Str.is_empty ds) eqn:Hne; [done|]. cbn [negb andb].
    destruct (Re.at_end tail) eqn:Hend; [|done].
    assert (Hds' : ds <> EmptyString) by (by destruct ds).
    rewrite (Hconv ds Hds' Hds). intros [= <-]. exists ds.
    split; [done|]. split; [done|]. split; [|done].
    apply at_end_cases in Hend as [-> | ->]; [left|by right].
    by rewrite append_empty_r.
  - intros (ds & Hne & Hds & Hpath & ->).
    assert (exists tail, path = (pre ++ ds ++ tail)%string
                         /\ Re.at_end tail = true
                         /\ match tail with
                            | EmptyString => True
                            | String c _ => Chars.is_digit c = false
                            end) as (tail & -> & Hend & Htail).
    { destruct Hpath as [-> | ->].
      - exists EmptyString. by rewrite append_empty_r.
      - by exists Str.newline. }
    rewrite (proj2 (strip_prefix_Some pre _ (ds ++ tail)%string)) by done.
    rewrite (m_atoms_int_last "id").
    rewrite (span_app_stop _ ds tail Hds Htail), Hend.
    destruct ds as [|c ds]; [done|]. cbn [Str.is_empty negb andb].
    by rewrite Hconv.
Qed.

Lemma items_route_built :
  Route_init "/items/{id:int}" ["GET"] 1%nat None = Built Fixture.items_route.
Proof. reflexivity. Qed.

Lemma convert_bool (types : gmap string string) (name raw : string) :
  types !! name = Some "bool" ->
  convert types (name, raw)
  = (name, PBool (bool_decide (Str.lower raw ∈ ["true"; "1"; "yes"]))).
Proof. intros Ht. unfold convert. by rewrite Ht. Qed.

(** C8.  For every template made of a literal text followed by the typed
    placeholder [{id:int}], the compiled route accepts the text followed by
    one or more digits.  It does not accept only that: a segment of digits
    followed by a newline that ends the path is accepted too, with the same
    parameter, although the segment does not consist of digits only.  The
    digits are coerced to the integer they denote when they are at most 4300;
    for a longer run [int] raises [ValueError] and the parameter stays the
    string of digits. *)
Theorem int_placeholder_trailing_newline {H : Type} (pre : string) (ms : list string)
        (h : H) (cfg : option RouteConfig) :
  Str.plain pre = true ->
  exists r,
    Route_init (pre ++ "{id:int}")%string ms h cfg = Built r
    /\ (forall path method ps,
          method ∈ ms ->
          Route_match r path method = Some ps <->
          exists ds,
            ds <> EmptyString /\ Str.forallb Chars.is_digit ds = true
            /\ (path = (pre ++ ds)%string \/ path = (pre ++ ds ++ Str.newline)%string)
            /\ ps = [("id", if (N.of_nat (String.length ds) <=? 4300)%N
                             then PInt (Conv.decimal ds) else PStr ds)])
    /\ (forall method,
          method ∈ ms ->
          Route_match r (pre ++ "42" ++ Str.newline)%string method
          = Some [("id", PInt 42)]).
Proof.
  intros Hp. unfold Route_init. rewrite (compile_int_template pre Hp).
  eexists. split; [reflexivity|].
  assert (Hm : forall path method ps,
             method ∈ ms ->
             Route_match
               {| path := (pre ++ "{id:int}")%string; methods := ms; handler := h;
                  config := default RouteConfig_default cfg;
                  pattern := Re.lits pre ++ [Re.Group "id" Re.body_int];
                  param_types := <["id" := "int"]> ∅ |} path method = Some ps <->
             exists ds,
               ds <> EmptyString /\ Str.forallb Chars.is_digit ds = true
               /\ (path = (pre ++ ds)%string \/ path = (pre ++ ds ++ Str.newline)%string)
               /\ ps = [("id", if (N.of_nat (String.length ds) <=? 4300)%N
                                then PInt (Conv.decimal ds) else PStr ds)]).
  { intros path method ps Hmethod.
    apply int_pattern_match; [done|apply lookup_insert_eq|done]. }
  split; [exact Hm|].
  intros method Hmethod. apply Hm; [done|].
  exists "42"%string. repeat split; [done|by right].
Qed.

(** The route of [/items/{id:int}]: [/items/42] gives [id = 42],
    [/items/abc] does not match, and [/items/42] followed by a newline
    matches.  A run of 4300 digits gives an integer, a run of 4301 digits
    the string of these digits. *)
Lemma int_placeholder_trailing_newline_witness :
  Route_match Fixture.items_route "/items/42" "GET" = Some [("id", PInt 42)]
  /\ Route_match Fixture.items_route "/items/abc" "GET" = None
  /\ Route_match Fixture.items_route ("/items/42" ++ Str.newline)%string "GET"
     = Some [("id", PInt 42)]
  /\ Route_match Fixture.items_route ("/items/" ++ Str.replicate 4300 "7")%string "GET"
     = Some [("id", PInt (Conv.decimal (Str.replicate 4300 "7")))]
  /\ Route_match Fixture.items_route ("/items/" ++ Str.replicate 4301 "7")%string "GET"
     = Some [("id", PStr (Str.replicate 4301 "7"))].
Proof.
  destruct (int_placeholder_trailing_newline "/items/" ["GET"] 1%nat None eq_refl)
    as (r & Hr & Hiff & Hnl).
  change (Route_init "/items/{id:int}" ["GET"] 1%nat None = Built r) in Hr.
  rewrite items_route_built in Hr. injection Hr as <-.
  split; [|split; [reflexivity|split; [|split]]].
  - apply Hiff; [apply list_elem_of_here|].
    exists "42"%string. repeat split; [done|by left].
  - apply (Hnl "GET"). apply list_elem_of_here.
  - apply Hiff; [apply list_elem_of_here|].
    exists (Str.replicate 4300 "7"). split; [done|].
    split; [vm_compute; reflexivity|]. split; [by left|]. vm_compute. reflexivity.
  - apply Hiff; [apply list_elem_of_here|].
    exists (Str.replicate 4301 "7"). split; [done|].
    split; [vm_compute; reflexivity|]. split; [by left|]. vm_compute. reflexivity.
Defined.

(** C9.  When a route matches, every captured group whose parameter is
    declared [bool] is coerced to a boolean that is true exactly when the
    lowercase form of the captured text is one of [true], [1], [yes]; the
    coercion is a total function of the text.  On the route compiled from
    [/f/{flag:bool}] the texts [True], [1], [yes] give true and [0], [no],
    [maybe] give false. *)
Theorem bool_coercion {H : Type} (r : Route H) (path method : string)
        (params : list (string * pyval)) :
  Route_match r path method = Some params ->
  (exists caps,
      Re.match_groupdict (pattern r) path = Some caps
      /\ length params = length caps
      /\ forall i name raw,
           caps !! i = Some (name, raw) ->
           param_types r !! name = Some "bool" ->
           exists b, params !! i = Some (name, PBool b)
                     /\ (b = true <-> Str.lower raw ∈ ["true"; "1"; "yes"]))
  /\ (Route_init "/f/{flag:bool}" ["GET"] 1%nat None = Built Fixture.flag_route
      /\ Route_match Fixture.flag_route "/f/True" "GET" = Some [("flag", PBool true)]
      /\ Route_match Fixture.flag_route "/f/1" "GET" = Some [("flag", PBool true)]
      /\ Route_match Fixture.flag_route "/f/yes" "GET" = Some [("flag", PBool true)]
      /\ Route_match Fixture.flag_route "/f/0" "GET" = Some [("flag", PBool false)]
      /\ Route_match Fixture.flag_route "/f/no" "GET" = Some [("flag", PBool false)]
      /\ Route_match Fixture.flag_route "/f/maybe" "GET" = Some [("flag", PBool false)]).
Proof.
  intros Hm. split; [|repeat split; reflexivity].
  unfold Route_match in Hm.
  destruct (negb (bool_decide (method ∈ methods r))); [done|].
  destruct (Re.match_groupdict (pattern r) path) as [caps|]; [|done].
  injection Hm as <-. exists caps. split; [done|].
  split; [by rewrite length_map|].
  intros i name raw Hi Ht.
  exists (bool_decide (Str.lower raw ∈ ["true"; "1"; "yes"])). split.
  - rewrite list_lookup_fmap, Hi. cbn [fmap option_fmap option_map].
    by rewrite (convert_bool _ _ raw Ht).
  - apply bool_decide_eq_true.
Qed.

Lemma bool_coercion_witness :
  exists b, [("flag", PBool true)] !! 0%nat = Some ("flag", PBool b)
            /\ (b = true <-> Str.lower "True" ∈ ["true"; "1"; "yes"]).
Proof.
  destruct (bool_coercion Fixture.flag_route "/f/True" "GET" [("flag", PBool true)])
    as [(caps & Hcaps & _ & Hall) _]; [reflexivity|].
  apply (Hall 0%nat "flag" "True").
  - vm_compute in Hcaps. by injection Hcaps as <-.
  - reflexivity.
Defined.

End RouteFacts.

(* --------------------------------------------------------------------- *)
(** ** The router on the two-route fixture *)
(* --------------------------------------------------------------------- *)

Section RouterFixture.

Lemma two_routes_built :
  exists r1,
    add_route Router_init "/a/{x}" ["GET"] 1%nat [] = Built r1
    /\ add_route r1 "/a/fixed" ["GET"] 2%nat [] = Built Fixture.two_routes.
Proof. eexists. split; reflexivity. Qed.

(** C4 as stated fails on the two routes and an unregistered path: the
    lookup is cold, the scan finds nothing, and no entry is left behind. *)
Lemma miss_memoized_counterexample :
  _route_cache Fixture.two_routes !! ("/b", "GET") = None
  /\ scan (routes Fixture.two_routes) "/b" "GET" = None
  /\ ~ miss_memoized Fixture.two_routes "/b" "GET".
Proof.
  split; [reflexivity|]. split; [reflexivity|].
  unfold miss_memoized. rewrite elem_of_dom.
  change (_route_cache (find_route Fixture.two_routes "/b" "GET").2 !! ("/b", "GET"))
    with (@None (cache_entry nat)).
  by intros [? ?].
Qed.

Lemma find_route_miss_not_memoized_witness :
  find_route Fixture.two_routes "/b" "GET" = (None, Fixture.two_routes)
  /\ ~ miss_memoized Fixture.two_routes "/b" "GET"
  /\ find_route (find_route Fixture.two_routes "/b" "GET").2 "/b" "GET"
     = (scan (routes Fixture.two_routes) "/b" "GET", Fixture.two_routes).
Proof.
  apply (find_route_miss_not_memoized Fixture.two_routes "/b" "GET"); reflexivity.
Defined.

(** [/a/{x}] was registered first and wins over [/a/fixed], which matches
    the same path. *)
Lemma find_route_first_match_witness :
  (find_route Fixture.two_routes "/a/fixed" "GET").1
  = Some (1%nat, [("x", PStr "fixed")], Fixture.default_config)
  /\ Route_match (Fixture.route "/a/fixed" 2) "/a/fixed" "GET" = Some [].
Proof.
  split; [|reflexivity].
  destruct (find_route_first_match Fixture.two_routes "/a/fixed" "GET") as (Hfirst & _).
  - reflexivity.
  - apply (Hfirst [] (Fixture.route "/a/{x}" 1) [Fixture.route "/a/fixed" 2]
                  [("x", PStr "fixed")]).
    + reflexivity.
    + intros x Hx. by apply elem_of_nil in Hx.
    + reflexivity.
Defined.

(** A lookup of [/a/fixed] on the router of [/a/{x}] fills the cache;
    registering [/a/fixed] then empties it, and the next lookup of the same
    key scans the two routes and stores the entry again.  Registering
    [/openapi.json] instead also empties the cache. *)
Lemma add_route_invalidates_witness :
  _route_cache Fixture.looked_up !! ("/a/fixed", "GET")
  = Some (1%nat, [("x", PStr "fixed")], Fixture.default_config)
  /\ (exists r',
        add_route Fixture.looked_up "/a/fixed" ["GET"] 2%nat [] = Built r'
        /\ length (routes r') = 2%nat
        /\ _route_cache r' = ∅
        /\ cache_consistent r'
        /\ find_route r' "/a/fixed" "GET"
           = (scan (routes r') "/a/fixed" "GET",
              {| routes := routes r';
                 _route_cache :=
                   {[ ("/a/fixed", "GET")
                      := (1%nat, [("x", PStr "fixed")], Fixture.default_config) ]} |}))
  /\ exists r',
       add_route Fixture.looked_up "/openapi.json" ["GET"] 3%nat [] = Built r'
       /\ _route_cache r' = ∅.
Proof.
  assert (Hreach : reachable Fixture.looked_up).
  { apply reach_find.
    apply (reach_add Router_init "/a/{x}" ["GET"] 1%nat []); [apply reach_init|reflexivity]. }
  split; [reflexivity|]. split.
  - eexists. split; [reflexivity|].
    match goal with |- context [_route_cache ?r = ∅] => set (r' := r) end.
    destruct (add_route_invalidates Fixture.looked_up "/a/fixed" ["GET"] 2%nat [] r'
                Hreach eq_refl) as (_ & Hc & _ & Hcons & _ & Hf).
    split; [reflexivity|]. split; [exact Hc|]. split; [exact Hcons|].
    rewrite (Hf "/a/fixed" "GET"). reflexivity.
  - eexists. split; [reflexivity|].
    match goal with |- _route_cache ?r = ∅ => set (r' := r) end.
    by destruct (add_route_invalidates Fixture.looked_up "/openapi.json" ["GET"] 3%nat [] r'
                   Hreach eq_refl) as (_ & Hc & _).
Defined.

End RouterFixture.

(* --------------------------------------------------------------------- *)
(** ** The dispatcher *)
(* --------------------------------------------------------------------- *)

Section DispatcherFacts.
Context {W : Type}.
Variable http_exception_str : Z -> string -> string.
Implicit Types (s : dstate W) (ims : list (nat * Middleware W)).

Lemma sends_app (t1 t2 : list event) : sends (t1 ++ t2) = sends t1 ++ sends t2.
Proof. apply omap_app. Qed.
Lemma befores_app (t1 t2 : list event) : befores (t1 ++ t2) = befores t1 ++ befores t2.
Proof. apply omap_app. Qed.
Lemma afters_app (t1 t2 : list event) : afters (t1 ++ t2) = afters t1 ++ afters t2.
Proof. apply omap_app. Qed.

(** *** One hook *)

(** A pre-hook is invoked once with the working request; when it returns
    [None] the working request stays, otherwise it becomes what the hook
    returned; when it raises the working request stays. *)
Lemma pre_hook_run (im : nat * Middleware W) s s1 (o1 : outcome unit) :
  pre_hook im s = (s1, o1) ->
  self s1 = self s
  /\ match before_request im.2 with
     | None => s1 = s /\ o1 = Ok tt
     | Some hook =>
         trace s1 = trace s ++ [EvBefore im.1 (request s)]
         /\ world s1 = (hook (request s) (world s)).1
         /\ match (hook (request s) (world s)).2 with
            | Ok r => request s1 = default (request s) r /\ o1 = Ok tt
            | Raise e => request s1 = request s /\ o1 = Raise e
            end
     end.
Proof.
  unfold pre_hook. destruct (before_request im.2) as [hook|].
  - unfold bind, get, log, modify, call, set_request. simpl.
    destruct (hook (request s) (world s)) as [w' [r|e]]; simpl;
      intros [= <- <-]; simpl; auto.
  - intros [= <- <-]. auto.
Qed.

(** The same for a post-hook and the working response. *)
Lemma post_hook_run (im : nat * Middleware W) (response : Response.t) s s1
      (o1 : outcome Response.t) :
  post_hook im response s = (s1, o1) ->
  self s1 = self s /\ request s1 = request s
  /\ match after_request im.2 with
     | None => s1 = s /\ o1 = Ok response
     | Some hook =>
         trace s1 = trace s ++ [EvAfter im.1 (request s) response]
         /\ world s1 = (hook (request s) response (world s)).1
         /\ match (hook (request s) response (world s)).2 with
            | Ok r => o1 = Ok (default response r)
            | Raise e => o1 = Raise e
            end
     end.
Proof.
  unfold post_hook. destruct (after_request im.2) as [hook|].
  - unfold bind, get, log, modify, call, ret. simpl.
    destruct (hook (request s) response (world s)) as [w' [r|e]]; simpl;
      intros [= <- <-]; simpl; auto.
  - intros [= <- <-]. auto.
Qed.

(** *** The two loops *)

Lemma pre_phase_run ims s s' (o : outcome unit) :
  for_each ims pre_hook s = (s', o) ->
  self s' = self s
  /\ exists evs,
       trace s' = trace s ++ evs
       /\ sends evs = [] /\ afters evs = []
       /\ befores evs `prefix_of` hooks_before ims
       /\ (o = Ok tt -> befores evs = hooks_before ims).
Proof.
  revert s. induction ims as [|im ims IH]; intros s; simpl.
  - intros [= <- <-]. split; [done|]. exists []. by rewrite app_nil_r.
  - unfold bind at 1. destruct (pre_hook im s) as [s1 o1] eqn:H1.
    apply pre_hook_run in H1 as [Hself H1].
    unfold hooks_before; simpl. fold (hooks_before ims).
    destruct (before_request im.2) as [hook|].
    + destruct H1 as (Ht & _ & H1).
      destruct ((hook (request s) (world s)).2) as [r|e].
      * destruct H1 as [_ ->]. intros Hrest.
        apply IH in Hrest as (Hs & evs & Ht' & Hsend & Haft & Hpre & Hall).
        split; [congruence|].
        exists (EvBefore im.1 (request s) :: evs).
        split; [by rewrite Ht', Ht, <- app_assoc|].
        simpl. repeat split; [done..|by apply prefix_cons|].
        intros Ho. by rewrite Hall.
      * destruct H1 as [_ ->]. intros [= <- <-].
        split; [done|]. exists [EvBefore im.1 (request s)].
        simpl. repeat split; [done..|by apply prefix_cons, prefix_nil|done].
    + destruct H1 as [-> ->]. intros Hrest.
      by apply IH in Hrest.
Qed.

Lemma pre_phase_returns ims s :
  pre_hooks_return (map snd ims) ->
  exists s', for_each ims pre_hook s = (s', Ok tt).
Proof.
  revert s. induction ims as [|im ims IH]; intros s Hret; simpl.
  - by exists s.
  - unfold bind at 1. destruct (pre_hook im s) as [s1 o1] eqn:H1.
    apply pre_hook_run in H1 as [_ H1].
    assert (Hrest : pre_hooks_return (map snd ims)).
    { intros m hook Hm. apply Hret. simpl. by apply list_elem_of_further. }
    destruct (before_request im.2) as [hook|] eqn:Hb.
    + destruct H1 as (_ & _ & H1).
      destruct (Hret im.2 hook) with (rq := request s) (w := world s)
        as (w' & r & Hhook); [simpl; apply list_elem_of_here|done|].
      rewrite Hhook in H1. simpl in H1. destruct H1 as [_ ->]. by apply IH.
    + destruct H1 as [_ ->]. by apply IH.
Qed.

Lemma post_loop_run ims (response : Response.t) s s' (o : outcome Response.t) :
  post_loop ims response s = (s', o) ->
  self s' = self s /\ request s' = request s
  /\ exists evs,
       trace s' = trace s ++ evs
       /\ sends evs = [] /\ befores evs = []
       /\ afters evs `prefix_of` hooks_after ims
       /\ (forall r, o = Ok r -> afters evs = hooks_after ims).
Proof.
  revert s response. induction ims as [|im ims IH]; intros s response; simpl.
  - intros [= <- <-]. split; [done|]. split; [done|].
    exists []. by rewrite app_nil_r.
  - unfold bind at 1. destruct (post_hook im response s) as [s1 o1] eqn:H1.
    apply post_hook_run in H1 as (Hself & Hreq & H1).
    unfold hooks_after; simpl. fold (hooks_after ims).
    destruct (after_request im.2) as [hook|].
    + destruct H1 as (Ht & _ & H1).
      destruct ((hook (request s) response (world s)).2) as [r|e].
      * subst o1. intros Hrest.
        apply IH in Hrest as (Hs & Hr & evs & Ht' & Hsend & Hbef & Hpre & Hall).
        split; [congruence|]. split; [congruence|].
        exists (EvAfter im.1 (request s) response :: evs).
        split; [by rewrite Ht', Ht, <- app_assoc|].
        simpl. repeat split; [done..|by apply prefix_cons|].
        intros r' Ho. by rewrite (Hall r').
      * subst o1. intros [= <- <-].
        split; [done|]. split; [done|].
        exists [EvAfter im.1 (request s) response].
        simpl. repeat split; [done..|by apply prefix_cons, prefix_nil|done].
    + destruct H1 as [-> ->]. intros Hrest.
      by apply IH in Hrest.
Qed.

(** *** Numbered middleware *)

Lemma indexed_from_fst {A : Type} (l : list A) (k : nat) :
  map fst (combine (seq k (length l)) l) = seq k (length l).
Proof.
  revert k. induction l as [|x l IH]; intros k; simpl; [done|]. by rewrite IH.
Qed.

Lemma indexed_from_snd {A : Type} (l : list A) (k : nat) :
  map snd (combine (seq k (length l)) l) = l.
Proof.
  revert k. induction l as [|x l IH]; intros k; simpl; [done|]. by rewrite IH.
Qed.

Lemma indexed_snd {A : Type} (l : list A) : map snd (indexed l) = l.
Proof. apply indexed_from_snd. Qed.

Lemma rev_indexed_snd {A : Type} (l : list A) : map snd (rev (indexed l)) = rev l.
Proof. by rewrite map_rev, indexed_snd. Qed.

Lemma omap_rev {A B : Type} (f : A -> option B) (l : list A) :
  omap f (rev l) = rev (omap f l).
Proof.
  induction l as [|x l IH]; simpl; [done|].
  rewrite omap_app, IH. simpl. destruct (f x); simpl; [done|by rewrite app_nil_r].
Qed.

Lemma hooks_before_sublist ims : hooks_before ims `sublist_of` map fst ims.
Proof.
  induction ims as [|im ims IH]; [done|].
  unfold hooks_before; simpl. fold (hooks_before ims).
  destruct (before_request im.2); [by apply sublist_skip|by apply sublist_cons].
Qed.

Lemma hooks_after_sublist ims : hooks_after ims `sublist_of` map fst ims.
Proof.
  induction ims as [|im ims IH]; [done|].
  unfold hooks_after; simpl. fold (hooks_after ims).
  destruct (after_request im.2); [by apply sublist_skip|by apply sublist_cons].
Qed.

Lemma with_before_NoDup (ms : list (Middleware W)) : NoDup (with_before ms).
Proof.
  apply (sublist_NoDup _ (map fst (indexed ms))); [|apply hooks_before_sublist].
  unfold indexed. rewrite indexed_from_fst. apply NoDup_seq.
Qed.

Lemma with_after_NoDup (ms : list (Middleware W)) : NoDup (with_after ms).
Proof.
  apply (sublist_NoDup _ (map fst (indexed ms))); [|apply hooks_after_sublist].
  unfold indexed. rewrite indexed_from_fst. apply NoDup_seq.
Qed.

(** *** The [try] statement *)

Lemma try_body_run s s' (o : outcome Response.t) :
  try_body s = (s', o) -> try_footprint s s'.
Proof.
  unfold try_body, bind, get. 
  destruct (for_each (indexed (middleware (self s))) pre_hook s) as [s1 o1] eqn:Hpre.
  pose proof (pre_phase_run _ _ _ _ Hpre) as (Hself & evs & Ht & Hsend & Haft & Hpref & Hall).
  assert (Hfull : pre_hooks_return (middleware (self s)) ->
                  befores evs = with_before (middleware (self s))).
  { intros Hret.
    destruct (pre_phase_returns (indexed (middleware (self s))) s) as [s1' Hs1'].
    { by rewrite indexed_snd. }
    rewrite Hs1' in Hpre. injection Hpre as _ <-. by apply Hall. }
  destruct o1 as [[]|e].
  - destruct (find_route (router (self s1)) (Request.path (request s1))
                         (Request.method (request s1))) as [rm rt].
    unfold set_router, set_request, log, modify, call, of_outcome, raise. simpl.
    destruct rm as [[[h path_params] route_config]|].
    + match goal with
      | |- context [invoke ?h0 ?a ?w] => destruct (invoke h0 a w) as [w' [res|e]]
      end; simpl.
      * intros [= <- <-]. unfold try_footprint. simpl. rewrite Hself.
        split; [done|]. split; [done|].
        exists (evs ++ [EvHandler
                          (_prepare_handler_args
                             (Request.set_path_params (request s1) path_params)
                             h path_params)]).
        rewrite Ht, sends_app, afters_app, befores_app, Hsend, Haft. simpl.
        rewrite app_nil_r. by rewrite <- app_assoc.
      * intros [= <- <-]. unfold try_footprint. simpl. rewrite Hself.
        split; [done|]. split; [done|].
        exists (evs ++ [EvHandler
                          (_prepare_handler_args
                             (Request.set_path_params (request s1) path_params)
                             h path_params)]).
        rewrite Ht, sends_app, afters_app, befores_app, Hsend, Haft. simpl.
        rewrite app_nil_r. by rewrite <- app_assoc.
    + intros [= <- <-]. unfold try_footprint. simpl. rewrite Hself.
      split; [done|]. split; [done|]. by exists evs.
  - intros [= <- <-]. unfold try_footprint. rewrite Hself.
    split; [done|]. split; [done|]. by exists evs.
Qed.

Lemma try_statement_run s s' (o : outcome Response.t) :
  try_statement http_exception_str s = (s', o) -> try_footprint s s'.
Proof.
  unfold try_statement, try_except.
  destruct (try_body s) as [s1 o1] eqn:Hbody.
  apply try_body_run in Hbody.
  destruct o1 as [r|e]; [by intros [= <- <-]|].
  destruct (catches_Exception e); [|by intros [= <- <-]].
  unfold bind, get, call.
  destruct (_handle_exception http_exception_str (self s1) e (world s1)) as [w' o'].
  intros [= <- <-]. exact Hbody.
Qed.

(** *** One request *)

(** The three ways a request leaves the dispatcher: a failure out of the
    [try] statement, a failure out of a post-hook, or a response handed to
    the transport. *)
Lemma dispatch_run (app : FlashAPI W) emit req w :
  match try_statement http_exception_str (initial app req w) with
  | (s1, Raise e) => dispatch http_exception_str app emit req w = (s1, Raise e)
  | (s1, Ok r) =>
      match post_loop (rev (indexed (middleware (self s1)))) r s1 with
      | (s2, Raise e) => dispatch http_exception_str app emit req w = (s2, Raise e)
      | (s2, Ok r') =>
          trace (dispatch http_exception_str app emit req w).1
          = trace s2 ++ [EvSend r']
          /\ (dispatch http_exception_str app emit req w).2
             = (emit r' (world s2)).2
      end
  end.
Proof.
  unfold dispatch, _handle_http_request, bind.
  destruct (try_statement http_exception_str (initial app req w)) as [s1 [r|e]]; [|done].
  unfold post_phase, bind, get.
  destruct (post_loop (rev (indexed (middleware (self s1)))) r s1) as [s2 [r'|e]]; [|done].
  unfold log, modify, call. simpl.
  by destruct (emit r' (world s2)).
Qed.

Lemma post_loop_self ims (r : Response.t) (s s' : dstate W) o :
  post_loop ims r s = (s', o) -> self s' = self s.
Proof. intros H. by apply post_loop_run in H as (? & _). Qed.




Lemma dstate_eta s :
  {| self := self s; world := world s; request := request s; trace := trace s |} = s.
Proof. by destruct s. Qed.

Lemma pre_hook_step (im : nat * Middleware W) s :
  pre_hook im s
  = match before_request im.2 with
    | None => (s, Ok tt)
    | Some hook =>
        match hook (request s) (world s) with
        | (w', Ok r) =>
            ({| self := self s; world := w'; request := default (request s) r;
                trace := trace s ++ [EvBefore im.1 (request s)] |}, Ok tt)
        | (w', Raise e) =>
            ({| self := self s; world := w'; request := request s;
                trace := trace s ++ [EvBefore im.1 (request s)] |}, Raise e)
        end
    end.
Proof.
  unfold pre_hook. destruct (before_request im.2) as [hook|]; [|done].
  unfold bind, get, log, modify, call, set_request. cbn [self world request trace].
  by destruct (hook (request s) (world s)) as [w' [r|e]].
Qed.

Lemma post_hook_step (im : nat * Middleware W) (response : Response.t) s :
  post_hook im response s
  = match after_request im.2 with
    | None => (s, Ok response)
    | Some hook =>
        match hook (request s) response (world s) with
        | (w', o) =>
            ({| self := self s; world := w'; request := request s;
                trace := trace s ++ [EvAfter im.1 (request s) response] |},
             match o with Ok r => Ok (default response r) | Raise e => Raise e end)
        end
    end.
Proof.
  unfold post_hook. destruct (after_request im.2) as [hook|]; [|done].
  unfold bind, get, log, modify, call, ret. cbn [self world request trace].
  by destruct (hook (request s) response (world s)) as [w' [r|e]].
Qed.

(** The pre-phase of the dispatcher is [runPre]. *)
Lemma pre_phase_spec ims s :
  for_each ims pre_hook s
  = let '(calls, w', request', failure) := runPre ims (request s) (world s) in
    ({| self := self s; world := w'; request := request';
        trace := trace s ++ before_events calls |},
     match failure with None => Ok tt | Some e => Raise e end).
Proof.
  revert s. induction ims as [|im ims IH]; intros s; cbn [for_each runPre].
  - unfold ret. cbn [before_events map]. by rewrite app_nil_r, dstate_eta.
  - unfold bind at 1. rewrite pre_hook_step.
    destruct (before_request im.2) as [hook|].
    + destruct (hook (request s) (world s)) as [w' [r|e]]; [|done].
      rewrite IH. cbn [self world request trace].
      destruct (runPre ims (default (request s) r) w') as [[[calls w''] rq'] failure].
      cbn [before_events map fst snd]. by rewrite <- app_assoc.
    + by rewrite IH.
Qed.

(** The post-phase of the dispatcher is [runPost]. *)
Lemma post_loop_spec ims (response : Response.t) s :
  post_loop ims response s
  = let '(calls, w', o) := runPost ims (request s) response (world s) in
    ({| self := self s; world := w'; request := request s;
        trace := trace s ++ after_events calls |}, o).
Proof.
  revert s response. induction ims as [|im ims IH]; intros s response;
    cbn [post_loop runPost].
  - unfold ret. cbn [after_events map]. by rewrite app_nil_r, dstate_eta.
  - unfold bind at 1. rewrite post_hook_step.
    destruct (after_request im.2) as [hook|].
    + destruct (hook (request s) response (world s)) as [w' [r|e]]; [|done].
      rewrite IH. cbn [self world request trace].
      destruct (runPost ims (request s) (default response r) w') as [[calls w''] o].
      cbn [after_events map fst snd]. by rewrite <- app_assoc.
    + by rewrite IH.
Qed.

Lemma before_calls_app (t1 t2 : list event) :
  before_calls (t1 ++ t2) = before_calls t1 ++ before_calls t2.
Proof. apply omap_app. Qed.
Lemma after_calls_app (t1 t2 : list event) :
  after_calls (t1 ++ t2) = after_calls t1 ++ after_calls t2.
Proof. apply omap_app. Qed.

Lemma before_calls_events calls : before_calls (before_events calls) = calls.
Proof.
  unfold before_calls, before_events.
  induction calls as [|[i rq] calls IH]; [done|]. cbn [map omap list_omap fst snd].
  by rewrite IH.
Qed.
Lemma after_calls_events calls : after_calls (after_events calls) = calls.
Proof.
  unfold after_calls, after_events.
  induction calls as [|[[i rq] rs] calls IH]; [done|]. cbn [map omap list_omap fst snd].
  by rewrite IH.
Qed.
Lemma after_calls_before calls : after_calls (before_events calls) = [].
Proof.
  unfold after_calls, before_events.
  induction calls as [|[i rq] calls IH]; [done|]. cbn [map omap list_omap fst snd].
  by rewrite IH.
Qed.
Lemma before_calls_after calls : before_calls (after_events calls) = [].
Proof.
  unfold before_calls, after_events.
  induction calls as [|[[i rq] rs] calls IH]; [done|]. cbn [map omap list_omap fst snd].
  by rewrite IH.
Qed.
Lemma sends_after calls : sends (after_events calls) = [].
Proof.
  unfold sends, after_events.
  induction calls as [|[[i rq] rs] calls IH]; [done|]. cbn [map omap list_omap fst snd].
  by rewrite IH.
Qed.

Lemma befores_calls (t : list event) : befores t = map fst (before_calls t).
Proof.
  induction t as [|ev t IH]; [done|]. unfold befores, before_calls in *. cbn [omap list_omap].
  destruct ev; cbn; by rewrite ?IH.
Qed.
Lemma afters_calls (t : list event) : afters t = map (fun c => c.1.1) (after_calls t).
Proof.
  induction t as [|ev t IH]; [done|]. unfold afters, after_calls in *. cbn [omap list_omap].
  destruct ev; cbn; by rewrite ?IH.
Qed.

(** The body of the [try] statement: the pre-phase, then at most the call
    of the handler. *)
Lemma try_body_calls s s' (o : outcome Response.t) :
  try_body s = (s', o) ->
  let '(calls, w', request', failure) :=
    runPre (indexed (middleware (self s))) (request s) (world s) in
  before_calls (trace s') = before_calls (trace s) ++ calls
  /\ after_calls (trace s') = after_calls (trace s)
  /\ match failure with
     | Some e => o = Raise e /\ request s' = request'
     | None => request s' = request'
               \/ exists ps, request s' = Request.set_path_params request' ps
     end.
Proof.
  unfold try_body, bind, get. rewrite pre_phase_spec.
  destruct (runPre _ (request s) (world s)) as [[[calls w'] rq'] [e|]].
  - intros [= <- <-]. cbn [trace request].
    by rewrite before_calls_app, after_calls_app, before_calls_events,
               after_calls_before, app_nil_r.
  - cbn [self request].
    destruct (find_route _ _ _) as [rm rt].
    unfold set_router, set_request, log, modify, call, of_outcome, raise.
    cbn [self world request trace].
    destruct rm as [[[h path_params] route_config]|].
    + match goal with
      | |- context [invoke ?h0 ?a ?w0] => destruct (invoke h0 a w0) as [w'' [res|e]]
      end; intros [= <- <-]; cbn [trace request];
        rewrite !before_calls_app, !after_calls_app, before_calls_events,
                after_calls_before; cbn; rewrite !app_nil_r;
        (split; [done|split; [done|right; by eexists]]).
    + intros [= <- <-]. cbn [trace request].
      rewrite before_calls_app, after_calls_app, before_calls_events,
              after_calls_before, app_nil_r. by repeat split; [..|left].
Qed.

Lemma try_statement_calls s s' (o : outcome Response.t) :
  try_statement http_exception_str s = (s', o) ->
  before_calls (trace s') = before_calls (trace s)
                            ++ (runPre (indexed (middleware (self s))) (request s) (world s)).1.1.1
  /\ after_calls (trace s') = after_calls (trace s)
  /\ match (runPre (indexed (middleware (self s))) (request s) (world s)).2 with
     | Some e => request s' = (runPre (indexed (middleware (self s))) (request s) (world s)).1.2
     | None =>
         request s' = (runPre (indexed (middleware (self s))) (request s) (world s)).1.2
         \/ exists ps,
              request s'
              = Request.set_path_params
                  (runPre (indexed (middleware (self s))) (request s) (world s)).1.2 ps
     end.
Proof.
  unfold try_statement, try_except.
  destruct (try_body s) as [s1 o1] eqn:Hbody.
  apply try_body_calls in Hbody.
  destruct (runPre _ (request s) (world s)) as [[[calls w'] rq'] failure].
  cbn [fst snd]. destruct Hbody as (Hb & Ha & Hreq).
  assert (Hreq' : match failure with
                  | Some _ => request s1 = rq'
                  | None => request s1 = rq'
                            \/ exists ps, request s1 = Request.set_path_params rq' ps
                  end).
  { destruct failure; [by destruct Hreq|done]. }
  destruct o1 as [r|e]; [by intros [= <- <-]|].
  destruct (catches_Exception e); [|by intros [= <- <-]].
  unfold bind, get, call.
  destruct (_handle_exception http_exception_str (self s1) e (world s1)) as [w'' o''].
  by intros [= <- <-].
Qed.


Lemma runPre_order ims (rq : Request.t) (w : W) :
  map fst (runPre ims rq w).1.1.1 `prefix_of` hooks_before ims
  /\ ((runPre ims rq w).2 = None -> map fst (runPre ims rq w).1.1.1 = hooks_before ims).
Proof.
  revert rq w. induction ims as [|im ims IH]; intros rq w; cbn [runPre].
  - done.
  - unfold hooks_before. cbn [omap list_omap]. fold (hooks_before ims).
    destruct (before_request im.2) as [hook|]; [|apply IH].
    destruct (hook rq w) as [w' [r|e]].
    + specialize (IH (default rq r) w').
      destruct (runPre ims (default rq r) w') as [[[calls w''] rq'] failure].
      cbn [fst snd map] in *. destruct IH as [Hp Hall].
      split; [by apply prefix_cons|]. intros Hf. by rewrite Hall.
    + cbn [fst snd map]. split; [apply prefix_cons, prefix_nil|done].
Qed.

Lemma runPost_order ims (rq : Request.t) (r : Response.t) (w : W) :
  map (fun c => c.1.1) (runPost ims rq r w).1.1 `prefix_of` hooks_after ims
  /\ (forall r', (runPost ims rq r w).2 = Ok r' ->
                 map (fun c => c.1.1) (runPost ims rq r w).1.1 = hooks_after ims).
Proof.
  revert r w. induction ims as [|im ims IH]; intros r w; cbn [runPost].
  - done.
  - unfold hooks_after. cbn [omap list_omap]. fold (hooks_after ims).
    destruct (after_request im.2) as [hook|]; [|apply IH].
    destruct (hook rq r w) as [w' [r1|e]].
    + specialize (IH (default r r1) w').
      destruct (runPost ims rq (default r r1) w') as [[calls w''] o].
      cbn [fst snd map] in *. destruct IH as [Hp Hall].
      split; [by apply prefix_cons|]. intros r' Hf. by rewrite (Hall r').
    + cbn [fst snd map]. split; [apply prefix_cons, prefix_nil|done].
Qed.

Lemma hooks_after_rev (ms : list (Middleware W)) :
  hooks_after (rev (indexed ms)) = rev (with_after ms).
Proof. unfold with_after, hooks_after. apply omap_rev. Qed.

(** C6 (amended).  In every request the pre-hooks that are called are
    called in registration order and the post-hooks in reverse registration
    order, each at most once.  The pre-phase is [runPre] of the
    specification: each pre-hook is given the working request, which its
    return value replaces unless it is [None], and the phase stops at the
    first hook that raises, so that every pre-hook is called exactly once in
    a request in which none raises.  The post-phase, reached when the [try]
    statement ends with a response, is [runPost] on that response and the
    working request: each post-hook is given the working response, which its
    return value replaces unless it is [None]; when all return, every
    post-hook was called exactly once and the response handed to the
    transport is the working response that the last one left; when one
    raises, the later ones are not called and nothing is handed over. *)
Theorem hooks_in_order (app : FlashAPI W) emit req w :
  (befores (trace (dispatch http_exception_str app emit req w).1)
     `prefix_of` with_before (middleware app)
   /\ afters (trace (dispatch http_exception_str app emit req w).1)
        `prefix_of` rev (with_after (middleware app))
   /\ NoDup (with_before (middleware app))
   /\ NoDup (with_after (middleware app)))
  /\ (forall s,
        for_each (indexed (middleware app)) pre_hook s
        = let '(calls, w', request', failure) :=
            runPre (indexed (middleware app)) (request s) (world s) in
          ({| self := self s; world := w'; request := request';
              trace := trace s ++ before_events calls |},
           match failure with None => Ok tt | Some e => Raise e end))
  /\ (forall s response,
        post_loop (rev (indexed (middleware app))) response s
        = let '(calls, w', o) :=
            runPost (rev (indexed (middleware app))) (request s) response (world s) in
          ({| self := self s; world := w'; request := request s;
              trace := trace s ++ after_events calls |}, o))
  /\ (let '(calls, w1, request1, failure) := runPre (indexed (middleware app)) req w in
      before_calls (trace (dispatch http_exception_str app emit req w).1) = calls
      /\ (failure = None ->
          befores (trace (dispatch http_exception_str app emit req w).1)
          = with_before (middleware app))
      /\ match try_statement http_exception_str (initial app req w) with
         | (s1, Ok r) =>
             (request s1 = request1
              \/ exists ps, request s1 = Request.set_path_params request1 ps)
             /\ let '(calls', w2, o2) :=
                  runPost (rev (indexed (middleware app))) (request s1) r (world s1) in
                after_calls (trace (dispatch http_exception_str app emit req w).1) = calls'
                /\ match o2 with
                   | Ok r' =>
                       sends (trace (dispatch http_exception_str app emit req w).1) = [r']
                       /\ afters (trace (dispatch http_exception_str app emit req w).1)
                          = rev (with_after (middleware app))
                   | Raise e =>
                       sends (trace (dispatch http_exception_str app emit req w).1) = []
                       /\ (dispatch http_exception_str app emit req w).2 = Raise e
                   end
         | (s1, Raise e) =>
             after_calls (trace (dispatch http_exception_str app emit req w).1) = []
             /\ sends (trace (dispatch http_exception_str app emit req w).1) = []
         end).
Proof.
  pose proof (dispatch_run app emit req w) as Hrun.
  destruct (try_statement http_exception_str (initial app req w)) as [s1 o1] eqn:Htry.
  pose proof (try_statement_run _ _ _ Htry) as (Hms & _ & evs & Ht & Hsend & Haft & _).
  pose proof (try_statement_calls _ _ _ Htry) as (Hb & Ha & Hreq).
  cbn [initial self trace request world List.app] in Hms, Ht, Hb, Ha, Hreq.
  change (before_calls []) with (@nil (nat * Request.t)) in Hb.
  change (after_calls []) with (@nil (nat * Request.t * Response.t)) in Ha.
  cbn [List.app] in Hb.
  pose proof (runPre_order (indexed (middleware app)) req w) as [Hpre Hpre_all].
  fold (with_before (middleware app)) in Hpre, Hpre_all.
  destruct (runPre (indexed (middleware app)) req w) as [[[calls w1] rq1] failure] eqn:Hrp.
  cbn [fst snd] in Hb, Hreq, Hpre, Hpre_all.
  rewrite Hms in Hrun.
  assert (Hphases :
    (forall s,
        for_each (indexed (middleware app)) pre_hook s
        = let '(calls, w', request', failure) :=
            runPre (indexed (middleware app)) (request s) (world s) in
          ({| self := self s; world := w'; request := request';
              trace := trace s ++ before_events calls |},
           match failure with None => Ok tt | Some e => Raise e end))
    /\ (forall s response,
          post_loop (rev (indexed (middleware app))) response s
          = let '(calls, w', o) :=
              runPost (rev (indexed (middleware app))) (request s) response (world s) in
            ({| self := self s; world := w'; request := request s;
                trace := trace s ++ after_events calls |}, o))).
  { split; [intros s; apply pre_phase_spec|intros s r; apply post_loop_spec]. }
  destruct o1 as [r|e].
  - rewrite post_loop_spec in Hrun.
    pose proof (runPost_order (rev (indexed (middleware app))) (request s1) r (world s1))
      as [Hpost Hpost_all].
    rewrite hooks_after_rev in Hpost, Hpost_all.
    destruct (runPost (rev (indexed (middleware app))) (request s1) r (world s1))
      as [[calls' w2] o2] eqn:Hpo.
    cbn [fst snd] in Hpost, Hpost_all.
    assert (Htrace : exists tail,
               trace (dispatch http_exception_str app emit req w).1
               = trace s1 ++ after_events calls' ++ tail
               /\ before_calls tail = [] /\ after_calls tail = []
               /\ sends tail = match o2 with Ok r' => [r'] | Raise _ => [] end
               /\ match o2 with
                  | Ok _ => True
                  | Raise e => (dispatch http_exception_str app emit req w).2 = Raise e
                  end).
    { destruct o2 as [r'|e].
      - destruct Hrun as [-> _]. cbn [trace]. exists [EvSend r'].
        by rewrite <- app_assoc.
      - rewrite Hrun. cbn [fst snd trace]. exists []. by rewrite app_nil_r. }
    destruct Htrace as (tail & Htr & Hbt & Hat & Hst & Hout).
    assert (Hbc : before_calls (trace (dispatch http_exception_str app emit req w).1) = calls).
    { rewrite Htr, !before_calls_app, Hb, before_calls_after, Hbt. by rewrite !app_nil_r. }
    assert (Hac : after_calls (trace (dispatch http_exception_str app emit req w).1) = calls').
    { rewrite Htr, !after_calls_app, Ha, after_calls_events, Hat. by rewrite app_nil_r. }
    assert (Hsd : sends (trace (dispatch http_exception_str app emit req w).1)
                  = match o2 with Ok r' => [r'] | Raise _ => [] end).
    { rewrite Htr, Ht, !sends_app, Hsend, sends_after, Hst. done. }
    rewrite befores_calls, afters_calls, Hbc, Hac.
    split; [|split; [apply Hphases|split; [apply Hphases|]]].
    + repeat split; [done|done|apply with_before_NoDup|apply with_after_NoDup].
    + split; [done|]. split; [done|]. split.
      * destruct failure; [by left|done].
      * split; [done|]. destruct o2 as [r'|e]; [|done].
        split; [done|]. by apply (Hpost_all r').
  - rewrite Hrun. cbn [fst snd].
    rewrite befores_calls, afters_calls, Hb, Ha, Ht, Hsend. cbn [map].
    split; [|split; [apply Hphases|split; [apply Hphases|]]].
    + repeat split; [done|apply prefix_nil|apply with_before_NoDup|apply with_after_NoDup].
    + done.
Qed.

(** *** Exception resolution *)

Lemma default_handlers :
  exception_handlers (FlashAPI_init (W := W) http_exception_str)
  = [ (DClass "HTTPException", _handle_http_exception);
      (DStatus 500, _handle_500_exception);
      (DStatus 404, _handle_404_exception http_exception_str) ].
Proof. reflexivity. Qed.

(** With the handlers installed by [__init__], resolving a failure that
    is not an [HTTPException] stops at the key [500] with a
    [TypeError]. *)
Lemma default_handlers_raise (cls : string) (bases : list string) (msg : string) (w : W) :
  "HTTPException" ∉ cls :: bases ->
  _handle_exception http_exception_str (FlashAPI_init http_exception_str)
                    (PyExc cls bases msg) w
  = (w, Raise (TypeError
                 "isinstance() arg 2 must be a type, a tuple of types, or a union")).
Proof.
  intros Hnot. unfold _handle_exception. rewrite default_handlers.
  cbn [resolve isinstance exc_mro is_type_of exc_type].
  rewrite bool_decide_eq_false_2 by done.
  assert (("HTTPException" =? cls)%string = false) as ->.
  { apply String.eqb_neq. intros <-. apply Hnot, list_elem_of_here. }
  done.
Qed.

(** With class keys only, a failure that none of them matches gets the
    default response. *)
Lemma resolve_classes_default (hs : list (discriminator * exc_handler W)) exc (w : W) :
  Forall (fun kh => exists c, kh.1 = DClass c /\ c ∉ exc_mro exc) hs ->
  resolve http_exception_str hs exc w
  = (w, Ok (Response.json
              (PDict [(PStr "error", PStr "Internal Server Error");
                      (PStr "message", PStr (exc_str http_exception_str exc))]) 500)).
Proof.
  induction 1 as [|[k h] hs (c & Hk & Hc) _ IH]; [done|].
  simpl in Hk. subst k. cbn [resolve isinstance is_type_of].
  rewrite bool_decide_eq_false_2 by done.
  assert ((c =? exc_type exc)%string = false) as ->; [|exact IH].
  apply String.eqb_neq. intros ->. apply Hc.
  destruct exc; apply list_elem_of_here.
Qed.

End DispatcherFacts.

(* --------------------------------------------------------------------- *)
(** ** The dispatcher on the fixtures *)
(* --------------------------------------------------------------------- *)

Section DispatcherFixture.
Import Fixture Sample.

(** C3.  [_create_response] returns a response object unchanged, makes a
    JSON response of a dict or a list and wraps any value that is not a
    string in an envelope with the single field [result].  For a string it
    evaluates the name [TextResponse], which [app.py] never imports, and
    raises [NameError] where a text response was to be built. *)
Theorem create_response_text_raises :
  (forall r, _create_response (RetResponse r) = Ok r)
  /\ (forall v,
        _create_response (RetValue v) =
        match v with
        | PDict _ | PList _ => Ok (Response.json v 200)
        | PStr _ => Raise (NameError "name 'TextResponse' is not defined")
        | _ => Ok (Response.json (PDict [(PStr "result", v)]) 200)
        end)
  /\ ("TextResponse" ∉ app_globals)
  /\ _create_response (RetValue (PStr "hello"))
     = Raise (NameError "name 'TextResponse' is not defined").
Proof.
  split; [done|]. split; [by intros []|]. split; [|done].
  intros Hin. by apply (bool_decide_eq_true_2 _) in Hin.
Qed.

(** C2.  On the application as [__init__] builds it, a handler that raises
    [ValueError], which no registered key matches, gets no response of
    status 500: resolution raises [TypeError] at the key [500], the failure
    leaves the dispatcher, no post-hook runs and nothing is sent. *)
Theorem unclassified_failure_escapes :
  _handle_exception http_str app0 (ValueError "boom") []
  = ([], Raise (TypeError
                  "isinstance() arg 2 must be a type, a tuple of types, or a union"))
  /\ (dispatch http_str app_recorders emit (get_request "/boom") []).2
     = Raise (TypeError
                "isinstance() arg 2 must be a type, a tuple of types, or a union")
  /\ world (dispatch http_str app_recorders emit (get_request "/boom") []).1
     = ["pre A"; "pre B"; "handler"]
  /\ afters (trace (dispatch http_str app_recorders emit (get_request "/boom") []).1) = []
  /\ sends (trace (dispatch http_str app_recorders emit (get_request "/boom") []).1) = [].
Proof. repeat split; reflexivity. Qed.




(** C6 as stated fails when a pre-hook raises: the pre-hook of the
    interceptor registered after it is not invoked, while both post-hooks
    are. *)
Lemma each_hook_once_counterexample :
  befores (trace (dispatch http_str app_gate emit (get_request "/hello") []).1) = [0%nat]
  /\ with_before (middleware app_gate) = [0%nat; 1%nat]
  /\ afters (trace (dispatch http_str app_gate emit (get_request "/hello") []).1)
     = [1%nat; 0%nat]
  /\ ~ each_hook_once app_gate (dispatch http_str app_gate emit (get_request "/hello") []).
Proof.
  split; [reflexivity|]. split; [reflexivity|]. split; [reflexivity|].
  intros [Hpre _]. vm_compute in Hpre. discriminate Hpre.
Qed.

(** A stamper, a recorder and a stamper in front of [/hello]: the
    pre-hooks are called in the order A, B, C, the recorder and the second
    stamper with the request the first stamper returned; the post-hooks in
    the order C, B, A, the recorder and the first stamper with the response
    the second stamper returned; and the response handed over carries both
    headers. *)
Lemma hooks_in_order_witness :
  before_calls (trace (dispatch http_str app_stampers emit (get_request "/hello") []).1)
  = [ (0%nat, get_request "/hello");
      (1%nat, marked (get_request "/hello") "A");
      (2%nat, marked (get_request "/hello") "A") ]
  /\ map (fun c => (c.1.1, Response.headers c.2))
         (after_calls
            (trace (dispatch http_str app_stampers emit (get_request "/hello") []).1))
     = [ (2%nat, []); (1%nat, [("C", "seen")]); (0%nat, [("C", "seen")]) ]
  /\ map (fun c => Request.attrs c.1.2)
         (after_calls
            (trace (dispatch http_str app_stampers emit (get_request "/hello") []).1))
     = [ [("A", PBool true); ("C", PBool true)];
         [("A", PBool true); ("C", PBool true)];
         [("A", PBool true); ("C", PBool true)] ]
  /\ map Response.headers
         (sends (trace (dispatch http_str app_stampers emit (get_request "/hello") []).1))
     = [ [("C", "seen"); ("A", "seen")] ].
Proof.
  pose proof (hooks_in_order http_str app_stampers emit (get_request "/hello") [])
    as (_ & _ & _ & Hrun).
  destruct (runPre _ _ _) as [[[calls w1] request1] failure] eqn:Hpre in Hrun.
  vm_compute in Hpre. injection Hpre as <- <- <- <-.
  destruct Hrun as (-> & _ & Hrun).
  destruct (try_statement _ _) as [s1 [r|e]] eqn:Htry in Hrun;
    vm_compute in Htry; [|discriminate Htry].
  injection Htry as <- <-. destruct Hrun as [_ Hrun].
  destruct (runPost _ _ _ _) as [[calls' w2] [r'|e]] eqn:Hpost in Hrun;
    vm_compute in Hpost; [|discriminate Hpost].
  injection Hpost as <- <- <-. destruct Hrun as (-> & -> & _).
  repeat split; reflexivity.
Defined.

End DispatcherFixture.

(* ===================================================================== *)
(** * Further properties of the code *)
(* ===================================================================== *)

(* --------------------------------------------------------------------- *)
(** ** The router: the cache is transparent *)
(* --------------------------------------------------------------------- *)

Section RouterMore.
Context {Handler : Type}.
Implicit Types (r : Router Handler) (path method : string).

Lemma consistent_find_scan r path method :
  cache_consistent r -> (find_route r path method).1 = scan (routes r) path method.
Proof.
  intros Hr. unfold find_route.
  destruct (_route_cache r !! (path, method)) as [cached|] eqn:Hc.
  - simpl. symmetry. by apply Hr.
  - by destruct (scan (routes r) path method).
Qed.

Lemma scan_app (rs : list (Route Handler)) (route : Route Handler) path method :
  scan (rs ++ [route]) path method =
  match scan rs path method with
  | Some entry => Some entry
  | None =>
      match Route_match route path method with
      | Some params => Some (handler route, params, config route)
      | None => None
      end
  end.
Proof.
  induction rs as [|x rs IH]; simpl; [done|].
  by destruct (Route_match x path method).
Qed.

(** X1.  A lookup repeated right away returns the same result and leaves
    the router as the first lookup left it: [find_route] is idempotent. *)
Theorem find_route_twice r path method :
  (find_route (find_route r path method).2 path method).1 = (find_route r path method).1
  /\ (find_route (find_route r path method).2 path method).2 = (find_route r path method).2.
Proof.
  destruct (_route_cache r !! (path, method)) as [cached|] eqn:Hc.
  - rewrite !(find_route_cached r path method cached Hc). simpl.
    by rewrite (find_route_cached r path method cached Hc).
  - rewrite !(find_route_cold r path method Hc).
    destruct (scan (routes r) path method) as [entry|] eqn:Hs; simpl.
    + rewrite (find_route_cached _ path method entry); [done|].
      simpl. apply lookup_insert_eq.
    + by rewrite (find_route_cold r path method Hc), Hs.
Qed.

(** X2.  The cache is transparent: on every router that [add_route] and
    [find_route] can produce, a lookup returns what a scan of the current
    routes returns, whether the pair is cached or not. *)
Theorem find_route_is_scan r path method :
  reachable r -> (find_route r path method).1 = scan (routes r) path method.
Proof. intros Hr. by apply consistent_find_scan, reachable_consistent. Qed.

(** X3.  Registering a route never changes how a request that already
    resolved is resolved: after [add_route] a lookup returns what it
    returned before, and a pair that resolved to nothing resolves to the
    new route exactly when that route matches it. *)
Theorem add_route_keeps_resolutions r tpl methods h kwargs r' path method :
  reachable r ->
  add_route r tpl methods h kwargs = Built r' ->
  exists route,
    routes r' = routes r ++ [route]
    /\ (find_route r' path method).1 =
       match (find_route r path method).1 with
       | Some entry => Some entry
       | None =>
           match Route_match route path method with
           | Some params => Some (handler route, params, config route)
           | None => None
           end
       end.
Proof.
  intros Hr Hadd.
  assert (Hr' : reachable r') by (by eapply reach_add).
  apply add_route_shape in Hadd as (cfg & route & _ & _ & ->).
  exists route. split; [done|].
  rewrite (consistent_find_scan _ _ _ (reachable_consistent _ Hr')).
  rewrite (consistent_find_scan _ _ _ (reachable_consistent _ Hr)).
  apply scan_app.
Qed.
End RouterMore.

(* --------------------------------------------------------------------- *)
(** ** [_compile_pattern] on a literal text followed by one placeholder *)
(* --------------------------------------------------------------------- *)

(** A fact about one character, by cases on the character. *)
Ltac per_char c H :=
  destruct c as [[] [] [] [] [] [] [] []];
  first [reflexivity | (vm_compute in H; discriminate H)].

Section TemplateFacts.

Lemma no_brace_cons (c : ascii) (s : string) :
  no_brace (String c s) = true -> Ascii.eqb "{" c = false /\ no_brace s = true.
Proof.
  change (no_brace (String c s)) with (negb (Ascii.eqb "{" c) && no_brace s).
  intros H. apply andb_true_iff in H as [Hc Hs].
  split; [by apply negb_true_iff|done].
Qed.

Lemma no_brace_app (a b : string) :
  no_brace a = true -> no_brace b = true -> no_brace (a ++ b)%string = true.
Proof.
  intros Ha Hb. induction a as [|c a IH]; [done|].
  rewrite app_String. apply no_brace_cons in Ha as [Hc Ha].
  change (negb (Ascii.eqb "{" c) && no_brace (a ++ b)%string = true).
  by rewrite Hc, IH.
Qed.

Lemma word_not_brace (c : ascii) : Chars.is_word c = true -> Ascii.eqb "{" c = false.
Proof. intros H. per_char c H. Qed.

Lemma word_not_colon (c : ascii) : Chars.is_word c = true -> Ascii.eqb ":" c = false.
Proof. intros H. per_char c H. Qed.

Lemma word_not_gt (c : ascii) : Chars.is_word c = true -> negb (Chars.code c =? 62)%nat = true.
Proof. intros H. per_char c H. Qed.

Lemma forallb_impl (p q : ascii -> bool) (s : string) :
  (forall c, p c = true -> q c = true) ->
  Str.forallb p s = true -> Str.forallb q s = true.
Proof.
  intros Hpq. induction s as [|c s IH]; simpl; [done|].
  intros H. apply andb_true_iff in H as [Hc Hs]. by rewrite (Hpq c Hc), IH.
Qed.

Lemma word_no_brace (s : string) : Str.forallb Chars.is_word s = true -> no_brace s = true.
Proof.
  apply forallb_impl. intros c Hc. by rewrite (word_not_brace c Hc).
Qed.

Lemma plain_no_brace (s : string) : Str.plain s = true -> no_brace s = true.
Proof.
  apply forallb_impl. intros c Hc.
  destruct (Chars.is_meta c) eqn:Hm; [done|]. by rewrite (brace_eqb_plain c Hm).
Qed.

Lemma typed_at_other (c : ascii) (s : string) :
  Ascii.eqb "{" c = false -> Compile.typed_at (String c s) = None.
Proof. intros H. per_char c H. Qed.

Lemma basic_at_other (c : ascii) (s : string) :
  Ascii.eqb "{" c = false -> Compile.basic_at (String c s) = None.
Proof. intros H. per_char c H. Qed.

Lemma finditer_no_brace {G : Type} (at_start : string -> option (G * nat)) (s tail : string) :
  (forall c t, Ascii.eqb "{" c = false -> at_start (String c t) = None) ->
  no_brace s = true ->
  Compile.finditer at_start 0 (s ++ tail)%string = Compile.finditer at_start 0 tail.
Proof.
  intros Hat. induction s as [|c s IH]; [done|].
  intros Hs. apply no_brace_cons in Hs as [Hc Hs].
  rewrite app_String. cbn [Compile.finditer]. rewrite (Hat c _ Hc). by apply IH.
Qed.

Lemma finditer_skip {G : Type} (at_start : string -> option (G * nat)) (a b : string) :
  Compile.finditer at_start (String.length a) (a ++ b)%string = Compile.finditer at_start 0 b.
Proof. induction a as [|c a IH]; [done|]. rewrite app_String. simpl. apply IH. Qed.

Lemma replace_no_brace (old' new s tail : string) :
  no_brace s = true ->
  Str.replace (String "{" old') new (s ++ tail)%string
  = (s ++ Str.replace (String "{" old') new tail)%string.
Proof.
  unfold Str.replace. induction s as [|c s IH]; [done|].
  intros Hs. apply no_brace_cons in Hs as [Hc Hs].
  rewrite !app_String. cbn [Str.replace_from Str.strip_prefix].
  rewrite Hc. by rewrite IH.
Qed.

Lemma replace_from_skip (old new a b : string) :
  Str.replace_from (String.length a) old new (a ++ b)%string = Str.replace_from 0 old new b.
Proof. induction a as [|c a IH]; [done|]. rewrite app_String. simpl. apply IH. Qed.

Lemma strip_prefix_app (p rest : string) : Str.strip_prefix p (p ++ rest)%string = Some rest.
Proof. by apply strip_prefix_Some. Qed.

Lemma replace_self (old' new rest : string) :
  Str.replace (String "{" old') new (String "{" old' ++ rest)%string
  = (new ++ Str.replace (String "{" old') new rest)%string.
Proof.
  unfold Str.replace. rewrite app_String.
  cbn [Str.replace_from]. 
  change (Str.strip_prefix (String "{" old') (String "{" (old' ++ rest)%string))
    with (Str.strip_prefix (String "{" old') (String "{" old' ++ rest)%string).
  rewrite strip_prefix_app.
  cbn [String.length]. rewrite Nat.sub_1_r. cbn [Nat.pred].
  by rewrite replace_from_skip.
Qed.


Lemma is_type_tag_spec (ty : string) :
  is_type_tag ty = true -> Str.is_empty ty = false /\ Str.forallb Chars.is_word ty = true.
Proof.
  unfold is_type_tag. intros H. apply andb_true_iff in H as [H1 H2].
  split; [by apply negb_true_iff|done].
Qed.

Lemma is_name_spec (name : string) :
  is_name name = true ->
  Re.is_identifier name = true /\ Str.is_empty name = false
  /\ Str.forallb Chars.is_word name = true.
Proof.
  unfold is_name. intros H. apply andb_true_iff in H as [H1 H2].
  split; [done|]. split; [by destruct name|done].
Qed.

Lemma span_word_colon (name rest : string) :
  Str.forallb Chars.is_word name = true ->
  Str.span Chars.is_word (name ++ String ":" rest)%string = (name, String ":" rest).
Proof. intros H. by apply span_app_stop. Qed.

Lemma span_word_close (name rest : string) :
  Str.forallb Chars.is_word name = true ->
  Str.span Chars.is_word (name ++ String "}" rest)%string = (name, String "}" rest).
Proof. intros H. by apply span_app_stop. Qed.

Lemma typed_at_typed (name ty rest : string) :
  Str.is_empty name = false -> Str.forallb Chars.is_word name = true ->
  is_type_tag ty = true ->
  Compile.typed_at (String "{" (name ++ String ":" (ty ++ String "}" rest)))%string
  = Some (name, ty, (String.length name + String.length ty + 3)%nat).
Proof.
  intros Hne Hname Hty. apply is_type_tag_spec in Hty as [Htne Hty].
  cbn [Compile.typed_at]. rewrite (span_word_colon name _ Hname), Hne.
  by rewrite (span_word_close ty _ Hty), Htne.
Qed.

Lemma typed_at_untyped (name rest : string) :
  Str.forallb Chars.is_word name = true ->
  Compile.typed_at (String "{" (name ++ String "}" rest))%string = None.
Proof.
  intros Hname. cbn [Compile.typed_at]. rewrite (span_word_close name _ Hname).
  by destruct (Str.is_empty name).
Qed.

Lemma basic_at_untyped (name rest : string) :
  Str.is_empty name = false -> Str.forallb Chars.is_word name = true ->
  Compile.basic_at (String "{" (name ++ String "}" rest))%string
  = Some (name, (String.length name + 2)%nat).
Proof.
  intros Hne Hname. cbn [Compile.basic_at].
  by rewrite (span_word_close name _ Hname), Hne.
Qed.

(** The matches of the typed pattern in a literal text followed by one typed
    placeholder, and of both patterns around one untyped placeholder. *)
Lemma finditer_typed_one (pre name ty : string) :
  Str.plain pre = true ->
  Str.is_empty name = false -> Str.forallb Chars.is_word name = true ->
  is_type_tag ty = true ->
  Compile.finditer Compile.typed_at 0
    (pre ++ String "{" (name ++ String ":" (ty ++ "}")))%string = [(name, ty)].
Proof.
  intros Hp Hne Hname Hty.
  rewrite (finditer_no_brace _ pre _ typed_at_other (plain_no_brace _ Hp)).
  cbn [Compile.finditer]. rewrite (typed_at_typed name ty "" Hne Hname Hty).
  f_equal.
  replace (String.length name + String.length ty + 3 - 1)%nat
    with (String.length (name ++ String ":" (ty ++ "}"))%string).
  - rewrite <- (append_empty_r (name ++ String ":" (ty ++ "}"))%string) at 2.
    by rewrite finditer_skip.
  - rewrite !length_app_string. cbn [String.length].
    rewrite length_app_string. cbn [String.length]. lia.
Qed.

Lemma finditer_typed_none (pre name : string) :
  Str.plain pre = true -> Str.forallb Chars.is_word name = true ->
  Compile.finditer Compile.typed_at 0 (pre ++ String "{" (name ++ "}"))%string = [].
Proof.
  intros Hp Hname.
  rewrite (finditer_no_brace _ pre _ typed_at_other (plain_no_brace _ Hp)).
  cbn [Compile.finditer]. rewrite (typed_at_untyped name "" Hname).
  rewrite <- (append_empty_r (name ++ "}")%string).
  rewrite (finditer_no_brace _ (name ++ "}")%string "" typed_at_other); [done|].
  apply no_brace_app; [by apply word_no_brace|done].
Qed.

Lemma finditer_basic_one (pre name : string) :
  Str.plain pre = true ->
  Str.is_empty name = false -> Str.forallb Chars.is_word name = true ->
  Compile.finditer Compile.basic_at 0 (pre ++ String "{" (name ++ "}"))%string = [name].
Proof.
  intros Hp Hne Hname.
  rewrite (finditer_no_brace _ pre _ basic_at_other (plain_no_brace _ Hp)).
  cbn [Compile.finditer]. rewrite (basic_at_untyped name "" Hne Hname).
  f_equal.
  replace (String.length name + 2 - 1)%nat with (String.length (name ++ "}")%string).
  - rewrite <- (append_empty_r (name ++ "}")%string) at 2.
    by rewrite finditer_skip.
  - rewrite length_app_string. cbn [String.length]. lia.
Qed.

Lemma replace_exact (old' new : string) :
  Str.replace (String "{" old') new (String "{" old') = new.
Proof.
  pose proof (replace_self old' new "") as H.
  rewrite append_empty_r in H. rewrite H.
  change (Str.replace (String "{" old') new "") with "". apply append_empty_r.
Qed.

Lemma type_map_no_brace (ty : string) : no_brace (Compile.type_map_get ty) = true.
Proof.
  unfold Compile.type_map_get.
  repeat match goal with |- context [String.eqb ?a ?b] => destruct (String.eqb a b) end;
    reflexivity.
Qed.

Lemma group_text_no_brace (name body : string) :
  Str.forallb Chars.is_word name = true -> no_brace body = true ->
  no_brace (group_text name body) = true.
Proof.
  intros Hname Hbody. unfold group_text.
  change (no_brace (name ++ String ">" (body ++ ")")) = true).
  apply no_brace_app; [by apply word_no_brace|].
  change (no_brace (body ++ ")") = true).
  by apply no_brace_app.
Qed.

Lemma finditer_basic_group (pre name body : string) :
  Str.plain pre = true -> Str.forallb Chars.is_word name = true ->
  no_brace body = true ->
  Compile.finditer Compile.basic_at 0 (pre ++ group_text name body)%string = [].
Proof.
  intros Hp Hname Hbody.
  rewrite <- (append_empty_r (pre ++ group_text name body)%string).
  rewrite (finditer_no_brace _ _ "" basic_at_other); [done|].
  apply no_brace_app; [by apply plain_no_brace|by apply group_text_no_brace].
Qed.

Lemma parse_body_type (ty rest : string) :
  Re.parse_body Re.bodies (Compile.type_map_get ty ++ String ")" rest)%string
  = Some (group_body ty, rest).
Proof.
  unfold Compile.type_map_get, group_body.
  destruct (String.eqb_spec ty "int") as [-> | _]; [reflexivity|].
  destruct (String.eqb_spec ty "str") as [-> | _]; [reflexivity|].
  destruct (String.eqb_spec ty "float") as [-> | _]; [reflexivity|].
  destruct (String.eqb_spec ty "uuid") as [-> | _]; reflexivity.
Qed.

Lemma parse_group (fuel : nat) (seen : list string) (name body rest : string)
      (b : list Re.item) :
  Re.is_identifier name = true -> Str.forallb Chars.is_word name = true ->
  Re.parse_body Re.bodies (body ++ String ")" rest)%string = Some (b, rest) ->
  Re.parse (S fuel) seen
           (String "(" (String "?" (String "P" (String "<"
              (name ++ String ">" (body ++ String ")" rest))))))%string
  = if bool_decide (name ∈ seen)
    then Re.CompileError (re_error "redefinition of group name")
    else Re.cons_atom (Re.Group name b) (Re.parse fuel (name :: seen) rest).
Proof.
  intros Hid Hname Hbody.
  cbn [Re.parse]. 
  change (Chars.is_meta "(") with true. cbn [negb].
  cbn [Str.strip_prefix Ascii.eqb Bool.eqb].
  rewrite (span_app_stop _ name (String ">" (body ++ String ")" rest))%string);
    [|by apply (forallb_impl Chars.is_word), Hname; apply word_not_gt|done].
  rewrite Hid. cbn [negb]. by rewrite Hbody.
Qed.

Lemma length_group_end (name body : string) :
  exists f, String.length (group_text name body ++ "$")%string = S (S f).
Proof. unfold group_text. rewrite !app_String. cbn [String.length]. by eexists. Qed.

Lemma parse_end (fuel : nat) (seen : list string) :
  Re.parse (S fuel) seen "$" = Re.Compiled [].
Proof. reflexivity. Qed.

(** The compiled pattern of a literal text followed by one group. *)
Lemma compile_one_group (pre name ty : string) :
  Str.plain pre = true -> is_name name = true ->
  Re.compile ("^" ++ (pre ++ group_text name (Compile.type_map_get ty)) ++ "$")%string
  = Re.Compiled (Re.lits pre ++ [Re.Group name (group_body ty)]).
Proof.
  intros Hp Hname. apply is_name_spec in Hname as (Hid & Hne & Hword).
  change ("^" ++ (pre ++ group_text name (Compile.type_map_get ty)) ++ "$")%string
    with (String "^" ((pre ++ group_text name (Compile.type_map_get ty)) ++ "$"))%string.
  cbn [Re.compile]. rewrite app_assoc_string, length_app_string.
  rewrite (parse_plain pre _ _ _ Hp).
  destruct (length_group_end name (Compile.type_map_get ty)) as [f ->].
  unfold group_text.
  repeat (rewrite app_String || rewrite app_assoc_string).
  change ("" ++ "$")%string with "$".
  rewrite (parse_group (S f) [] name _ "$" (group_body ty) Hid Hword (parse_body_type ty "$")).
  rewrite bool_decide_eq_false_2 by apply not_elem_of_nil.
  rewrite parse_end. cbn [Re.cons_atom]. by rewrite cons_atoms_compiled.
Qed.

Lemma compile_typed (pre name ty : string) :
  Str.plain pre = true -> is_name name = true -> is_type_tag ty = true ->
  Compile._compile_pattern (pre ++ "{" ++ name ++ ":" ++ ty ++ "}")%string
  = (Re.Compiled (Re.lits pre ++ [Re.Group name (group_body ty)]),
     <[name := ty]> ∅).
Proof.
  intros Hp Hname Hty.
  pose proof (is_name_spec name Hname) as (Hid & Hne & Hword).
  change (pre ++ "{" ++ name ++ ":" ++ ty ++ "}")%string
    with (pre ++ String "{" (name ++ String ":" (ty ++ "}")))%string.
  unfold Compile._compile_pattern, Compile.regex_of.
  rewrite (finditer_typed_one pre name ty Hp Hne Hword Hty).
  cbn [fold_left Compile.typed_step].
  change ("{" ++ name ++ ":" ++ ty ++ "}")%string
    with (String "{" (name ++ String ":" (ty ++ "}")))%string.
  change ("(?P<" ++ name ++ ">" ++ Compile.type_map_get ty ++ ")")%string
    with (group_text name (Compile.type_map_get ty)).
  rewrite (replace_no_brace _ _ pre _ (plain_no_brace _ Hp)).
  rewrite replace_exact.
  rewrite (finditer_basic_group pre name _ Hp Hword (type_map_no_brace ty)).
  cbn [fold_left]. by rewrite (compile_one_group pre name ty Hp Hname).
Qed.

Lemma compile_untyped (pre name : string) :
  Str.plain pre = true -> is_name name = true ->
  Compile._compile_pattern (pre ++ "{" ++ name ++ "}")%string
  = (Re.Compiled (Re.lits pre ++ [Re.Group name Re.body_str]), ∅).
Proof.
  intros Hp Hname.
  pose proof (is_name_spec name Hname) as (Hid & Hne & Hword).
  change (pre ++ "{" ++ name ++ "}")%string
    with (pre ++ String "{" (name ++ "}"))%string.
  unfold Compile._compile_pattern, Compile.regex_of.
  rewrite (finditer_typed_none pre name Hp Hword).
  cbn [fold_left].
  rewrite (finditer_basic_one pre name Hp Hne Hword).
  cbn [fold_left]. unfold Compile.basic_step.
  change ("{" ++ name ++ "}")%string with (String "{" (name ++ "}"))%string.
  change ("(?P<" ++ name ++ ">[^/]+)")%string
    with (group_text name (Compile.type_map_get "str")).
  rewrite (replace_no_brace _ _ pre _ (plain_no_brace _ Hp)).
  rewrite replace_exact.
  by rewrite (compile_one_group pre name "str" Hp Hname).
Qed.
End TemplateFacts.

(* --------------------------------------------------------------------- *)
(** ** Placeholders: what a compiled route accepts *)
(* --------------------------------------------------------------------- *)

Section PlaceholderFacts.

(** A greedy run in front of [$]: the longest run is tried first, and when
    the end of the subject does not follow it, it follows no shorter run
    either. *)
Lemma star_last {A : Type} (p : ascii -> bool) (F : string -> A) (s acc : string) :
  Re.star p s acc (fun acc' rest => if Re.at_end rest then Some (F acc') else None) =
  let '(ds, rest) := Str.span p s in
  if Re.at_end rest then Some (F (Str.rev_onto acc ds)) else None.
Proof.
  revert acc. induction s as [|c s IH]; intros acc; simpl; [done|].
  destruct (p c) eqn:Hc; [|done].
  rewrite IH. destruct s as [|d s]; [done|].
  destruct (Str.span p (String d s)) as [ds rest].
  by destruct (Re.at_end rest).
Qed.

(** A last group made of one class under [+]. *)
Lemma m_atoms_plus_last (name : string) (k : Re.cclass) (s : string) caps :
  Re.m_atoms [Re.Group name [Re.Plus k]] s caps =
  let '(ds, rest) := Str.span (Re.test k) s in
  if negb (Str.is_empty ds) && Re.at_end rest
  then Some (List.rev ((name, ds) :: caps)) else None.
Proof.
  cbn [Re.m_atoms Re.m_items].
  destruct s as [|c s]; [done|].
  cbn [Str.span]. destruct (Re.test k c) eqn:Hc; [|done].
  rewrite (star_last (Re.test k)
             (fun acc' => List.rev ((name, Str.rev acc') :: caps))).
  destruct (Str.span (Re.test k) s) as [ds rest].
  cbn [Str.is_empty negb andb].
  destruct (Re.at_end rest); [|done].
  do 4 f_equal.
  change (Str.rev (Str.rev_onto EmptyString (String c ds)) = String c ds).
  apply rev_rev.
Qed.

(** What a pattern made of a literal text and a last group of one class
    under [+] captures: the text, then the longest run of the class, which
    is not empty, up to the end of the subject. *)
Lemma plus_pattern_captures (pre name : string) (k : Re.cclass) (path : string)
      (caps : list (string * string)) :
  Re.match_groupdict (Re.lits pre ++ [Re.Group name [Re.Plus k]]) path = Some caps <->
  exists seg tail,
    seg <> EmptyString /\ Str.forallb (Re.test k) seg = true
    /\ match tail with EmptyString => True | String c _ => Re.test k c = false end
    /\ Re.at_end tail = true
    /\ path = (pre ++ seg ++ tail)%string /\ caps = [(name, seg)].
Proof.
  unfold Re.match_groupdict. rewrite m_atoms_lits. split.
  - destruct (Str.strip_prefix pre path) as [rest|] eqn:Hpre; [|done].
    apply strip_prefix_Some in Hpre as ->.
    rewrite m_atoms_plus_last.
    pose proof (span_spec (Re.test k) rest) as Hspan.
    destruct (Str.span (Re.test k) rest) as [ds tail].
    destruct Hspan as (-> & Hds & Htail).
    destruct (Str.is_empty ds) eqn:Hne; [done|]. cbn [negb andb].
    destruct (Re.at_end tail) eqn:Hend; [|done].
    intros [= <-]. exists ds, tail. repeat split; try done. by destruct ds.
  - intros (seg & tail & Hne & Hseg & Htail & Hend & -> & ->).
    rewrite (proj2 (strip_prefix_Some pre _ (seg ++ tail)%string)) by done.
    rewrite m_atoms_plus_last, (span_app_stop _ seg tail Hseg Htail), Hend.
    by destruct seg.
Qed.

Lemma newline_not_slash : Chars.not_slash (ascii_of_nat 10) = true.
Proof. reflexivity. Qed.

(** After a run of [[^/]] the end of the subject is its very end: a newline
    belongs to the run. *)
Lemma not_slash_tail (tail : string) :
  match tail with EmptyString => True | String c _ => Chars.not_slash c = false end ->
  Re.at_end tail = true -> tail = EmptyString.
Proof.
  intros Htail Hend. apply at_end_cases in Hend as [-> | ->]; [done|].
  unfold Str.newline in Htail. by rewrite newline_not_slash in Htail.
Qed.

Lemma segment_pattern_captures (pre name path : string) (caps : list (string * string)) :
  Re.match_groupdict (Re.lits pre ++ [Re.Group name Re.body_str]) path = Some caps <->
  exists seg,
    seg <> EmptyString /\ Str.forallb Chars.not_slash seg = true
    /\ path = (pre ++ seg)%string /\ caps = [(name, seg)].
Proof.
  unfold Re.body_str. rewrite plus_pattern_captures. split.
  - intros (seg & tail & Hne & Hseg & Htail & Hend & -> & ->).
    rewrite (not_slash_tail tail Htail Hend), append_empty_r. by exists seg.
  - intros (seg & Hne & Hseg & -> & ->). exists seg, EmptyString.
    by rewrite append_empty_r.
Qed.

Lemma hex_not_newline (c : ascii) :
  Chars.is_hex_hyphen c = true -> (Chars.code c =? 10)%nat = false.
Proof. intros H. destruct c as [[] [] [] [] [] [] [] []]; first [reflexivity | (vm_compute in H; discriminate H)]. Qed.

Lemma hex_pattern_captures (pre name path : string) (caps : list (string * string)) :
  Re.match_groupdict (Re.lits pre ++ [Re.Group name Re.body_uuid]) path = Some caps <->
  exists seg,
    seg <> EmptyString /\ Str.forallb Chars.is_hex_hyphen seg = true
    /\ (path = (pre ++ seg)%string \/ path = (pre ++ seg ++ Str.newline)%string)
    /\ caps = [(name, seg)].
Proof.
  unfold Re.body_uuid. rewrite plus_pattern_captures. split.
  - intros (seg & tail & Hne & Hseg & Htail & Hend & -> & ->).
    exists seg. repeat split; try done.
    apply at_end_cases in Hend as [-> | ->]; [left|by right].
    by rewrite append_empty_r.
  - intros (seg & Hne & Hseg & Hpath & ->).
    destruct Hpath as [-> | ->].
    + exists seg, EmptyString. by rewrite append_empty_r.
    + exists seg, Str.newline. repeat split; done.
Qed.

End PlaceholderFacts.

Section PlaceholderRoutes.
Context {H : Type}.

(** The parameters of a match, from the captures. *)
Lemma Route_match_captures (r : Route H) (path method : string)
      (ps : list (string * pyval)) :
  method ∈ methods r ->
  Route_match r path method = Some ps <->
  exists caps, Re.match_groupdict (pattern r) path = Some caps
               /\ ps = map (convert (param_types r)) caps.
Proof.
  intros Hm. unfold Route_match. rewrite bool_decide_eq_true_2 by done. cbn [negb].
  destruct (Re.match_groupdict (pattern r) path) as [caps|].
  - split; [intros [= <-]; by exists caps|]. by intros (caps' & [= <-] & ->).
  - split; [done|]. by intros (caps' & ? & _).
Qed.

Lemma convert_undeclared (name value : string) :
  convert ∅ (name, value) = (name, PStr value).
Proof. unfold convert. by rewrite lookup_empty. Qed.

Lemma convert_declared (name ty value : string) :
  convert (<[name := ty]> ∅) (name, value) =
  (name,
   if String.eqb ty "int"
   then match Conv.py_int value with Some z => PInt z | None => PStr value end
   else if String.eqb ty "float"
   then match Conv.py_float value with Some x => PFloat x | None => PStr value end
   else if String.eqb ty "bool"
   then PBool (bool_decide (Str.lower value ∈ ["true"; "1"; "yes"]))
   else PStr value).
Proof.
  unfold convert. rewrite lookup_insert_eq.
  by repeat match goal with |- context [String.eqb ?a ?b] => destruct (String.eqb a b) end.
Qed.

(** X4.  A template made of a literal text followed by the untyped
    placeholder [{name}] compiles, and the route accepts exactly the text
    followed by a segment that is not empty and holds no slash; the segment
    is passed on as a string.  A newline in the segment, a last one
    included, belongs to it. *)
Theorem untyped_placeholder_segment (pre name : string) (ms : list string)
        (h : H) (cfg : option RouteConfig) :
  Str.plain pre = true -> is_name name = true ->
  exists r,
    Route_init (pre ++ "{" ++ name ++ "}")%string ms h cfg = Built r
    /\ forall path method ps,
         method ∈ ms ->
         Route_match r path method = Some ps <->
         exists seg,
           seg <> EmptyString /\ Str.forallb Chars.not_slash seg = true
           /\ path = (pre ++ seg)%string /\ ps = [(name, PStr seg)].
Proof.
  intros Hp Hname. unfold Route_init. rewrite (compile_untyped pre name Hp Hname).
  eexists. split; [reflexivity|].
  intros path method ps Hm.
  rewrite Route_match_captures by done. cbn [pattern param_types].
  split.
  - intros (caps & Hcaps & ->).
    apply segment_pattern_captures in Hcaps as (seg & Hne & Hseg & -> & ->).
    exists seg. cbn [map]. by rewrite convert_undeclared.
  - intros (seg & Hne & Hseg & -> & ->). exists [(name, seg)]. split.
    + apply segment_pattern_captures. by exists seg.
    + cbn [map]. by rewrite convert_undeclared.
Qed.

(** X5.  A typed placeholder whose type is none of [int], [float] and
    [uuid] is no error: whether the type is [str], [bool] or a misspelling,
    the route accepts the literal text followed by any segment that is not
    empty and holds no slash.  The segment stays a string, except that
    [bool] gives the boolean of C9. *)
Theorem unknown_type_is_segment (pre name ty : string) (ms : list string)
        (h : H) (cfg : option RouteConfig) :
  Str.plain pre = true -> is_name name = true -> is_type_tag ty = true ->
  ty ∉ ["int"; "float"; "uuid"] ->
  exists r,
    Route_init (pre ++ "{" ++ name ++ ":" ++ ty ++ "}")%string ms h cfg = Built r
    /\ forall path method ps,
         method ∈ ms ->
         Route_match r path method = Some ps <->
         exists seg,
           seg <> EmptyString /\ Str.forallb Chars.not_slash seg = true
           /\ path = (pre ++ seg)%string
           /\ ps = [(name,
                     if String.eqb ty "bool"
                     then PBool (bool_decide (Str.lower seg ∈ ["true"; "1"; "yes"]))
                     else PStr seg)].
Proof.
  intros Hp Hname Hty Hnot. unfold Route_init.
  rewrite (compile_typed pre name ty Hp Hname Hty).
  assert (Hint : String.eqb ty "int" = false).
  { apply String.eqb_neq. intros ->. apply Hnot. set_solver. }
  assert (Hfloat : String.eqb ty "float" = false).
  { apply String.eqb_neq. intros ->. apply Hnot. set_solver. }
  assert (Huuid : String.eqb ty "uuid" = false).
  { apply String.eqb_neq. intros ->. apply Hnot. set_solver. }
  assert (Hbody : group_body ty = Re.body_str).
  { unfold group_body. by rewrite Hint, Hfloat, Huuid. }
  rewrite Hbody.
  eexists. split; [reflexivity|].
  intros path method ps Hm.
  rewrite Route_match_captures by done. cbn [pattern param_types].
  assert (Hconv : forall seg,
             map (convert (<[name := ty]> ∅)) [(name, seg)]
             = [(name,
                 if String.eqb ty "bool"
                 then PBool (bool_decide (Str.lower seg ∈ ["true"; "1"; "yes"]))
                 else PStr seg)]).
  { intros seg. cbn [map]. by rewrite convert_declared, Hint, Hfloat. }
  split.
  - intros (caps & Hcaps & ->).
    apply segment_pattern_captures in Hcaps as (seg & Hne & Hseg & -> & ->).
    exists seg. by rewrite Hconv.
  - intros (seg & Hne & Hseg & -> & ->). exists [(name, seg)]. split.
    + apply segment_pattern_captures. by exists seg.
    + by rewrite Hconv.
Qed.

(** X6.  A [uuid] placeholder checks the characters only: the route
    accepts the literal text followed by any run, not empty, of digits,
    the letters [a] to [f] and hyphens, optionally followed by one newline
    that ends the path, and passes the run on as a string. *)
Theorem uuid_placeholder_hex_run (pre name : string) (ms : list string)
        (h : H) (cfg : option RouteConfig) :
  Str.plain pre = true -> is_name name = true ->
  exists r,
    Route_init (pre ++ "{" ++ name ++ ":uuid}")%string ms h cfg = Built r
    /\ forall path method ps,
         method ∈ ms ->
         Route_match r path method = Some ps <->
         exists seg,
           seg <> EmptyString /\ Str.forallb Chars.is_hex_hyphen seg = true
           /\ (path = (pre ++ seg)%string \/ path = (pre ++ seg ++ Str.newline)%string)
           /\ ps = [(name, PStr seg)].
Proof.
  intros Hp Hname. unfold Route_init.
  change (pre ++ "{" ++ name ++ ":uuid}")%string
    with (pre ++ "{" ++ name ++ ":" ++ "uuid" ++ "}")%string.
  rewrite (compile_typed pre name "uuid" Hp Hname eq_refl).
  change (group_body "uuid") with Re.body_uuid.
  eexists. split; [reflexivity|].
  intros path method ps Hm.
  rewrite Route_match_captures by done. cbn [pattern param_types].
  assert (Hconv : forall seg,
             map (convert (<[name := "uuid"]> ∅)) [(name, seg)] = [(name, PStr seg)]).
  { intros seg. cbn [map]. by rewrite convert_declared. }
  split.
  - intros (caps & Hcaps & ->).
    apply hex_pattern_captures in Hcaps as (seg & Hne & Hseg & Hpath & ->).
    exists seg. by rewrite Hconv.
  - intros (seg & Hne & Hseg & Hpath & ->). exists [(name, seg)]. split.
    + apply hex_pattern_captures. by exists seg.
    + by rewrite Hconv.
Qed.

End PlaceholderRoutes.

(* --------------------------------------------------------------------- *)
(** ** The float placeholder *)
(* --------------------------------------------------------------------- *)

Section FloatFacts.

Lemma dot_not_digit (c : ascii) : Chars.is_dot c = true -> Chars.is_digit c = false.
Proof. intros H. per_char c H. Qed.

Lemma dot_not_newline (c : ascii) : Chars.is_dot c = true -> (Chars.code c =? 10)%nat = false.
Proof. intros H. per_char c H. Qed.

Lemma dot_is_point (c : ascii) : Chars.is_dot c = true -> c = "."%char.
Proof.
  intros H. apply Nat.eqb_eq in H. rewrite <- (ascii_nat_embedding c).
  unfold Chars.code in H. by rewrite H.
Qed.

Lemma at_end_dot (c : ascii) (t : string) :
  Chars.is_dot c = true -> Re.at_end (String c t) = false.
Proof. intros H. destruct t; [|done]. by apply dot_not_newline. Qed.

(** The optional point and the digits after it, in front of [$]. *)
Lemma fraction_last {A : Type} (F : string -> A) (s acc : string) :
  Re.m_items [Re.Opt Re.Dot; Re.Star Re.Digit] s acc
             (fun acc' rest => if Re.at_end rest then Some (F acc') else None) =
  match s with
  | String c t =>
      if Chars.is_dot c
      then let '(fs, rest) := Str.span Chars.is_digit t in
           if Re.at_end rest then Some (F (Str.rev_onto (String c acc) fs)) else None
      else let '(fs, rest) := Str.span Chars.is_digit s in
           if Re.at_end rest then Some (F (Str.rev_onto acc fs)) else None
  | EmptyString => Some (F acc)
  end.
Proof.
  cbn [Re.m_items Re.test]. destruct s as [|c t]; [done|].
  destruct (Chars.is_dot c) eqn:Hc.
  - rewrite !star_last.
    destruct (Str.span Chars.is_digit t) as [fs rest].
    destruct (Re.at_end rest); [done|].
    cbn [Str.span]. rewrite (dot_not_digit c Hc). by rewrite (at_end_dot c t Hc).
  - by rewrite star_last.
Qed.

(** When the fraction fails after the longest run of digits, the end of the
    subject does not follow that run. *)
Lemma fraction_fails {A : Type} (F : string -> A) (rest acc : string) :
  match rest with EmptyString => True | String c _ => Chars.is_digit c = false end ->
  Re.m_items [Re.Opt Re.Dot; Re.Star Re.Digit] rest acc
             (fun acc' rest => if Re.at_end rest then Some (F acc') else None) = None ->
  Re.at_end rest = false.
Proof.
  intros Hrest. rewrite fraction_last. destruct rest as [|c t]; [done|].
  destruct (Chars.is_dot c) eqn:Hc.
  - intros _. by apply at_end_dot.
  - cbn [Str.span]. rewrite Hrest. by destruct (Re.at_end (String c t)).
Qed.

(** The digits in front of the fraction: the longest run is the only one
    after which the rest of the pattern can succeed. *)
Lemma digits_then_fraction {A : Type} (F : string -> A) (s acc : string) :
  Re.star Chars.is_digit s acc
          (fun acc' s' =>
             Re.m_items [Re.Opt Re.Dot; Re.Star Re.Digit] s' acc'
                        (fun acc'' rest => if Re.at_end rest then Some (F acc'') else None)) =
  let '(ds, rest) := Str.span Chars.is_digit s in
  Re.m_items [Re.Opt Re.Dot; Re.Star Re.Digit] rest (Str.rev_onto acc ds)
             (fun acc'' rest => if Re.at_end rest then Some (F acc'') else None).
Proof.
  revert acc. induction s as [|c s IH]; intros acc; [done|].
  cbn [Re.star Str.span]. destruct (Chars.is_digit c) eqn:Hc; [|done].
  rewrite IH. pose proof (span_spec Chars.is_digit s) as Hspan.
  destruct (Str.span Chars.is_digit s) as [ds rest] eqn:Hs.
  destruct Hspan as (_ & _ & Hrest). cbn [Str.rev_onto].
  destruct (Re.m_items _ rest _ _) eqn:Hfrac; [done|].
  apply fraction_fails in Hfrac; [|done].
  rewrite fraction_last.
  assert (Hnd : Chars.is_dot c = false).
  { destruct (Chars.is_dot c) eqn:Hd; [|done]. by rewrite (dot_not_digit c Hd) in Hc. }
  rewrite Hnd. cbn [Str.span]. by rewrite Hc, Hs, Hfrac.
Qed.

(** A last group [\d+\.?\d*]. *)
Lemma m_atoms_float_last (name : string) (s : string) caps :
  Re.m_atoms [Re.Group name Re.body_float] s caps =
  let '(ds, rest) := Str.span Chars.is_digit s in
  if Str.is_empty ds then None else
  match rest with
  | String c t =>
      if Chars.is_dot c
      then let '(fs, tail) := Str.span Chars.is_digit t in
           if Re.at_end tail
           then Some (List.rev ((name, (ds ++ String c fs)%string) :: caps)) else None
      else if Re.at_end rest then Some (List.rev ((name, ds) :: caps)) else None
  | EmptyString => Some (List.rev ((name, ds) :: caps))
  end.
Proof.
  cbn [Re.m_atoms]. unfold Re.body_float.
  destruct s as [|x s]; [done|].
  change (Re.m_items (Re.Plus Re.Digit :: ?r) (String x s) ?acc ?k)
    with (if Chars.is_digit x
          then Re.star Chars.is_digit s (String x acc)
                       (fun acc' s'' => Re.m_items r s'' acc' k)
          else None).
  cbn [Str.span].
  destruct (Chars.is_digit x) eqn:Hx; [|done].
  rewrite (digits_then_fraction (fun acc' => List.rev ((name, Str.rev acc') :: caps))).
  pose proof (span_spec Chars.is_digit s) as Hspan.
  destruct (Str.span Chars.is_digit s) as [ds rest].
  destruct Hspan as (_ & _ & Hrest).
  cbn [Str.is_empty]. rewrite fraction_last.
  assert (Hrev : forall t, Str.rev (Str.rev_onto (Str.rev_onto (String x "") ds) t)
                           = (String x ds ++ t)%string).
  { intros t. rewrite <- (rev_rev (String x ds ++ t)%string). f_equal.
    unfold Str.rev. 
    change (Str.rev_onto (String x "") ds) with (Str.rev_onto "" (String x ds)).
    generalize (String x ds). intros a. generalize "". 
    induction a as [|y a IH]; intros b; [done|].
    rewrite app_String. cbn [Str.rev_onto]. apply IH. }
  destruct rest as [|c t].
  - do 4 f_equal. rewrite <- (append_empty_r (String x ds)). apply (Hrev "").
  - destruct (Chars.is_dot c) eqn:Hc.
    + destruct (Str.span Chars.is_digit t) as [fs tail].
      destruct (Re.at_end tail); [|done]. do 4 f_equal.
      change (Str.rev_onto (String c (Str.rev_onto (String x "") ds)) fs)
        with (Str.rev_onto (Str.rev_onto (String x "") ds) (String c fs)).
      apply Hrev.
    + cbn [Str.span]. rewrite Hrest.
      destruct (Re.at_end (String c t)); [|done]. do 4 f_equal.
      rewrite <- (append_empty_r (String x ds)). apply (Hrev "").
Qed.


Lemma all_digits_value_decimal (s : string) (acc : Z) :
  Str.forallb Chars.is_digit s = true ->
  Conv.all_digits_value acc s = Some (Conv.decimal_from acc s).
Proof.
  revert acc. induction s as [|c s IH]; intros acc; simpl; [done|].
  intros H. apply andb_true_iff in H as [Hc Hs]. rewrite Hc. by apply IH.
Qed.

Lemma forallb_app (p : ascii -> bool) (a b : string) :
  Str.forallb p (a ++ b)%string = Str.forallb p a && Str.forallb p b.
Proof.
  induction a as [|c a IH]; [done|].
  rewrite app_String. simpl. rewrite IH. by destruct (p c).
Qed.

(** [float] on digits, and on digits, a point and digits. *)
Lemma py_float_digits (ds : string) :
  ds <> EmptyString -> Str.forallb Chars.is_digit ds = true ->
  Conv.py_float ds = Some (Conv.binary64 (Conv.decimal ds) O).
Proof.
  intros Hne Hds. unfold Conv.py_float.
  rewrite <- (append_empty_r ds) at 1.
  rewrite (span_app_stop _ ds "" Hds I).
  destruct ds as [|c ds]; [done|]. cbn [Str.is_empty].
  by rewrite (all_digits_value_decimal _ _ Hds).
Qed.

Lemma py_float_point (ds fs : string) :
  ds <> EmptyString -> Str.forallb Chars.is_digit ds = true ->
  Str.forallb Chars.is_digit fs = true ->
  Conv.py_float (ds ++ String "." fs)%string
  = Some (Conv.binary64 (Conv.decimal (ds ++ fs)%string) (String.length fs)).
Proof.
  intros Hne Hds Hfs. unfold Conv.py_float.
  rewrite (span_app_stop _ ds (String "." fs) Hds eq_refl).
  destruct ds as [|c ds]; [done|]. cbn [Str.is_empty].
  rewrite all_digits_value_decimal; [done|].
  by rewrite forallb_app, Hds, Hfs.
Qed.

Lemma float_pattern_captures (pre name path : string) (caps : list (string * string)) :
  Re.match_groupdict (Re.lits pre ++ [Re.Group name Re.body_float]) path = Some caps <->
  exists ds fs text,
    ds <> EmptyString /\ Str.forallb Chars.is_digit ds = true
    /\ Str.forallb Chars.is_digit fs = true
    /\ (text = ds /\ fs = EmptyString \/ text = (ds ++ String "." fs)%string)
    /\ (path = (pre ++ text)%string \/ path = (pre ++ text ++ Str.newline)%string)
    /\ caps = [(name, text)].
Proof.
  unfold Re.match_groupdict. rewrite m_atoms_lits. split.
  - destruct (Str.strip_prefix pre path) as [rest|] eqn:Hpre; [|done].
    apply strip_prefix_Some in Hpre as ->.
    rewrite m_atoms_float_last.
    pose proof (span_spec Chars.is_digit rest) as Hspan.
    destruct (Str.span Chars.is_digit rest) as [ds r1].
    destruct Hspan as (-> & Hds & Hr1).
    destruct (Str.is_empty ds) eqn:Hne; [done|].
    assert (Hds' : ds <> EmptyString) by (by destruct ds).
    destruct r1 as [|c t].
    + intros [= <-]. exists ds, "", ds. rewrite append_empty_r.
      repeat split; try done; by left.
    + destruct (Chars.is_dot c) eqn:Hc.
      * apply dot_is_point in Hc as ->.
        pose proof (span_spec Chars.is_digit t) as Hspan.
        destruct (Str.span Chars.is_digit t) as [fs tail].
        destruct Hspan as (-> & Hfs & _).
        destruct (Re.at_end tail) eqn:Hend; [|done].
        intros [= <-]. exists ds, fs, (ds ++ String "." fs)%string.
        repeat split; try done; [by right|].
        apply at_end_cases in Hend as [-> | ->].
        -- left. by rewrite append_empty_r.
        -- right. by rewrite app_assoc_string, app_String.
      * destruct (Re.at_end (String c t)) eqn:Hend; [|done].
        intros [= <-]. exists ds, "", ds. repeat split; try done; [by left|].
        apply at_end_cases in Hend as [Hend | ->]; [done|by right].
  - intros (ds & fs & text & Hne & Hds & Hfs & Htext & Hpath & ->).
    assert (exists tail, path = (pre ++ text ++ tail)%string
                         /\ Re.at_end tail = true
                         /\ (tail = EmptyString \/ tail = Str.newline))
      as (tail & -> & Hend & Htail).
    { destruct Hpath as [-> | ->].
      - exists EmptyString. rewrite append_empty_r. repeat split; by left.
      - exists Str.newline. repeat split; by right. }
    rewrite (proj2 (strip_prefix_Some pre _ (text ++ tail)%string)) by done.
    rewrite m_atoms_float_last.
    assert (Hd : match tail with
                 | EmptyString => True
                 | String c _ => Chars.is_digit c = false
                 end) by (by destruct Htail as [-> | ->]).
    destruct ds as [|x ds]; [done|].
    destruct Htext as [[-> ->] | ->].
    + rewrite (span_app_stop _ (String x ds) tail Hds Hd). cbn [Str.is_empty].
      destruct Htail as [-> | ->]; done.
    + rewrite app_assoc_string, (app_String "." fs tail).
      rewrite (span_app_stop _ (String x ds) (String "." (fs ++ tail)) Hds eq_refl).
      cbn [Str.is_empty]. change (Chars.is_dot ".") with true. cbn iota.
      by rewrite (span_app_stop _ fs tail Hfs Hd), Hend.
Qed.

End FloatFacts.

Section FloatRoute.
Context {H : Type}.

(** X7.  A [float] placeholder accepts the literal text followed by
    digits, or digits, a point and digits of which there may be none,
    optionally followed by one newline that ends the path.  The captured
    numeral always converts: the parameter is the double nearest to the
    number written, the one with an even significand when two are equally
    near; it is infinity for a number beyond the range of doubles and zero
    for one below it. *)
Theorem float_placeholder_numeral (pre name : string) (ms : list string)
        (h : H) (cfg : option RouteConfig) :
  Str.plain pre = true -> is_name name = true ->
  exists r,
    Route_init (pre ++ "{" ++ name ++ ":float}")%string ms h cfg = Built r
    /\ forall path method ps,
         method ∈ ms ->
         Route_match r path method = Some ps <->
         exists ds fs text,
           ds <> EmptyString /\ Str.forallb Chars.is_digit ds = true
           /\ Str.forallb Chars.is_digit fs = true
           /\ (text = ds /\ fs = EmptyString \/ text = (ds ++ String "." fs)%string)
           /\ (path = (pre ++ text)%string \/ path = (pre ++ text ++ Str.newline)%string)
           /\ ps = [(name, PFloat (Conv.binary64 (Conv.decimal (ds ++ fs)%string)
                                                 (String.length fs)))].
Proof.
  intros Hp Hname. unfold Route_init.
  change (pre ++ "{" ++ name ++ ":float}")%string
    with (pre ++ "{" ++ name ++ ":" ++ "float" ++ "}")%string.
  rewrite (compile_typed pre name "float" Hp Hname eq_refl).
  change (group_body "float") with Re.body_float.
  eexists. split; [reflexivity|].
  intros path method ps Hm.
  rewrite Route_match_captures by done. cbn [pattern param_types].
  assert (Hconv : forall ds fs text,
             ds <> EmptyString -> Str.forallb Chars.is_digit ds = true ->
             Str.forallb Chars.is_digit fs = true ->
             (text = ds /\ fs = EmptyString \/ text = (ds ++ String "." fs)%string) ->
             map (convert (<[name := "float"]> ∅)) [(name, text)]
             = [(name, PFloat (Conv.binary64 (Conv.decimal (ds ++ fs)%string)
                                             (String.length fs)))]).
  { intros ds fs text Hne Hds Hfs Htext. cbn [map]. rewrite convert_declared.
    change (String.eqb "float" "int") with false.
    change (String.eqb "float" "float") with true. cbn iota.
    destruct Htext as [[-> ->] | ->].
    - by rewrite (py_float_digits ds Hne Hds), append_empty_r.
    - by rewrite (py_float_point ds fs Hne Hds Hfs). }
  split.
  - intros (caps & Hcaps & ->).
    apply float_pattern_captures in Hcaps
      as (ds & fs & text & Hne & Hds & Hfs & Htext & Hpath & ->).
    exists ds, fs, text. by rewrite (Hconv ds fs text).
  - intros (ds & fs & text & Hne & Hds & Hfs & Htext & Hpath & ->).
    exists [(name, text)]. split.
    + apply float_pattern_captures. by exists ds, fs, text.
    + by rewrite (Hconv ds fs text).
Qed.

End FloatRoute.

(* --------------------------------------------------------------------- *)
(** ** The extended fixtures *)
(* --------------------------------------------------------------------- *)

Section MoreFixtures.

Lemma two_routes_reachable : reachable Fixture.two_routes.
Proof.
  apply (reach_add (Fixture.or_else Router_init
                      (add_route Router_init "/a/{x}" ["GET"] 1%nat []))
                   "/a/fixed" ["GET"] 2%nat []); [|reflexivity].
  apply (reach_add Router_init "/a/{x}" ["GET"] 1%nat []); [apply reach_init|reflexivity].
Qed.

(** After a lookup of [/a/fixed] has filled the cache, the cached answer is
    the one a scan gives. *)
Lemma find_route_is_scan_witness :
  (find_route (find_route Fixture.two_routes "/a/fixed" "GET").2 "/a/fixed" "GET").1
  = Some (1%nat, [("x", PStr "fixed")], Fixture.default_config).
Proof.
  rewrite (find_route_is_scan (find_route Fixture.two_routes "/a/fixed" "GET").2
                              "/a/fixed" "GET").
  - reflexivity.
  - apply reach_find, two_routes_reachable.
Defined.

(** Registering [/b/{y}] on the two routes: [/a/fixed] still goes to the
    first route, and [/b/7], which matched nothing, goes to the new one. *)
Lemma add_route_keeps_resolutions_witness :
  exists r',
    add_route Fixture.two_routes "/b/{y}" ["GET"] 3%nat [] = Built r'
    /\ (find_route r' "/a/fixed" "GET").1
       = Some (1%nat, [("x", PStr "fixed")], Fixture.default_config)
    /\ (find_route r' "/b/7" "GET").1
       = Some (3%nat, [("y", PStr "7")], Fixture.default_config).
Proof.
  eexists. split; [reflexivity|]. split.
  - destruct (add_route_keeps_resolutions Fixture.two_routes "/b/{y}" ["GET"] 3%nat [] _
                "/a/fixed" "GET" two_routes_reachable eq_refl) as (route & _ & ->).
    reflexivity.
  - destruct (add_route_keeps_resolutions Fixture.two_routes "/b/{y}" ["GET"] 3%nat [] _
                "/b/7" "GET" two_routes_reachable eq_refl) as (route & Hr & ->).
    apply app_inj_1 in Hr as [_ [= <-]]; [|done]. reflexivity.
Defined.

Lemma untyped_placeholder_segment_witness :
  exists r : Route nat,
    Route_init "/users/{name}" ["GET"] 1%nat None = Built r
    /\ Route_match r "/users/ann" "GET" = Some [("name", PStr "ann")]
    /\ Route_match r "/users/ann/files" "GET" = None.
Proof.
  destruct (untyped_placeholder_segment "/users/" "name" ["GET"] 1%nat None eq_refl eq_refl)
    as (r & Hr & Hiff).
  exists r. split; [exact Hr|]. split.
  - apply Hiff; [apply list_elem_of_here|]. by exists "ann".
  - destruct (Route_match r "/users/ann/files" "GET") as [ps|] eqn:Hm; [|done].
    apply Hiff in Hm as (seg & _ & Hseg & Hpath & _); [|apply list_elem_of_here].
    apply (f_equal (Str.strip_prefix "/users/")) in Hpath.
    rewrite strip_prefix_app in Hpath. vm_compute in Hpath.
    injection Hpath as <-. discriminate Hseg.
Defined.

(** A misspelt type is no error: [{id:integer}] takes any segment and keeps
    it as a string. *)
Lemma unknown_type_is_segment_witness :
  exists r : Route nat,
    Route_init "/items/{id:integer}" ["GET"] 1%nat None = Built r
    /\ Route_match r "/items/abc" "GET" = Some [("id", PStr "abc")].
Proof.
  destruct (unknown_type_is_segment "/items/" "id" "integer" ["GET"] 1%nat None
              eq_refl eq_refl eq_refl) as (r & Hr & Hiff).
  - intros Hin. repeat (apply elem_of_cons in Hin as [Hin | Hin]; [discriminate Hin|]).
    by apply elem_of_nil in Hin.
  - exists r. split; [exact Hr|].
    apply Hiff; [apply list_elem_of_here|]. by exists "abc".
Defined.

(** A uuid placeholder takes a lone hyphen. *)
Lemma uuid_placeholder_hex_run_witness :
  exists r : Route nat,
    Route_init "/o/{key:uuid}" ["GET"] 1%nat None = Built r
    /\ Route_match r "/o/-" "GET" = Some [("key", PStr "-")].
Proof.
  destruct (uuid_placeholder_hex_run "/o/" "key" ["GET"] 1%nat None eq_refl eq_refl)
    as (r & Hr & Hiff).
  exists r. split; [exact Hr|].
  apply Hiff; [apply list_elem_of_here|]. exists "-". repeat split; [done|by left].
Defined.

(** [12.50] is twelve and a half and [3.] is three; [9007199254740993],
    two to the power 53 plus one, is rounded to two to the power 53; a one
    followed by 400 zeros is infinity; a point followed by 400 zeros and a
    one is zero. *)
Lemma float_placeholder_numeral_witness :
  exists r : Route nat,
    Route_init "/p/{price:float}" ["GET"] 1%nat None = Built r
    /\ Route_match r "/p/12.50" "GET"
       = Some [("price", PFloat (SpecFloat.S754_finite false 7036874417766400 (-49)))]
    /\ Route_match r "/p/3." "GET"
       = Some [("price", PFloat (SpecFloat.S754_finite false 6755399441055744 (-51)))]
    /\ Route_match r "/p/9007199254740993" "GET"
       = Some [("price", PFloat (SpecFloat.S754_finite false 4503599627370496 1))]
    /\ Route_match r ("/p/1" ++ Str.replicate 400 "0") "GET"
       = Some [("price", PFloat (SpecFloat.S754_infinity false))]
    /\ Route_match r ("/p/0." ++ Str.replicate 400 "0" ++ "1") "GET"
       = Some [("price", PFloat (SpecFloat.S754_zero false))].
Proof.
  destruct (float_placeholder_numeral "/p/" "price" ["GET"] 1%nat None eq_refl eq_refl)
    as (r & Hr & Hiff).
  exists r. split; [exact Hr|].
  split; [|split; [|split; [|split]]].
  - apply Hiff; [apply list_elem_of_here|]. exists "12", "50", "12.50".
    split; [done|]. split; [done|]. split; [done|]. split; [by right|].
    split; [by left|]. vm_compute. reflexivity.
  - apply Hiff; [apply list_elem_of_here|]. exists "3", "", "3.".
    split; [done|]. split; [done|]. split; [done|]. split; [by right|].
    split; [by left|]. vm_compute. reflexivity.
  - apply Hiff; [apply list_elem_of_here|].
    exists "9007199254740993", "", "9007199254740993".
    split; [done|]. split; [done|]. split; [done|]. split; [by left|].
    split; [by left|]. vm_compute. reflexivity.
  - apply Hiff; [apply list_elem_of_here|].
    exists ("1" ++ Str.replicate 400 "0")%string, "", ("1" ++ Str.replicate 400 "0")%string.
    split; [done|]. split; [vm_compute; reflexivity|]. split; [done|].
    split; [by left|]. split; [by left|]. vm_compute. reflexivity.
  - apply Hiff; [apply list_elem_of_here|].
    exists "0", (Str.replicate 400 "0" ++ "1")%string,
           ("0." ++ Str.replicate 400 "0" ++ "1")%string.
    split; [done|]. split; [done|]. split; [vm_compute; reflexivity|].
    split; [by right|]. split; [by left|]. vm_compute. reflexivity.
Defined.

End MoreFixtures.

(* --------------------------------------------------------------------- *)
(** ** Exception handlers and the dispatcher *)
(* --------------------------------------------------------------------- *)

Section ResolutionFacts.
Context {W : Type}.
Variable http_exception_str : Z -> string -> string.
Implicit Types (hs : list (discriminator * exc_handler W)) (k : discriminator).

(** A class key that the failure is no instance of is passed over. *)
Lemma resolve_skip_classes hs rest exc (w : W) :
  Forall (fun kh => exists c, kh.1 = DClass c /\ c ∉ exc_mro exc) hs ->
  resolve http_exception_str (hs ++ rest) exc w = resolve http_exception_str rest exc w.
Proof.
  induction 1 as [|[k h] hs (c & Hk & Hc) _ IH]; [done|].
  simpl in Hk. subst k. cbn [app resolve isinstance is_type_of].
  rewrite bool_decide_eq_false_2 by done.
  assert ((c =? exc_type exc)%string = false) as ->; [|exact IH].
  apply String.eqb_neq. intros ->. apply Hc.
  destruct exc; apply list_elem_of_here.
Qed.

(** X8.  A handler registered under a status code is never invoked:
    resolving a failure gives the same outcome whatever handlers stand
    under the status codes.  When a status code is reached, because every
    key before it is a class the failure is no instance of, resolution
    raises [TypeError] instead of returning a response. *)
Theorem status_handlers_never_run exc (w : W) :
  (forall hs hs',
      Forall2 (fun kh kh' : discriminator * exc_handler W =>
                 kh.1 = kh'.1 /\ forall c, kh.1 = DClass c -> kh.2 = kh'.2) hs hs' ->
      resolve http_exception_str hs exc w = resolve http_exception_str hs' exc w)
  /\ (forall pre code h post,
        Forall (fun kh => exists c, kh.1 = DClass c /\ c ∉ exc_mro exc) pre ->
        exists msg,
          resolve http_exception_str (pre ++ (DStatus code, h) :: post) exc w
          = (w, Raise (TypeError msg))).
Proof.
  split.
  - intros hs hs' Hsame.
    induction Hsame as [|[k h] [k' h'] hs hs' [Hk Hh] _ IH]; [done|].
    simpl in Hk, Hh. subst k'. cbn [resolve].
    destruct k as [c|code]; cbn [isinstance is_type_of]; [|done].
    rewrite <- (Hh c eq_refl).
    by destruct (bool_decide (c ∈ exc_mro exc) || (c =? exc_type exc)%string).
  - intros pre code h post Hpre.
    rewrite (resolve_skip_classes pre _ exc w Hpre). by eexists.
Qed.

Lemma dict_set_keys hs k (h : exc_handler W) :
  map fst (dict_set hs k h)
  = if bool_decide (k ∈ map fst hs) then map fst hs else map fst hs ++ [k].
Proof.
  induction hs as [|[k' h'] hs IH]; [done|].
  cbn [dict_set map fst]. destruct (decide (k = k')) as [<- | Hne].
  - by rewrite bool_decide_eq_true_2 by apply list_elem_of_here.
  - cbn [map fst]. rewrite IH.
    destruct (bool_decide (k ∈ map fst hs)) eqn:Hin.
    + apply bool_decide_eq_true_1 in Hin.
      by rewrite bool_decide_eq_true_2 by (by apply list_elem_of_further).
    + apply bool_decide_eq_false_1 in Hin.
      rewrite bool_decide_eq_false_2; [done|].
      intros Hin'. apply elem_of_cons in Hin' as [? | ?]; done.
Qed.

Lemma handler_of_dict_set hs k (h : exc_handler W) k' :
  handler_of (dict_set hs k h) k' = if decide (k' = k) then Some h else handler_of hs k'.
Proof.
  induction hs as [|[k0 h0] hs IH].
  - cbn [dict_set handler_of]. by destruct (decide (k' = k)).
  - cbn [dict_set]. destruct (decide (k = k0)) as [<- | Hne].
    + cbn [handler_of]. by destruct (decide (k' = k)).
    + cbn [handler_of]. destruct (decide (k' = k0)) as [-> | Hne'].
      * by rewrite decide_False by done.
      * apply IH.
Qed.

Lemma register_all_snoc (app : FlashAPI W) regs kh :
  register_all app (regs ++ [kh]) = add_exception_handler (register_all app regs) kh.1 kh.2.
Proof. unfold register_all. by rewrite fold_left_app. Qed.

Lemma handler_of_register_all (app : FlashAPI W) regs k :
  handler_of (exception_handlers (register_all app regs)) k
  = match handler_of (rev regs) k with
    | Some h => Some h
    | None => handler_of (exception_handlers app) k
    end.
Proof.
  induction regs as [|[k0 h0] regs IH] using rev_ind; [done|].
  rewrite register_all_snoc, rev_app_distr. cbn [rev List.app handler_of].
  cbn [add_exception_handler exception_handlers fst snd].
  rewrite handler_of_dict_set. destruct (decide (k = k0)); [done|apply IH].
Qed.

Lemma register_all_frame (app : FlashAPI W) regs :
  router (register_all app regs) = router app
  /\ middleware (register_all app regs) = middleware app.
Proof.
  induction regs as [|[k0 h0] regs IH] using rev_ind; [done|].
  by rewrite register_all_snoc.
Qed.

(** The keys of the handlers keep the place of their first registration. *)
Lemma dict_set_prefix hs k (h : exc_handler W) :
  map fst hs `prefix_of` map fst (dict_set hs k h).
Proof.
  rewrite dict_set_keys. destruct (bool_decide (k ∈ map fst hs)); [done|].
  by apply prefix_app_r.
Qed.

Lemma register_all_prefix (app : FlashAPI W) regs :
  map fst (exception_handlers app)
  `prefix_of` map fst (exception_handlers (register_all app regs)).
Proof.
  induction regs as [|[k0 h0] regs IH] using rev_ind; [done|].
  rewrite register_all_snoc. etrans; [exact IH|]. apply dict_set_prefix.
Qed.

(** X9.  After any sequence of [add_exception_handler] calls the handler
    stored under a key is the one of the last registration for that key,
    and otherwise the one the application had; the keys the application had
    keep their places in front of those that are new, and the router and
    the middleware are untouched. *)
Theorem registration_round_trip (app : FlashAPI W) regs k :
  handler_of (exception_handlers (register_all app regs)) k
  = match handler_of (rev regs) k with
    | Some h => Some h
    | None => handler_of (exception_handlers app) k
    end
  /\ map fst (exception_handlers app)
     `prefix_of` map fst (exception_handlers (register_all app regs))
  /\ router (register_all app regs) = router app
  /\ middleware (register_all app regs) = middleware app.
Proof.
  split; [apply handler_of_register_all|].
  split; [apply register_all_prefix|apply register_all_frame].
Qed.

(** In a configured application the first two keys of the handlers are
    the class [HTTPException] and the status code 500. *)
Lemma configured_handlers_shape (app : FlashAPI W) :
  configured http_exception_str app ->
  exists h1 h2 rest,
    exception_handlers app = (DClass "HTTPException", h1) :: (DStatus 500, h2) :: rest.
Proof.
  induction 1 as [|app path methods h kwargs app' _ IH Hadd|app m _ IH
                  |app k h _ (h1 & h2 & rest & IH)].
  - rewrite default_handlers. by eexists _, _, _.
  - unfold FlashAPI_add_route in Hadd.
    destruct (add_route (router app) path methods h kwargs); [|done..].
    by injection Hadd as <-.
  - exact IH.
  - cbn [add_exception_handler exception_handlers]. rewrite IH. cbn [dict_set].
    destruct (decide (k = DClass "HTTPException")) as [-> | _]; [by eexists _, _, _|].
    destruct (decide (k = DStatus 500)) as [-> | _]; by eexists _, _, _.
Qed.

Lemma register_all_configured (app : FlashAPI W) regs :
  configured http_exception_str app -> configured http_exception_str (register_all app regs).
Proof.
  intros Happ. induction regs as [|[k h] regs IH] using rev_ind; [done|].
  rewrite register_all_snoc. by apply configured_handler.
Qed.

(** With those two keys in front, a failure that is no [HTTPException]
    stops at the key [500]. *)
Lemma resolve_stops_at_500 h1 h2 rest exc (w : W) :
  "HTTPException" ∉ exc_mro exc ->
  exists msg,
    resolve http_exception_str
            ((DClass "HTTPException", h1) :: (DStatus 500, h2) :: rest) exc w
    = (w, Raise (TypeError msg)).
Proof.
  intros Hnot.
  change ((DClass "HTTPException", h1) :: (DStatus 500, h2) :: rest)
    with ([(DClass "HTTPException", h1)] ++ (DStatus 500, h2) :: rest).
  rewrite resolve_skip_classes.
  - by eexists.
  - apply Forall_singleton. by exists "HTTPException".
Qed.

(** X10.  In every application built by [__init__] and configured with
    routes, middleware and exception handlers, resolving a failure that is
    no [HTTPException] raises [TypeError]: the key 500 comes second, before
    any handler the program registers, so no such handler and no default
    response is ever reached. *)
Theorem non_http_failure_escapes (app : FlashAPI W) exc (w : W) :
  configured http_exception_str app ->
  "HTTPException" ∉ exc_mro exc ->
  exists msg,
    _handle_exception http_exception_str app exc w = (w, Raise (TypeError msg)).
Proof.
  intros Happ Hnot.
  destruct (configured_handlers_shape app Happ) as (h1 & h2 & rest & Hhs).
  unfold _handle_exception. rewrite Hhs. by apply resolve_stops_at_500.
Qed.

(** X11.  In every such application an [HTTPException] is resolved by
    the handler stored under the key [HTTPException], whatever other
    handlers are registered, a handler for [Exception] included. *)
Theorem http_exception_resolution (app : FlashAPI W) :
  configured http_exception_str app ->
  exists h,
    handler_of (exception_handlers app) (DClass "HTTPException") = Some h
    /\ forall code detail (w : W),
         _handle_exception http_exception_str app (HTTPException code detail) w
         = h (HTTPException code detail) w.
Proof.
  intros Happ.
  destruct (configured_handlers_shape app Happ) as (h1 & h2 & rest & Hhs).
  exists h1. unfold _handle_exception. rewrite Hhs. split; [|done].
  cbn [handler_of]. by rewrite decide_True.
Qed.

End ResolutionFacts.

Section DispatchMore.
Context {W : Type}.
Variable http_exception_str : Z -> string -> string.
Implicit Types (s : dstate W) (app : FlashAPI W).

Lemma find_route_miss {H : Type} (r : Router H) path method :
  (find_route r path method).1 = None -> find_route r path method = (None, r).
Proof.
  unfold find_route. destruct (_route_cache r !! (path, method)); [done|].
  by destruct (scan (routes r) path method).
Qed.

(** X12.  When the pre-hooks return and no route matches the working
    request, and the built-in handler stands under the key [HTTPException],
    the [try] statement ends with a JSON response of status 404 whose body
    holds the message [Route <path> not found] under [error] and 404 under
    [status_code]; the handler registered under the key 404 plays no
    part. *)
Theorem unrouted_request_gets_404 app req (w : W) s1 rest :
  exception_handlers app = (DClass "HTTPException", _handle_http_exception) :: rest ->
  for_each (indexed (middleware app)) pre_hook (initial app req w) = (s1, Ok tt) ->
  (find_route (router app) (Request.path (request s1)) (Request.method (request s1))).1
  = None ->
  try_statement http_exception_str (initial app req w)
  = (s1,
     Ok (Response.json
           (PDict [(PStr "error",
                    PStr ("Route " ++ Request.path (request s1) ++ " not found"));
                   (PStr "status_code", PInt 404)]) 404)).
Proof.
  intros Hhs Hpre Hmiss.
  pose proof (pre_phase_run _ _ _ _ Hpre) as [Hself _]. cbn [initial self] in Hself.
  unfold try_statement, try_except, try_body.
  unfold bind at 1. unfold get at 1. unfold bind at 1.
  change (self (initial app req w)) with app. rewrite Hpre.
  unfold bind at 1. unfold get at 1. rewrite Hself, (find_route_miss _ _ _ Hmiss).
  destruct s1 as [[rt ms hs] w1 rq tr]. cbn [self] in Hself. subst app.
  cbn [exception_handlers] in Hhs. subst hs.
  reflexivity.
Qed.

(** *** The arguments of the handler *)

Lemma bind_parameter_name (req : Request.t) params (p : parameter) kv :
  bind_parameter req params p = Some kv -> kv.1 = param_name p.
Proof.
  unfold bind_parameter.
  destruct (assoc (param_name p) params); [by intros [= <-]|].
  destruct (String.eqb (param_name p) "request"); [by intros [= <-]|].
  by destruct (param_annotation p); intros [= <-].
Qed.

Lemma prepare_names (req : Request.t) params (sig : list parameter) :
  map fst (omap (bind_parameter req params) sig) `sublist_of` map param_name sig.
Proof.
  induction sig as [|p sig IH]; [done|]. cbn [omap list_omap map].
  destruct (bind_parameter req params p) as [kv|] eqn:Hb.
  - cbn [map]. rewrite (bind_parameter_name _ _ _ _ Hb). by apply sublist_skip.
  - by apply sublist_cons.
Qed.

Lemma bound_parameter_in (req : Request.t) params (sig : list parameter) (p : parameter) :
  p ∈ sig ->
  (is_Some (assoc (param_name p) params)
   \/ param_name p = "request" \/ param_annotation p = AnnRequest) ->
  param_name p ∈ map fst (omap (bind_parameter req params) sig).
Proof.
  intros Hp Hbound.
  assert (exists arg, bind_parameter req params p = Some (param_name p, arg))
    as [arg Harg].
  { unfold bind_parameter. destruct Hbound as [[v Hv] | [Hname | Hann]].
    - rewrite Hv. by eexists.
    - destruct (assoc (param_name p) params); [by eexists|].
      rewrite Hname. by eexists.
    - destruct (assoc (param_name p) params); [by eexists|].
      destruct (String.eqb (param_name p) "request"); [by eexists|].
      rewrite Hann. by eexists. }
  apply list_elem_of_In, in_map_iff. exists (param_name p, arg). split; [done|].
  apply list_elem_of_In, list_elem_of_omap. by exists p.
Qed.

(** X13.  The keyword arguments prepared for a handler name parameters
    of its signature only, in the order of the signature; an argument
    whose name is a path parameter is that path parameter, and every other
    argument is the request; a parameter that is a path parameter, is named
    [request] or is annotated with [Request] is always bound. *)
Theorem handler_args_follow_signature (req : Request.t) (h : Handler W)
        (params : list (string * pyval)) :
  map fst (_prepare_handler_args req h params) `sublist_of` map param_name (signature h)
  /\ (forall name arg,
        (name, arg) ∈ _prepare_handler_args req h params ->
        match assoc name params with
        | Some v => arg = ArgValue v
        | None => arg = ArgRequest req
        end)
  /\ (forall p,
        p ∈ signature h ->
        (is_Some (assoc (param_name p) params)
         \/ param_name p = "request" \/ param_annotation p = AnnRequest) ->
        param_name p ∈ map fst (_prepare_handler_args req h params)).
Proof.
  unfold _prepare_handler_args. split; [apply prepare_names|]. split.
  - intros name arg Hin. apply list_elem_of_omap in Hin as (p & _ & Hb).
    unfold bind_parameter in Hb.
    destruct (assoc (param_name p) params) as [v|] eqn:Hv.
    + injection Hb as <- <-. by rewrite Hv.
    + destruct (String.eqb (param_name p) "request").
      * injection Hb as <- <-. by rewrite Hv.
      * destruct (param_annotation p); [done| |done].
        injection Hb as <- <-. by rewrite Hv.
  - intros p. apply bound_parameter_in.
Qed.

(** X14.  A handler that is not a coroutine function and has a
    parameter that is bound (a path parameter, one named [request] or one
    annotated with [Request]) is never run: the call through
    [run_in_executor] raises [TypeError] and the world is as it was. *)
Theorem sync_handler_with_arguments (req : Request.t) (h : Handler W)
        (params : list (string * pyval)) (p : parameter) (w : W) :
  is_coroutine h = false ->
  p ∈ signature h ->
  (is_Some (assoc (param_name p) params)
   \/ param_name p = "request" \/ param_annotation p = AnnRequest) ->
  exists msg,
    invoke h (_prepare_handler_args req h params) w = (w, Raise (TypeError msg)).
Proof.
  intros Hsync Hp Hbound.
  assert (Hin : param_name p ∈ map fst (_prepare_handler_args req h params)).
  { by apply bound_parameter_in. }
  unfold invoke. rewrite Hsync.
  destruct (_prepare_handler_args req h params) as [|kv args].
  - by apply elem_of_nil in Hin.
  - by eexists.
Qed.


End DispatchMore.

(* --------------------------------------------------------------------- *)
(** ** Timings, headers, middleware and the cache *)
(* --------------------------------------------------------------------- *)

Section TimingFacts.
Context {T : Type}.

Lemma tail_drop (l : list T) (n : nat) : tail (drop n l) = drop (S n) l.
Proof.
  revert n. induction l as [|x l IH]; intros n; [by destruct n|].
  destruct n; [done|]. apply IH.
Qed.

(** X16.  After any number of handled requests [request_times] holds the
    timings of the last 1000 of them, oldest first, and never more than
    1000 entries. *)
Theorem request_times_window (ts : list T) :
  fold_left record_time ts [] = drop (length ts - 1000) ts
  /\ (length (fold_left record_time ts []) <= 1000)%nat.
Proof.
  assert (H : fold_left record_time ts [] = drop (length ts - 1000) ts).
  { induction ts as [|t ts IH] using rev_ind; [done|].
    rewrite fold_left_app. cbn [fold_left]. rewrite IH. unfold record_time.
    rewrite length_app, !length_app, length_drop. cbn [length].
    destruct (Nat.ltb_spec 1000 (length ts - (length ts - 1000) + 1)) as [Hlt | Hle].
    - assert (Hn : (1000 <= length ts)%nat) by lia.
      replace (length ts + 1 - 1000)%nat with (S (length ts - 1000)) by lia.
      rewrite <- tail_drop. rewrite drop_app_le by lia.
      destruct (drop (length ts - 1000) ts) as [|x l] eqn:Hd; [|done].
      apply (f_equal length) in Hd. rewrite length_drop in Hd. simpl in Hd. lia.
    - replace (length ts + 1 - 1000)%nat with O by lia.
      by replace (length ts - 1000)%nat with O by lia. }
  split; [exact H|]. rewrite H, length_drop. lia.
Qed.

End TimingFacts.

Section HeaderFacts.

Lemma assoc_set {V : Type} (d : list (string * V)) (k k' : string) (v : V) :
  assoc k' (Dict.set d k v) = if String.eqb k' k then Some v else assoc k' d.
Proof.
  induction d as [|[k0 v0] d IH].
  - cbn [Dict.set assoc]. by destruct (String.eqb k' k).
  - cbn [Dict.set]. destruct (String.eqb_spec k k0) as [<- | Hne].
    + cbn [assoc]. by destruct (String.eqb k' k).
    + cbn [assoc]. destruct (String.eqb_spec k' k0) as [-> | Hne'].
      * destruct (String.eqb_spec k0 k) as [-> | _]; done.
      * apply IH.
Qed.

(** The headers as [Request.headers] builds them, from any starting
    dictionary. *)
Lemma assoc_headers (l : list (string * string)) (d : list (string * string)) (k : string) :
  Forall (fun kv => Str.lower kv.1 <> k) l ->
  assoc k (fold_left (fun d kv => Dict.set d (Str.lower kv.1) kv.2) l d) = assoc k d.
Proof.
  intros Hl. revert d. induction Hl as [|kv l Hkv _ IH]; intros d; [done|].
  cbn [fold_left]. rewrite IH, assoc_set.
  destruct (String.eqb_spec k (Str.lower kv.1)) as [-> | _]; done.
Qed.

(** X17.  [get_header] ignores the case of the name asked for and of the
    names in the scope: it returns the value of the last header whose name
    is the same in lowercase, and the default when there is none. *)
Theorem get_header_last_wins (r : Request.t) (name : string) (default : option string) :
  (forall pre k v post,
      Request.headers r = pre ++ (k, v) :: post ->
      Str.lower k = Str.lower name ->
      Forall (fun kv => Str.lower kv.1 <> Str.lower name) post ->
      get_header r name default = Some v)
  /\ (Forall (fun kv => Str.lower kv.1 <> Str.lower name) (Request.headers r) ->
      get_header r name default = default).
Proof.
  unfold get_header, Request_headers, Dict.get. split.
  - intros pre k v post -> Hk Hpost.
    rewrite fold_left_app. cbn [fold_left fst snd].
    rewrite (assoc_headers post _ _ Hpost), assoc_set, Hk.
    by rewrite String.eqb_refl.
  - intros Hall. by rewrite (assoc_headers _ _ _ Hall).
Qed.

End HeaderFacts.

Section CORSFacts.

Lemma get_set_header (r : Response.t) (k v k' : string) :
  Dict.get (Response.headers (Response_set_header r k v)) k'
  = if String.eqb k' k then Some v else Dict.get (Response.headers r) k'.
Proof. unfold Dict.get. cbn [Response_set_header Response.headers]. apply assoc_set. Qed.

Lemma cors_headers_set (self : CORS.t) (request : Request.t) (response : Response.t)
      (origin : string) :
  CORS.allowed self request = Some origin ->
  let response' := CORS.after_request self request response in
  Dict.get (Response.headers response') "Access-Control-Allow-Origin" = Some origin
  /\ Dict.get (Response.headers response') "Access-Control-Allow-Methods"
     = Some (CORS.join (CORS.allow_methods self))
  /\ Dict.get (Response.headers response') "Access-Control-Allow-Headers"
     = Some (CORS.join (CORS.allow_headers self))
  /\ Dict.get (Response.headers response') "Access-Control-Allow-Credentials" = Some "true"
  /\ (forall k,
        k ∉ [ "Access-Control-Allow-Origin"; "Access-Control-Allow-Methods";
              "Access-Control-Allow-Headers"; "Access-Control-Allow-Credentials" ] ->
        Dict.get (Response.headers response') k = Dict.get (Response.headers response) k)
  /\ Response.content response' = Response.content response
  /\ Response.status_code response' = Response.status_code response.
Proof.
  intros Hallowed. unfold CORS.after_request. rewrite Hallowed. cbn zeta.
  repeat split; try (by rewrite !get_set_header).
  intros k Hk. rewrite !get_set_header.
  repeat match goal with
         | |- context [String.eqb k ?n] =>
             destruct (String.eqb_spec k n) as [-> | _];
             [exfalso; apply Hk;
              repeat first [apply list_elem_of_here | apply list_elem_of_further]|]
         end.
  done.
Qed.

Lemma allowed_spec (self : CORS.t) (request : Request.t) (origin : string) :
  CORS.allowed self request = Some origin <->
  get_header request "origin" None = Some origin
  /\ origin <> EmptyString
  /\ (origin ∈ CORS.allow_origins self \/ "*" ∈ CORS.allow_origins self).
Proof.
  unfold CORS.allowed. split.
  - destruct (get_header request "origin" None) as [o|]; [|done].
    destruct o as [|c o]; [done|]. cbn [Str.is_empty negb andb].
    destruct (bool_decide (String c o ∈ CORS.allow_origins self)) eqn:H1.
    + intros [= <-]. apply bool_decide_eq_true_1 in H1. auto.
    + destruct (bool_decide ("*" ∈ CORS.allow_origins self)) eqn:H2; [|done].
      intros [= <-]. apply bool_decide_eq_true_1 in H2. auto.
  - intros (-> & Hne & Hin). destruct origin as [|c o]; [done|].
    cbn [Str.is_empty negb andb]. destruct Hin as [Hin | Hin].
    + by rewrite (bool_decide_eq_true_2 _ Hin).
    + rewrite (bool_decide_eq_true_2 _ Hin). by rewrite orb_true_r.
Qed.

(** X18.  When the request carries an origin that is not empty and that
    is listed, or when [*] is listed, the CORS hook sets the allow-origin
    header to that very origin, the allow-methods and allow-headers headers
    to the configured lists joined by a comma and a space, and
    allow-credentials to [true]; every other header, the content and the
    status stay as they were. *)
Theorem cors_reflects_origin (self : CORS.t) (request : Request.t)
        (response : Response.t) (origin : string) :
  get_header request "origin" None = Some origin ->
  origin <> EmptyString ->
  origin ∈ CORS.allow_origins self \/ "*" ∈ CORS.allow_origins self ->
  Dict.get (Response.headers (CORS.after_request self request response))
           "Access-Control-Allow-Origin" = Some origin
  /\ Dict.get (Response.headers (CORS.after_request self request response))
              "Access-Control-Allow-Methods" = Some (CORS.join (CORS.allow_methods self))
  /\ Dict.get (Response.headers (CORS.after_request self request response))
              "Access-Control-Allow-Headers" = Some (CORS.join (CORS.allow_headers self))
  /\ Dict.get (Response.headers (CORS.after_request self request response))
              "Access-Control-Allow-Credentials" = Some "true"
  /\ (forall k,
        k ∉ [ "Access-Control-Allow-Origin"; "Access-Control-Allow-Methods";
              "Access-Control-Allow-Headers"; "Access-Control-Allow-Credentials" ] ->
        Dict.get (Response.headers (CORS.after_request self request response)) k
        = Dict.get (Response.headers response) k)
  /\ Response.content (CORS.after_request self request response)
     = Response.content response
  /\ Response.status_code (CORS.after_request self request response)
     = Response.status_code response.
Proof.
  intros Hget Hne Hin. apply cors_headers_set. by apply allowed_spec.
Qed.

(** X19.  An empty list of allowed origins is taken for no list at all
    and stands for [*]: a middleware built with [allow_origins=[]] answers
    every origin that is not empty with that origin and with
    allow-credentials [true]. *)
Theorem cors_empty_list_allows_all (methods headers : option (list string))
        (request : Request.t) (response : Response.t) (origin : string) :
  get_header request "origin" None = Some origin ->
  origin <> EmptyString ->
  CORS.init (Some []) methods headers = CORS.init None methods headers
  /\ Dict.get (Response.headers
                 (CORS.after_request (CORS.init (Some []) methods headers)
                                     request response))
              "Access-Control-Allow-Origin" = Some origin
  /\ Dict.get (Response.headers
                 (CORS.after_request (CORS.init (Some []) methods headers)
                                     request response))
              "Access-Control-Allow-Credentials" = Some "true".
Proof.
  intros Hget Hne. split; [done|].
  assert (Hallowed : CORS.allowed (CORS.init (Some []) methods headers) request
                     = Some origin).
  { apply allowed_spec. split; [done|]. split; [done|]. right.
    cbn [CORS.init CORS.allow_origins CORS.or_list]. apply list_elem_of_here. }
  pose proof (cors_headers_set _ request response origin Hallowed) as (H1 & _ & _ & H4 & _).
  by split.
Qed.

(** X20.  Without an origin header, with an empty one, or with an origin
    that is not listed while [*] is not listed either, the CORS hook returns
    the response as it was. *)
Theorem cors_leaves_other_requests (self : CORS.t) (request : Request.t)
        (response : Response.t) :
  (get_header request "origin" None = None
   \/ get_header request "origin" None = Some EmptyString
   \/ exists origin, get_header request "origin" None = Some origin
                     /\ (origin ∉ CORS.allow_origins self)
                     /\ ("*" ∉ CORS.allow_origins self)) ->
  CORS.after_request self request response = response.
Proof.
  intros Hcase. unfold CORS.after_request.
  destruct (CORS.allowed self request) as [o|] eqn:Hallowed; [|done].
  apply allowed_spec in Hallowed as (Hget & Hne & Hin).
  destruct Hcase as [Hnone | [Hempty | (origin & Ho & Hn1 & Hn2)]].
  - by rewrite Hnone in Hget.
  - rewrite Hempty in Hget. by injection Hget as <-.
  - rewrite Ho in Hget. injection Hget as <-. by destruct Hin.
Qed.

End CORSFacts.

Section CompressionFacts.
Variable gzip_compress : string -> string.
Variable json_dumps : pyval -> outcome string.
Variable py_str : pyval -> string.

Lemma should_compress_no_header (response : Response.t) :
  Dict.get (Response.headers response) "content-type" = None ->
  Compression._should_compress response = false.
Proof. unfold Compression._should_compress. by intros ->. Qed.

(** X21.  The compression hook decides by the key [content-type] of the
    response's own headers, not by its media type: a response without that
    key is returned as it was, whatever the request accepts.  That covers
    every response the dispatcher builds from the value a handler
    returns. *)
Theorem compression_needs_header (min_size : Z) (request : Request.t) :
  (forall response,
      Dict.get (Response.headers response) "content-type" = None ->
      Compression.after_request gzip_compress json_dumps py_str
                                min_size request response = Ok response)
  /\ (forall v response,
        _create_response (RetValue v) = Ok response ->
        Compression.after_request gzip_compress json_dumps py_str
                                  min_size request response = Ok response).
Proof.
  assert (H : forall response,
             Dict.get (Response.headers response) "content-type" = None ->
             Compression.after_request gzip_compress json_dumps py_str
                                       min_size request response = Ok response).
  { intros response Hnone. unfold Compression.after_request.
    rewrite (should_compress_no_header response Hnone). by rewrite andb_false_r. }
  split; [exact H|].
  intros v response Hcreate. apply H.
  destruct v; cbn in Hcreate; try discriminate Hcreate; by injection Hcreate as <-.
Qed.

(** X22.  When the compression hook does compress a JSON response, the
    content becomes the compressed bytes and the headers
    [content-encoding] and [content-length] are set, but the response is
    still a JSON response: encoding it for sending hands the bytes to
    [json.dumps], which refuses them, so the response can no longer be
    sent. *)
Theorem compressed_json_cannot_be_encoded (min_size : Z) (request : Request.t)
        (response : Response.t) (text : string) (e : exn) :
  (forall b, json_dumps (PBytes b) = Raise e) ->
  Response.cls response = Response.JSONResponse ->
  json_dumps (Response.content response) = Ok text ->
  Compression.contains "gzip" (default "" (get_header request "accept-encoding" (Some "")))
  = true ->
  Compression._should_compress response = true ->
  (min_size <= Z.of_nat (String.length (Compression.utf8_encode text)))%Z ->
  exists response',
    Compression.after_request gzip_compress json_dumps py_str
                              min_size request response = Ok response'
    /\ Response.content response'
       = PBytes (gzip_compress (Compression.utf8_encode text))
    /\ Dict.get (Response.headers response') "content-encoding" = Some "gzip"
    /\ Dict.get (Response.headers response') "content-length"
       = Some (Compression.str_of_len
                 (String.length (gzip_compress (Compression.utf8_encode text))))
    /\ Response.cls response' = Response.JSONResponse
    /\ Compression._encode_content json_dumps py_str response' = Raise e.
Proof.
  intros Hbytes Hcls Hdumps Hgzip Hshould Hsize.
  unfold Compression.after_request. rewrite Hgzip, Hshould. cbn [andb].
  unfold Compression._compress_response, Compression._encode_content at 1.
  rewrite Hcls, Hdumps.
  destruct (Z.ltb_spec (Z.of_nat (String.length (Compression.utf8_encode text))) min_size)
    as [Hlt | _]; [lia|].
  eexists. split; [reflexivity|].
  rewrite !get_set_header. repeat split; try done.
  unfold Compression._encode_content.
  cbn [Response_set_header Response_set_content Response.cls Response.content].
  by rewrite Hcls, Hbytes.
Qed.

End CompressionFacts.

Section CacheFacts.
Context {Time : Type}.
Variable before : Time -> Time -> bool.
Variable plus : Time -> Z -> Time.

(** X23.  An entry stored without a time-to-live or with a time-to-live
    of zero never expires: reading it back gives the value at any later
    reading of the clock and leaves the cache as it was. *)
Theorem cache_ttl_zero_never_expires (self : gmap string (pyval * option Time))
        (now later : Time) (key : string) (value : pyval) (ttl : option Z) :
  ttl = None \/ ttl = Some 0%Z ->
  MemoryCache.get before (MemoryCache.set plus self now key value ttl) later key
  = (value, MemoryCache.set plus self now key value ttl).
Proof.
  intros Httl. unfold MemoryCache.get, MemoryCache.set.
  rewrite lookup_insert_eq. by destruct Httl as [-> | ->].
Qed.


End CacheFacts.

(* --------------------------------------------------------------------- *)
(** ** The further properties on the fixtures *)
(* --------------------------------------------------------------------- *)

Section MoreWitnesses.
Import Fixture Sample.

Ltac not_listed :=
  let Hin := fresh in
  intros Hin;
  repeat (apply elem_of_cons in Hin as [Hin | Hin]; [discriminate Hin|]);
  by apply elem_of_nil in Hin.

(** On the handlers of the default application a [ValueError] stops at
    the key [500]. *)
Lemma status_handlers_never_run_witness :
  exists msg,
    resolve http_str (exception_handlers app0) (ValueError "boom") ([] : World)
    = ([], Raise (TypeError msg)).
Proof.
  destruct (status_handlers_never_run http_str (ValueError "boom") ([] : World))
    as [_ Hraise].
  apply (Hraise [(DClass "HTTPException", _handle_http_exception)] 500
                _handle_500_exception
                [(DStatus 404, _handle_404_exception http_str)]).
  apply Forall_singleton. exists "HTTPException". split; [reflexivity|not_listed].
Defined.

Lemma app_value_error_configured : configured http_str app_value_error.
Proof. apply register_all_configured, configured_init. Qed.

(** The handler registered for [ValueError] is not reached. *)
Lemma non_http_failure_escapes_witness :
  exists msg,
    _handle_exception http_str app_value_error (ValueError "boom") ([] : World)
    = ([], Raise (TypeError msg)).
Proof.
  apply (non_http_failure_escapes http_str app_value_error (ValueError "boom")
                                  ([] : World) app_value_error_configured).
  not_listed.
Defined.

(** With the handler for [ValueError] added, an [HTTPException] still goes
    to the built-in handler. *)
Lemma http_exception_resolution_witness :
  exists h,
    handler_of (exception_handlers app_value_error) (DClass "HTTPException") = Some h
    /\ _handle_exception http_str app_value_error (HTTPException 403 "forbidden")
                         ([] : World)
       = h (HTTPException 403 "forbidden") [].
Proof.
  destruct (http_exception_resolution http_str app_value_error
                                      app_value_error_configured) as (h & Hh & Hrun).
  exists h. split; [exact Hh|apply Hrun].
Defined.

(** An unregistered path behind the two recorders. *)
Lemma unrouted_request_gets_404_witness :
  (try_statement http_str (initial app_recorders (get_request "/nope") [])).2
  = Ok (Response.json (PDict [(PStr "error", PStr "Route /nope not found");
                              (PStr "status_code", PInt 404)]) 404).
Proof.
  pose proof (unrouted_request_gets_404
                http_str app_recorders (get_request "/nope") [] _ _
                eq_refl eq_refl eq_refl) as Hrun.
  rewrite Hrun. reflexivity.
Defined.

(** The path parameter [id] and the request are bound, [q] is not. *)
Lemma handler_args_follow_signature_witness :
  map fst (_prepare_handler_args (get_request "/items/7") (item_handler true)
                                 [("id", PInt 7)])
  = ["id"; "request"]
  /\ "request" ∈ map fst (_prepare_handler_args (get_request "/items/7")
                                                (item_handler true) [("id", PInt 7)]).
Proof.
  split; [reflexivity|].
  destruct (handler_args_follow_signature (get_request "/items/7") (item_handler true)
                                          [("id", PInt 7)]) as (_ & _ & Hbound).
  apply (Hbound {| param_name := "request"; param_annotation := AnnEmpty;
                   param_kind := PositionalOrKeyword; param_required := true |}).
  - apply list_elem_of_further, list_elem_of_here.
  - right. by left.
Defined.

(** The same handler, not a coroutine function: its body does not run. *)
Lemma sync_handler_with_arguments_witness :
  exists msg,
    invoke (item_handler false)
           (_prepare_handler_args (get_request "/items/7") (item_handler false)
                                  [("id", PInt 7)]) []
    = ([], Raise (TypeError msg)).
Proof.
  apply (sync_handler_with_arguments
           (get_request "/items/7") (item_handler false) [("id", PInt 7)]
           {| param_name := "id"; param_annotation := AnnOther;
              param_kind := PositionalOrKeyword; param_required := true |}).
  - reflexivity.
  - apply list_elem_of_here.
  - left. by eexists.
Defined.


(** Of two headers that differ in case only, the later one is read. *)
Lemma get_header_last_wins_witness :
  get_header twice_request "X-TAG" None = Some "two"
  /\ get_header twice_request "X-Other" (Some "none") = Some "none".
Proof.
  destruct (get_header_last_wins twice_request "X-TAG" None) as [Hlast _].
  destruct (get_header_last_wins twice_request "X-Other" (Some "none")) as [_ Hmiss].
  split.
  - apply (Hlast [("X-Tag", "one"); ("Host", "h")] "x-tag" "two" []);
      [reflexivity|reflexivity|constructor].
  - apply Hmiss. repeat constructor; discriminate.
Defined.

Lemma cors_reflects_origin_witness :
  Dict.get (Response.headers
              (CORS.after_request (CORS.init None None None) browser_request
                                  plain_response))
           "Access-Control-Allow-Origin" = Some "https://a.example"
  /\ Dict.get (Response.headers
                 (CORS.after_request (CORS.init None None None) browser_request
                                     plain_response))
              "X-Frame-Options" = Some "DENY".
Proof.
  destruct (cors_reflects_origin (CORS.init None None None) browser_request
                                 plain_response "https://a.example")
    as (Horigin & _ & _ & _ & Hother & _).
  - reflexivity.
  - discriminate.
  - right. apply list_elem_of_here.
  - split; [exact Horigin|]. rewrite Hother; [reflexivity|not_listed].
Defined.

Lemma cors_empty_list_allows_all_witness :
  Dict.get (Response.headers
              (CORS.after_request (CORS.init (Some []) None None) browser_request
                                  plain_response))
           "Access-Control-Allow-Origin" = Some "https://a.example".
Proof.
  destruct (cors_empty_list_allows_all None None browser_request plain_response
                                       "https://a.example") as (_ & Horigin & _).
  - reflexivity.
  - discriminate.
  - exact Horigin.
Defined.

(** An origin that is not listed. *)
Lemma cors_leaves_other_requests_witness :
  CORS.after_request (CORS.init (Some ["https://b.example"]) None None)
                     browser_request plain_response
  = plain_response.
Proof.
  apply cors_leaves_other_requests. right. right.
  exists "https://a.example". split; [reflexivity|]. split; not_listed.
Defined.

(** The JSON response the dispatcher builds from a dict has no headers of
    its own and is handed back as it is. *)
Lemma compression_needs_header_witness :
  Compression.after_request gzip_compress json_dumps py_str 0
                            browser_request (Response.json (PDict []) 200)
  = Ok (Response.json (PDict []) 200).
Proof.
  destruct (compression_needs_header gzip_compress json_dumps py_str 0
                                     browser_request) as [_ Hcreated].
  apply (Hcreated (PDict [])). reflexivity.
Defined.

Lemma compressed_json_cannot_be_encoded_witness :
  exists response',
    Compression.after_request gzip_compress json_dumps py_str 0
                              browser_request labelled_json = Ok response'
    /\ Response.content response' = PBytes "gz:{}"
    /\ Compression._encode_content json_dumps py_str response'
       = Raise (TypeError "Object of type bytes is not JSON serializable").
Proof.
  destruct (compressed_json_cannot_be_encoded
              gzip_compress json_dumps py_str 0 browser_request
              labelled_json "{}"
              (TypeError "Object of type bytes is not JSON serializable"))
    as (response' & Hrun & Hcontent & _ & _ & _ & Hencode);
    [reflexivity | reflexivity | reflexivity | reflexivity | reflexivity
    | vm_compute; discriminate |].
  exists response'. by split.
Defined.

(** A clock of whole seconds. *)
Lemma cache_ttl_zero_never_expires_witness :
  MemoryCache.get Z.ltb (MemoryCache.set Z.add ∅ 100 "k" (PInt 1) (Some 0)) 1000000 "k"
  = (PInt 1, MemoryCache.set Z.add ∅ 100 "k" (PInt 1) (Some 0)).
Proof. apply cache_ttl_zero_never_expires. by right. Defined.


End MoreWitnesses.

(* --------------------------------------------------------------------- *)
(** ** Failures that are not HTTP exceptions *)
(* --------------------------------------------------------------------- *)

Section FailureFacts.
Context {W : Type}.
Variable http_exception_str : Z -> string -> string.

(** X25.  In every configured application, a failure that leaves the
    body of the [try] statement and is no [HTTPException] (a [ValueError]
    of a handler or a pre-hook, the [NameError] of a string result) ends
    the request without a response: the dispatcher raises, a [TypeError] in
    place of a failure that is an [Exception], no post-hook runs and
    nothing is handed to the transport. *)
Theorem unhandled_failure_sends_nothing (app : FlashAPI W) emit req (w : W) s e :
  configured http_exception_str app ->
  try_body (initial app req w) = (s, Raise e) ->
  "HTTPException" ∉ exc_mro e ->
  (exists e',
      (dispatch http_exception_str app emit req w).2 = Raise e'
      /\ (catches_Exception e = true -> exists msg, e' = TypeError msg)
      /\ (catches_Exception e = false -> e' = e))
  /\ sends (trace (dispatch http_exception_str app emit req w).1) = []
  /\ afters (trace (dispatch http_exception_str app emit req w).1) = []
  /\ world (dispatch http_exception_str app emit req w).1 = world s.
Proof.
  intros Happ Hbody Hnot.
  pose proof (try_body_run _ _ _ Hbody) as (_ & Hhs & evs & Ht & Hsend & Haft & _).
  cbn [initial self trace List.app] in Hhs, Ht.
  destruct (configured_handlers_shape http_exception_str app Happ)
    as (h1 & h2 & rest & Hshape).
  destruct (resolve_stops_at_500 http_exception_str h1 h2 rest e (world s) Hnot)
    as [msg Hres].
  pose proof (dispatch_run http_exception_str app emit req w) as Hrun.
  unfold try_statement, try_except in Hrun. rewrite Hbody in Hrun.
  destruct (catches_Exception e) eqn:Hc.
  - unfold bind, get, call, _handle_exception in Hrun.
    rewrite Hhs, Hshape, Hres in Hrun. rewrite Hrun. cbn [fst snd trace world].
    rewrite Ht, Hsend, Haft. repeat split; try done.
    exists (TypeError msg). repeat split; [by exists msg|done].
  - rewrite Hrun. cbn [fst snd]. rewrite Ht, Hsend, Haft. repeat split; try done.
    exists e. by repeat split.
Qed.

End FailureFacts.

Section FailureWitness.
Import Fixture Sample.

Lemma app_text_configured : configured http_str app_text.
Proof.
  apply configured_middleware.
  apply (configured_route http_str app0 "/text" ["GET"] text_handler []);
    [apply configured_init|reflexivity].
Qed.

(** A handler that returns a string: building the response raises
    [NameError], resolution raises [TypeError], the post-hook of the
    recorder does not run and nothing is sent. *)
Lemma unhandled_failure_sends_nothing_witness :
  (exists msg,
      (dispatch http_str app_text emit (get_request "/text") []).2
      = Raise (TypeError msg))
  /\ sends (trace (dispatch http_str app_text emit (get_request "/text") []).1) = []
  /\ world (dispatch http_str app_text emit (get_request "/text") []).1
     = ["pre A"; "text"].
Proof.
  destruct (unhandled_failure_sends_nothing
              http_str app_text emit (get_request "/text") []
              (try_body (initial app_text (get_request "/text") [])).1
              (NameError "name 'TextResponse' is not defined")
              app_text_configured eq_refl)
    as ((e' & He' & Hcaught & _) & Hsends & _ & Hworld).
  - intros Hin.
    repeat (apply elem_of_cons in Hin as [Hin | Hin]; [discriminate Hin|]).
    by apply elem_of_nil in Hin.
  - destruct (Hcaught eq_refl) as [msg ->].
    split; [by exists msg|]. split; [exact Hsends|]. rewrite Hworld. reflexivity.
Defined.

End FailureWitness.

(* --------------------------------------------------------------------- *)
(** ** Templates with any number of placeholders *)
(* --------------------------------------------------------------------- *)

Section TemplateCompile.
Import Template.

Lemma word_split_unique (a b r r' : string) (x y : ascii) :
  Str.forallb Chars.is_word a = true -> Str.forallb Chars.is_word b = true ->
  Chars.is_word x = false -> Chars.is_word y = false ->
  (a ++ String x r)%string = (b ++ String y r')%string ->
  a = b /\ x = y /\ r = r'.
Proof.
  revert b. induction a as [|c a IH]; intros b Ha Hb Hx Hy Heq.
  - destruct b as [|d b].
    + by injection Heq as -> ->.
    + rewrite app_String in Heq. injection Heq as -> _.
      simpl in Hb. by rewrite Hx in Hb.
  - destruct b as [|d b].
    + rewrite app_String in Heq. injection Heq as -> _.
      simpl in Ha. by rewrite Hy in Ha.
    + rewrite !app_String in Heq. injection Heq as -> Heq.
      simpl in Ha, Hb. apply andb_true_iff in Ha as [_ Ha], Hb as [_ Hb].
      destruct (IH b Ha Hb Hx Hy Heq) as (-> & -> & ->). done.
Qed.

Lemma hole_text_inj (n n' : string) (ty ty' : option string) (rest rest' : string) :
  valid_key n ty -> valid_key n' ty' ->
  (hole_text n ty ++ rest)%string = (hole_text n' ty' ++ rest')%string ->
  n = n' /\ ty = ty'.
Proof.
  intros [Hn Hty] [Hn' Hty'].
  apply is_name_spec in Hn as (_ & _ & Hn), Hn' as (_ & _ & Hn').
  destruct ty as [t|], ty' as [t'|]; unfold hole_text;
    rewrite !app_String, !app_assoc_string, !app_String; intros [= Heq].
  - apply word_split_unique in Heq as (-> & _ & Heq); [|done..].
    apply is_type_tag_spec in Hty as [_ Hty], Hty' as [_ Hty'].
    rewrite !app_assoc_string, !app_String in Heq.
    apply word_split_unique in Heq as (-> & _ & _); done.
  - by apply word_split_unique in Heq as (_ & ? & _).
  - by apply word_split_unique in Heq as (_ & ? & _).
  - by apply word_split_unique in Heq as (-> & _ & _).
Qed.


Lemma hole_text_brace (n : string) (ty : option string) :
  exists body, hole_text n ty = String "{" body /\ (valid_key n ty -> no_brace body = true).
Proof.
  destruct ty as [t|]; cbn [hole_text]; eexists; (split; [reflexivity|]);
    intros [Hn Hty]; apply is_name_spec in Hn as (_ & _ & Hn).
  - apply is_type_tag_spec in Hty as [_ Hty].
    apply no_brace_app; [by apply word_no_brace|].
    change (no_brace (t ++ "}")%string = true).
    apply no_brace_app; [by apply word_no_brace|done].
  - apply no_brace_app; [by apply word_no_brace|done].
Qed.

(** Replacing one placeholder leaves a different one as it is. *)
Lemma replace_other_hole (n n' : string) (ty ty' : option string) (new rest : string) :
  valid_key n ty -> valid_key n' ty' -> (n, ty) <> (n', ty') ->
  Str.replace (hole_text n ty) new (hole_text n' ty' ++ rest)%string
  = (hole_text n' ty' ++ Str.replace (hole_text n ty) new rest)%string.
Proof.
  intros Hk Hk' Hne.
  assert (Hnone : Str.strip_prefix (hole_text n ty) (hole_text n' ty' ++ rest)%string = None).
  { destruct (Str.strip_prefix (hole_text n ty) (hole_text n' ty' ++ rest)%string)
      as [rest'|] eqn:Hs; [|done].
    apply strip_prefix_Some in Hs. symmetry in Hs.
    apply hole_text_inj in Hs as [-> ->]; done. }
  destruct (hole_text_brace n ty) as (old' & Hold & _).
  destruct (hole_text_brace n' ty') as (body & Hbody & Hnb).
  rewrite Hold in Hnone |- *. rewrite Hbody in Hnone |- *.
  rewrite app_String in Hnone |- *.
  unfold Str.replace. cbn [Str.replace_from]. rewrite Hnone.
  f_equal. fold (Str.replace (String "{" old') new (body ++ rest)%string).
  by rewrite replace_no_brace by auto.
Qed.

Lemma group_text_valid_no_brace (n : string) (ty : option string) :
  valid_key n ty -> no_brace (group_text n (body_text ty)) = true.
Proof.
  intros [Hn _]. apply is_name_spec in Hn as (_ & _ & Hn).
  apply group_text_no_brace; [done|].
  destruct ty as [t|]; [apply type_map_no_brace|done].
Qed.

Lemma well_formed_cons (p : piece) (tpl : list piece) :
  well_formed (p :: tpl) = true ->
  match p with
  | Text s => Str.plain s = true
  | Hole n ty => valid_key n ty
  end /\ well_formed tpl = true.
Proof.
  unfold well_formed. cbn [forallb]. intros H. apply andb_true_iff in H as [Hp Htpl].
  split; [|done]. destruct p as [s|n ty]; [done|].
  apply andb_true_iff in Hp as [Hn Hty]. split; [done|]. by destruct ty.
Qed.

(** One step of either loop of [_compile_pattern]: every occurrence of the
    placeholder becomes its group. *)
Lemma replace_render (n : string) (ty : option string)
      (done : string -> option string -> bool) (tpl : list piece) :
  valid_key n ty -> well_formed tpl = true ->
  Str.replace (hole_text n ty) (group_text n (body_text ty)) (render_with done tpl)
  = render_with (fun n' ty' => done n' ty' || bool_decide ((n, ty) = (n', ty'))) tpl.
Proof.
  intros Hk. destruct (hole_text_brace n ty) as (old' & Hold & _).
  induction tpl as [|p tpl IH]; intros Hwf.
  - cbn [render_with]. rewrite Hold. reflexivity.
  - apply well_formed_cons in Hwf as [Hp Hwf]. specialize (IH Hwf).
    destruct p as [s|n' ty']; cbn [render_with].
    + rewrite Hold, replace_no_brace by (by apply plain_no_brace).
      by rewrite <- Hold, IH.
    + destruct (done n' ty') eqn:Hd; cbn [orb].
      * rewrite Hold, replace_no_brace by (by apply group_text_valid_no_brace).
        by rewrite <- Hold, IH.
      * destruct (decide ((n, ty) = (n', ty'))) as [[= <- <-] | Hne].
        -- rewrite bool_decide_eq_true_2 by done.
           rewrite Hold at 2. rewrite Hold at 1.
           rewrite replace_self. by rewrite <- Hold, IH.
        -- rewrite bool_decide_eq_false_2 by done.
           by rewrite replace_other_hole, IH.
Qed.


Lemma render_with_ext (d1 d2 : string -> option string -> bool) (tpl : list piece) :
  (forall n ty, Hole n ty ∈ tpl -> d1 n ty = d2 n ty) ->
  render_with d1 tpl = render_with d2 tpl.
Proof.
  induction tpl as [|p tpl IH]; intros Heq; [done|].
  assert (Htl : render_with d1 tpl = render_with d2 tpl).
  { apply IH. intros n ty Hin. apply Heq. by apply list_elem_of_further. }
  destruct p as [s|n ty]; cbn [render_with]; [by rewrite Htl|].
  by rewrite (Heq n ty (list_elem_of_here _ _)), Htl.
Qed.

Lemma fold_replace_render (ks : list (string * option string))
      (done : string -> option string -> bool) (tpl : list piece) :
  Forall (fun k => valid_key k.1 k.2) ks -> well_formed tpl = true ->
  fold_left replace_key ks (render_with done tpl)
  = render_with (fun n ty => done n ty || bool_decide ((n, ty) ∈ ks)) tpl.
Proof.
  intros Hks Hwf. revert done. induction Hks as [|[n ty] ks Hk _ IH]; intros done.
  - cbn [fold_left]. apply render_with_ext. intros n ty _.
    rewrite bool_decide_eq_false_2 by apply not_elem_of_nil. by rewrite orb_false_r.
  - cbn [fold_left]. unfold replace_key at 2. cbn [fst snd].
    rewrite (replace_render n ty done tpl Hk Hwf), IH.
    apply render_with_ext. intros n' ty' _. rewrite <- orb_assoc. f_equal.
    destruct (decide ((n, ty) = (n', ty'))) as [<- | Hne].
    + rewrite bool_decide_eq_true_2 by done.
      by rewrite (bool_decide_eq_true_2 _ (list_elem_of_here _ _)).
    + rewrite (bool_decide_eq_false_2 _ Hne). cbn [orb].
      apply bool_decide_ext. rewrite elem_of_cons. split; [by right|].
      intros [Heq | Hin]; [by symmetry in Heq|done].
Qed.

Lemma fold_typed_step (ks : list (string * string)) (m : gmap string string) (R : string) :
  fold_left Compile.typed_step ks (m, R)
  = (fold_left (fun m nt => <[nt.1 := nt.2]> m) ks m,
     fold_left replace_key (map (fun nt => (nt.1, Some nt.2)) ks) R).
Proof.
  revert m R. induction ks as [|[n t] ks IH]; intros m R; [done|].
  cbn [fold_left map]. rewrite <- IH. reflexivity.
Qed.

Lemma fold_basic_step (ns : list string) (R : string) :
  fold_left Compile.basic_step ns R
  = fold_left replace_key (map (fun n => (n, None)) ns) R.
Proof.
  revert R. induction ns as [|n ns IH]; intros R; [done|].
  cbn [fold_left map]. rewrite <- IH. reflexivity.
Qed.


Lemma hole_typed_shape (n t rest : string) :
  (hole_text n (Some t) ++ rest)%string
  = String "{" (n ++ String ":" (t ++ String "}" rest)).
Proof.
  cbn [hole_text]. by rewrite app_String, app_assoc_string, app_String, app_assoc_string.
Qed.

Lemma hole_untyped_shape (n rest : string) :
  (hole_text n None ++ rest)%string = String "{" (n ++ String "}" rest).
Proof. cbn [hole_text]. by rewrite app_String, app_assoc_string. Qed.

(** The matches of the typed pattern in a template. *)
Lemma finditer_typed_render (tpl : list piece) :
  well_formed tpl = true ->
  Compile.finditer Compile.typed_at 0 (render tpl) = typed_holes tpl.
Proof.
  unfold render. induction tpl as [|p tpl IH]; intros Hwf; [done|].
  apply well_formed_cons in Hwf as [Hp Hwf]. specialize (IH Hwf).
  destruct p as [s|n [t|]]; cbn [render_with typed_holes omap list_omap].
  - rewrite (finditer_no_brace _ s _ typed_at_other (plain_no_brace _ Hp)). exact IH.
  - destruct Hp as [Hn Ht]. apply is_name_spec in Hn as (_ & Hne & Hn).
    rewrite hole_typed_shape. cbn [Compile.finditer].
    rewrite (typed_at_typed n t _ Hne Hn Ht). f_equal.
    replace (String.length n + String.length t + 3 - 1)%nat
      with (String.length (n ++ String ":" (t ++ "}"))%string).
    + replace (n ++ String ":" (t ++ String "}" (render_with (fun _ _ => false) tpl)))%string
        with ((n ++ String ":" (t ++ "}")) ++ render_with (fun _ _ => false) tpl)%string.
      * rewrite finditer_skip. exact IH.
      * by rewrite app_assoc_string, app_String, app_assoc_string.
    + rewrite !length_app_string. cbn [String.length].
      rewrite length_app_string. cbn [String.length]. lia.
  - destruct Hp as [Hn _]. apply is_name_spec in Hn as (_ & Hne & Hn).
    rewrite hole_untyped_shape. cbn [Compile.finditer].
    rewrite (typed_at_untyped n _ Hn).
    replace (n ++ String "}" (render_with (fun _ _ => false) tpl))%string
      with ((n ++ "}") ++ render_with (fun _ _ => false) tpl)%string
      by (by rewrite app_assoc_string).
    rewrite (finditer_no_brace _ (n ++ "}")%string _ typed_at_other); [exact IH|].
    apply no_brace_app; [by apply word_no_brace|done].
Qed.

(** The matches of the untyped pattern once the typed placeholders are
    groups. *)
Lemma finditer_basic_render (tpl : list piece) :
  well_formed tpl = true ->
  Compile.finditer Compile.basic_at 0 (render_with (fun _ ty => is_typed ty) tpl)
  = untyped_holes tpl.
Proof.
  induction tpl as [|p tpl IH]; intros Hwf; [done|].
  pose proof (well_formed_cons _ _ Hwf) as [Hp Hwf']. specialize (IH Hwf').
  destruct p as [s|n [t|]]; cbn [render_with untyped_holes omap list_omap is_typed].
  - rewrite (finditer_no_brace _ s _ basic_at_other (plain_no_brace _ Hp)). exact IH.
  - rewrite (finditer_no_brace _ _ _ basic_at_other
               (group_text_valid_no_brace n (Some t) Hp)). exact IH.
  - destruct Hp as [Hn _]. apply is_name_spec in Hn as (_ & Hne & Hn).
    rewrite hole_untyped_shape. cbn [Compile.finditer].
    rewrite (basic_at_untyped n _ Hne Hn). f_equal.
    replace (String.length n + 2 - 1)%nat with (String.length (n ++ "}")%string).
    + replace (n ++ String "}" (render_with (fun _ ty => is_typed ty) tpl))%string
        with ((n ++ "}") ++ render_with (fun _ ty => is_typed ty) tpl)%string
        by (by rewrite app_assoc_string).
      rewrite finditer_skip. exact IH.
    + rewrite length_app_string. cbn [String.length]. lia.
Qed.

Lemma typed_holes_valid (tpl : list piece) :
  well_formed tpl = true ->
  Forall (fun k : string * option string => valid_key k.1 k.2)
         (map (fun nt : string * string => (nt.1, Some nt.2)) (typed_holes tpl)).
Proof.
  induction tpl as [|p tpl IH]; intros Hwf; [constructor|].
  apply well_formed_cons in Hwf as [Hp Hwf]. specialize (IH Hwf).
  destruct p as [s|n [t|]]; cbn [typed_holes omap list_omap map]; try exact IH.
  by constructor.
Qed.

Lemma untyped_holes_valid (tpl : list piece) :
  well_formed tpl = true ->
  Forall (fun k : string * option string => valid_key k.1 k.2)
         (map (fun n : string => (n, None)) (untyped_holes tpl)).
Proof.
  induction tpl as [|p tpl IH]; intros Hwf; [constructor|].
  apply well_formed_cons in Hwf as [Hp Hwf]. specialize (IH Hwf).
  destruct p as [s|n [t|]]; cbn [untyped_holes omap list_omap map]; try exact IH.
  by constructor.
Qed.

Lemma typed_hole_listed (tpl : list piece) (n : string) (ty : option string) :
  Hole n ty ∈ tpl ->
  bool_decide ((n, ty) ∈ map (fun nt : string * string => (nt.1, Some nt.2))
                             (typed_holes tpl)) = is_typed ty.
Proof.
  intros Hin. destruct ty as [t|]; cbn [is_typed].
  - apply bool_decide_eq_true_2. apply list_elem_of_In, in_map_iff.
    exists (n, t). split; [done|]. apply list_elem_of_In, list_elem_of_omap.
    by exists (Hole n (Some t)).
  - apply bool_decide_eq_false_2. intros H.
    apply list_elem_of_In, in_map_iff in H as ([n' t'] & [= _] & _).
Qed.

Lemma untyped_hole_listed (tpl : list piece) (n : string) (ty : option string) :
  Hole n ty ∈ tpl ->
  is_typed ty
  || bool_decide ((n, ty) ∈ map (fun n : string => (n, None)) (untyped_holes tpl))
  = true.
Proof.
  intros Hin. destruct ty as [t|]; cbn [is_typed orb]; [done|].
  apply bool_decide_eq_true_2. apply list_elem_of_In, in_map_iff.
  exists n. split; [done|]. apply list_elem_of_In, list_elem_of_omap.
  by exists (Hole n None).
Qed.

(** The regular expression text of a template: every placeholder a
    group. *)
Lemma regex_of_render (tpl : list piece) :
  well_formed tpl = true ->
  Compile.regex_of (render tpl)
  = (("^" ++ render_with (fun _ _ => true) tpl ++ "$")%string, declared tpl).
Proof.
  intros Hwf. unfold Compile.regex_of.
  rewrite (finditer_typed_render tpl Hwf), fold_typed_step.
  unfold render.
  rewrite (fold_replace_render _ _ tpl (typed_holes_valid tpl Hwf) Hwf).
  rewrite (render_with_ext _ (fun _ ty => is_typed ty) tpl)
    by (intros n ty Hin; cbn [orb]; by apply typed_hole_listed).
  lazy beta iota zeta.
  rewrite (finditer_basic_render tpl Hwf), fold_basic_step.
  rewrite (fold_replace_render _ _ tpl (untyped_holes_valid tpl Hwf) Hwf).
  rewrite (render_with_ext _ (fun _ _ => true) tpl)
    by (intros n ty Hin; by apply untyped_hole_listed).
  reflexivity.
Qed.


Lemma parse_body_hole (ty : option string) (rest : string) :
  Re.parse_body Re.bodies (body_text ty ++ String ")" rest)%string
  = Some (hole_body ty, rest).
Proof.
  destruct ty as [t|]; cbn [body_text hole_body]; [apply parse_body_type|].
  apply (parse_body_type "str").
Qed.

Lemma group_text_shape (n body rest : string) :
  (group_text n body ++ rest)%string
  = String "(" (String "?" (String "P" (String "<"
      (n ++ String ">" (body ++ String ")" rest))))).
Proof.
  unfold group_text. rewrite !app_String. do 4 f_equal.
  by rewrite app_assoc_string, app_String, app_assoc_string.
Qed.

(** [re.compile] on the regular expression text of a template. *)
Lemma parse_render (tpl : list piece) :
  well_formed tpl = true ->
  forall seen fuel,
    (String.length (render_with (fun _ _ => true) tpl ++ "$")%string <= fuel)%nat ->
    Re.parse fuel seen (render_with (fun _ _ => true) tpl ++ "$")%string
    = compiled_from seen tpl.
Proof.
  induction tpl as [|p tpl IH]; intros Hwf seen fuel Hfuel.
  - cbn [render_with] in *. destruct fuel as [|fuel]; [simpl in Hfuel; lia|].
    apply parse_end.
  - apply well_formed_cons in Hwf as [Hp Hwf]. specialize (IH Hwf).
    destruct p as [s|n ty]; cbn [render_with compiled_from] in *.
    + rewrite app_assoc_string in Hfuel |- *. rewrite length_app_string in Hfuel.
      replace fuel with (String.length s + (fuel - String.length s))%nat by lia.
      rewrite (parse_plain s _ _ _ Hp). f_equal. apply IH. lia.
    + rewrite app_assoc_string in Hfuel |- *.
      rewrite group_text_shape in Hfuel |- *.
      destruct fuel as [|fuel]; [simpl in Hfuel; lia|].
      destruct Hp as [Hn _]. apply is_name_spec in Hn as (Hid & _ & Hword).
      rewrite (parse_group fuel seen n (body_text ty) _ (hole_body ty) Hid Hword
                           (parse_body_hole ty _)).
      destruct (bool_decide (n ∈ seen)); [done|]. f_equal. apply IH.
      cbn [String.length] in Hfuel.
      rewrite length_app_string in Hfuel. cbn [String.length] in Hfuel.
      rewrite length_app_string in Hfuel. cbn [String.length] in Hfuel. lia.
Qed.

Lemma cons_atoms_error (l : Re.pattern) (e : exn) :
  fold_right Re.cons_atom (Re.CompileError e) l = Re.CompileError e.
Proof. induction l as [|a l IH]; simpl; [done|by rewrite IH]. Qed.

Lemma compiled_from_distinct (tpl : list piece) (seen : list string) :
  NoDup (names tpl) -> (forall n, n ∈ names tpl -> n ∉ seen) ->
  compiled_from seen tpl = Re.Compiled (atoms tpl).
Proof.
  revert seen. induction tpl as [|p tpl IH]; intros seen Hnd Hseen; [done|].
  destruct p as [s|n ty]; cbn [compiled_from atoms names omap list_omap] in *.
  - rewrite (IH seen Hnd Hseen). apply cons_atoms_compiled.
  - apply NoDup_cons in Hnd as [Hn Hnd].
    rewrite bool_decide_eq_false_2 by (apply Hseen, list_elem_of_here).
    rewrite (IH (n :: seen) Hnd); [done|].
    intros m Hm Hin. apply elem_of_cons in Hin as [-> | Hin]; [done|].
    by apply (Hseen m); [apply list_elem_of_further|].
Qed.

Lemma compiled_from_repeated (tpl : list piece) (seen : list string) :
  ~ (NoDup (names tpl) /\ forall n, n ∈ names tpl -> n ∉ seen) ->
  compiled_from seen tpl = Re.CompileError (re_error "redefinition of group name").
Proof.
  revert seen. induction tpl as [|p tpl IH]; intros seen Hbad.
  - exfalso. apply Hbad. split; [constructor|]. intros n Hn. by apply elem_of_nil in Hn.
  - destruct p as [s|n ty]; cbn [compiled_from names omap list_omap] in *.
    + rewrite (IH seen Hbad). apply cons_atoms_error.
    + destruct (decide (n ∈ seen)) as [Hin | Hnotin].
      * by rewrite bool_decide_eq_true_2.
      * rewrite bool_decide_eq_false_2 by done.
        rewrite (IH (n :: seen)); [done|].
        intros [Hnd Hseen]. apply Hbad. split.
        -- apply NoDup_cons. split; [|done].
           intros Hn. by apply (Hseen n Hn), list_elem_of_here.
        -- intros m Hm. apply elem_of_cons in Hm as [-> | Hm]; [done|].
           intros Hin. by apply (Hseen m Hm), list_elem_of_further.
Qed.

(** [_compile_pattern] on a template. *)
Lemma compile_render (tpl : list piece) :
  well_formed tpl = true ->
  Compile._compile_pattern (render tpl) = (compiled_from [] tpl, declared tpl).
Proof.
  intros Hwf. unfold Compile._compile_pattern. rewrite (regex_of_render tpl Hwf).
  f_equal.
  change ("^" ++ render_with (fun _ _ => true) tpl ++ "$")%string
    with (String "^" (render_with (fun _ _ => true) tpl ++ "$"))%string.
  cbn [Re.compile]. by apply parse_render.
Qed.

Lemma compile_distinct (tpl : list piece) :
  well_formed tpl = true -> NoDup (names tpl) ->
  Compile._compile_pattern (render tpl) = (Re.Compiled (atoms tpl), declared tpl).
Proof.
  intros Hwf Hnd. rewrite (compile_render tpl Hwf). f_equal.
  apply compiled_from_distinct; [done|]. intros n _ Hin. by apply elem_of_nil in Hin.
Qed.

Lemma fold_insert_lookup (l : list (string * string)) (m : gmap string string)
      (n t : string) :
  NoDup (map fst l) ->
  fold_left (fun m nt => <[nt.1 := nt.2]> m) l m !! n = Some t
  <-> ((n, t) ∈ l \/ ((n ∉ map fst l) /\ m !! n = Some t)).
Proof.
  revert m. induction l as [|[k v] l IH]; intros m Hnd; cbn [fold_left map fst snd].
  - split; [intros Hm; right; split; [|done]; by intros Hin%elem_of_nil|].
    intros [Hin%elem_of_nil | [_ Hm]]; done.
  - apply NoDup_cons in Hnd as [Hk Hnd]. rewrite (IH _ Hnd). split.
    + intros [Hin | [Hn Hm]]; [left; by apply list_elem_of_further|].
      destruct (decide (n = k)) as [-> | Hne].
      * rewrite lookup_insert_eq in Hm. injection Hm as ->. left. apply list_elem_of_here.
      * rewrite lookup_insert_ne in Hm by done. right. split; [|done].
        intros Hin. apply elem_of_cons in Hin as [-> | Hin]; done.
    + intros [Hin | [Hn Hm]].
      * apply elem_of_cons in Hin as [[= -> ->] | Hin]; [|by left].
        right. split; [done|]. by rewrite lookup_insert_eq.
      * right. split; [intros Hin; apply Hn; by apply list_elem_of_further|].
        rewrite lookup_insert_ne; [done|]. intros <-. apply Hn, list_elem_of_here.
Qed.

Lemma typed_names_sublist (tpl : list piece) :
  sublist (map fst (typed_holes tpl)) (names tpl).
Proof.
  induction tpl as [|[s|n [t|]] tpl IH]; cbn [typed_holes names omap list_omap map fst];
    [constructor|exact IH|by apply sublist_skip|by apply sublist_cons].
Qed.

(** The declared types are the types written in the template. *)
Lemma declared_lookup (tpl : list piece) (n t : string) :
  NoDup (names tpl) ->
  declared tpl !! n = Some t <-> Hole n (Some t) ∈ tpl.
Proof.
  intros Hnd. unfold declared.
  rewrite fold_insert_lookup
    by (apply (sublist_NoDup _ _ Hnd (typed_names_sublist tpl))).
  rewrite lookup_empty. unfold typed_holes. rewrite list_elem_of_omap. split.
  - intros [(p & Hin & Hp) | [_ ?]]; [|done].
    destruct p as [s|n' [t'|]]; try done. by injection Hp as -> ->.
  - intros Hin. left. by exists (Hole n (Some t)).
Qed.

(** X26.  A template of literal texts and placeholders, typed or not and
    in any number, whose placeholder names are distinct identifiers,
    compiles to the pattern that reads the texts literally and has one
    named group for each placeholder, in the order written.  The parameter
    types are exactly the types written in the template. *)
Theorem compile_template (tpl : list piece) :
  well_formed tpl = true -> NoDup (names tpl) ->
  Compile._compile_pattern (render tpl) = (Re.Compiled (atoms tpl), declared tpl)
  /\ forall n t, declared tpl !! n = Some t <-> Hole n (Some t) ∈ tpl.
Proof.
  intros Hwf Hnd. split; [by apply compile_distinct|].
  intros n t. by apply declared_lookup.
Qed.

End TemplateCompile.

Section TemplateRoutes.
Import Template.
Context {H : Type}.

(** X27.  A template in which a placeholder name comes a second time,
    typed or not, is refused: compiling its regular expression raises
    [re.error], and so does [add_route] for it. *)
Theorem repeated_placeholder_raises (tpl : list piece) :
  well_formed tpl = true -> ~ NoDup (names tpl) ->
  (exists msg, (Compile._compile_pattern (render tpl)).1 = Re.CompileError (re_error msg))
  /\ forall (r : Router H) methods h kwargs cfg,
       RouteConfig_init kwargs = Ok cfg ->
       exists msg, add_route r (render tpl) methods h kwargs = Raised (re_error msg).
Proof.
  intros Hwf Hdup.
  assert (Hc : Compile._compile_pattern (render tpl)
               = (Re.CompileError (re_error "redefinition of group name"), declared tpl)).
  { rewrite (compile_render tpl Hwf). f_equal.
    apply compiled_from_repeated. by intros [Hnd _]. }
  split; [rewrite Hc; by eexists|].
  intros r methods h kwargs cfg Hcfg. unfold add_route, Route_init.
  rewrite Hcfg, Hc. by eexists.
Qed.

End TemplateRoutes.

Section TemplateMatch.
Import Template.

Lemma rev_onto_app (acc a b : string) :
  Str.rev_onto acc (a ++ b)%string = Str.rev_onto (Str.rev_onto acc a) b.
Proof.
  revert acc. induction a as [|c a IH]; intros acc; [done|].
  rewrite app_String. cbn [Str.rev_onto]. apply IH.
Qed.

(** A greedy run that succeeds took some run of the class. *)
Lemma star_inv {A : Type} (p : ascii -> bool) (s acc : string)
      (K : string -> string -> option A) (r : A) :
  Re.star p s acc K = Some r ->
  exists a b, s = (a ++ b)%string /\ Str.forallb p a = true
              /\ K (Str.rev_onto acc a) b = Some r.
Proof.
  revert acc. induction s as [|c s IH]; intros acc; cbn [Re.star].
  - intros HK. by exists "", "".
  - destruct (p c) eqn:Hc.
    + destruct (Re.star p s (String c acc) K) as [r'|] eqn:Hs.
      * intros [= ->]. apply IH in Hs as (a & b & -> & Ha & HK).
        exists (String c a), b. repeat split; [|done]. simpl. by rewrite Hc, Ha.
      * intros HK. by exists "", (String c s).
    + intros HK. by exists "", (String c s).
Qed.

(** A greedy run in front of a text it cannot enter: it takes the run, and
    what the rest of the pattern makes of that is the result. *)
Lemma star_take {A : Type} (p : ascii -> bool) (v rest acc : string)
      (K : string -> string -> option A) (r : A) :
  Str.forallb p v = true ->
  match rest with EmptyString => True | String c _ => p c = false end ->
  K (Str.rev_onto acc v) rest = Some r ->
  Re.star p (v ++ rest)%string acc K = Some r.
Proof.
  intros Hv Hrest. revert acc. induction v as [|c v IH]; intros acc HK.
  - change (Re.star p rest acc K = Some r). destruct rest as [|d rest]; [done|].
    cbn [Re.star]. by rewrite Hrest.
  - simpl in Hv. apply andb_true_iff in Hv as [Hc Hv].
    rewrite app_String. cbn [Re.star]. rewrite Hc. by rewrite (IH Hv (String c acc) HK).
Qed.

Lemma plus_inv {A : Type} (k : Re.cclass) (s acc : string)
      (K : string -> string -> option A) (r : A) :
  Re.m_items [Re.Plus k] s acc K = Some r ->
  exists v b, s = (v ++ b)%string /\ run (Re.test k) v = true
              /\ K (Str.rev_onto acc v) b = Some r.
Proof.
  cbn [Re.m_items]. destruct s as [|x s]; [done|].
  destruct (Re.test k x) eqn:Hx; [|done].
  intros Hs. apply star_inv in Hs as (a & b & -> & Ha & HK).
  exists (String x a), b. repeat split; [|done].
  unfold run. simpl. by rewrite Hx, Ha.
Qed.

Lemma plus_take {A : Type} (k : Re.cclass) (v rest acc : string)
      (K : string -> string -> option A) (r : A) :
  run (Re.test k) v = true ->
  match rest with EmptyString => True | String c _ => Re.test k c = false end ->
  K (Str.rev_onto acc v) rest = Some r ->
  Re.m_items [Re.Plus k] (v ++ rest)%string acc K = Some r.
Proof.
  unfold run. destruct v as [|x v]; [done|]. simpl. intros Hv Hrest HK.
  apply andb_true_iff in Hv as [Hx Hv]. rewrite Hx.
  by apply star_take.
Qed.

Lemma numeral_digits (ds : string) :
  ds <> EmptyString -> Str.forallb Chars.is_digit ds = true -> numeral ds = true.
Proof.
  intros Hne Hds. unfold numeral. rewrite <- (append_empty_r ds).
  rewrite (span_app_stop _ ds "" Hds I). by destruct ds.
Qed.

Lemma numeral_point (ds fs : string) :
  ds <> EmptyString -> Str.forallb Chars.is_digit ds = true ->
  Str.forallb Chars.is_digit fs = true -> numeral (ds ++ String "." fs)%string = true.
Proof.
  intros Hne Hds Hfs. unfold numeral.
  rewrite (span_app_stop _ ds (String "." fs) Hds eq_refl).
  destruct ds; [done|]. by rewrite Hfs.
Qed.

Lemma numeral_cases (v : string) :
  numeral v = true ->
  exists ds, ds <> EmptyString /\ Str.forallb Chars.is_digit ds = true
    /\ (v = ds \/ exists fs, Str.forallb Chars.is_digit fs = true
                             /\ v = (ds ++ String "." fs)%string).
Proof.
  unfold numeral. pose proof (span_spec Chars.is_digit v) as Hspan.
  destruct (Str.span Chars.is_digit v) as [ds rest]. destruct Hspan as (-> & Hds & _).
  intros H. apply andb_true_iff in H as [Hne H].
  exists ds. repeat split; [by destruct ds|done|].
  destruct rest as [|c fs]; [left; apply append_empty_r|].
  apply andb_true_iff in H as [Hc Hfs]. apply dot_is_point in Hc as ->.
  right. by exists fs.
Qed.

Lemma float_inv {A : Type} (s acc : string)
      (K : string -> string -> option A) (r : A) :
  Re.m_items Re.body_float s acc K = Some r ->
  exists v b, s = (v ++ b)%string /\ numeral v = true
              /\ K (Str.rev_onto acc v) b = Some r.
Proof.
  unfold Re.body_float. destruct s as [|x s]; [done|].
  change (Re.m_items (Re.Plus Re.Digit :: ?r) (String x s) ?acc ?k)
    with (if Chars.is_digit x
          then Re.star Chars.is_digit s (String x acc)
                       (fun acc' s'' => Re.m_items r s'' acc' k)
          else None).
  destruct (Chars.is_digit x) eqn:Hx; [|done].
  intros Hs. apply star_inv in Hs as (a & b & -> & Ha & Hfrac).
  assert (Hds : Str.forallb Chars.is_digit (String x a) = true)
    by (simpl; by rewrite Hx, Ha).
  assert (Hstar : forall acc' t,
             Re.m_items [Re.Star Re.Digit] t acc' K = Some r ->
             exists fs b', t = (fs ++ b')%string /\ Str.forallb Chars.is_digit fs = true
                           /\ K (Str.rev_onto acc' fs) b' = Some r).
  { intros acc' t Ht. cbn [Re.m_items Re.test] in Ht. by apply star_inv in Ht. }
  assert (Hplain : Re.m_items [Re.Star Re.Digit] b (Str.rev_onto (String x acc) a) K = Some r ->
                   exists v b', (String x (a ++ b))%string = (v ++ b')%string
                                /\ numeral v = true
                                /\ K (Str.rev_onto acc v) b' = Some r).
  { intros Ht. apply Hstar in Ht as (fs & b' & -> & Hfs & HK).
    exists (String x a ++ fs)%string, b'. repeat split.
    - by rewrite !app_String, app_assoc_string.
    - apply numeral_digits; [done|]. by rewrite forallb_app, Hds, Hfs.
    - rewrite rev_onto_app. exact HK. }
  cbn [Re.m_items Re.test] in Hfrac. cbn [Re.m_items Re.test] in Hplain.
  destruct b as [|c t]; [by apply Hplain|].
  destruct (Chars.is_dot c) eqn:Hc; [|by apply Hplain].
  destruct (Re.star Chars.is_digit t _ _) as [r'|] eqn:Ht; [|by apply Hplain].
  injection Hfrac as ->. apply star_inv in Ht as (fs & b' & -> & Hfs & HK).
  apply dot_is_point in Hc as ->.
  exists (String x a ++ String "." fs)%string, b'. repeat split.
  - by rewrite !app_String, app_assoc_string, app_String.
  - by apply numeral_point.
  - rewrite rev_onto_app. exact HK.
Qed.

Lemma float_take {A : Type} (v rest acc : string)
      (K : string -> string -> option A) (r : A) :
  numeral v = true -> ends_segment rest = true ->
  K (Str.rev_onto acc v) rest = Some r ->
  Re.m_items Re.body_float (v ++ rest)%string acc K = Some r.
Proof.
  intros Hv Hrest HK.
  assert (Hd : match rest with
               | EmptyString => True
               | String c _ => Chars.is_digit c = false
               end).
  { destruct rest as [|c rest]; [done|]. simpl in Hrest.
    apply Ascii.eqb_eq in Hrest as ->. reflexivity. }
  assert (Hstar : forall fs acc',
             Str.forallb Chars.is_digit fs = true ->
             K (Str.rev_onto acc' fs) rest = Some r ->
             Re.m_items [Re.Star Re.Digit] (fs ++ rest)%string acc' K = Some r).
  { intros fs acc' Hfs HK'. cbn [Re.m_items Re.test]. by apply star_take. }
  apply numeral_cases in Hv as (ds & Hne & Hds & Hv).
  destruct ds as [|x ds]; [done|]. simpl in Hds.
  apply andb_true_iff in Hds as [Hx Hds].
  unfold Re.body_float.
  destruct Hv as [-> | (fs & Hfs & ->)].
  - rewrite app_String.
    change (Re.m_items (Re.Plus Re.Digit :: ?r) (String x ?s) ?acc ?k)
      with (if Chars.is_digit x
            then Re.star Chars.is_digit s (String x acc)
                         (fun acc' s'' => Re.m_items r s'' acc' k)
            else None).
    rewrite Hx. apply star_take; [done|done|].
    cbn [Re.m_items Re.test].
    destruct rest as [|c rest].
    + cbn [Re.star]. exact HK.
    + simpl in Hrest. apply Ascii.eqb_eq in Hrest as ->.
      change (Chars.is_dot "/") with false. cbn iota.
      apply (Hstar "" _ eq_refl HK).
  - rewrite app_assoc_string, !app_String.
    change (Re.m_items (Re.Plus Re.Digit :: ?r) (String x ?s) ?acc ?k)
      with (if Chars.is_digit x
            then Re.star Chars.is_digit s (String x acc)
                         (fun acc' s'' => Re.m_items r s'' acc' k)
            else None).
    rewrite Hx. apply star_take; [done|reflexivity|].
    cbn [Re.m_items Re.test]. change (Chars.is_dot ".") with true. cbn iota.
    rewrite (star_take Chars.is_digit fs rest _ K r Hfs Hd); [done|].
    rewrite rev_onto_app in HK. exact HK.
Qed.

Lemma hole_body_cases (ty : option string) :
  (hole_body ty = Re.body_float /\ forall v, value_ok ty v = numeral v)
  \/ exists k, hole_body ty = [Re.Plus k]
               /\ (forall v, value_ok ty v = run (Re.test k) v)
               /\ Re.test k "/" = false.
Proof.
  destruct ty as [t|]; cbn [hole_body value_ok]; unfold group_body.
  - destruct (String.eqb t "int"); [right; exists Re.Digit; by repeat split|].
    destruct (String.eqb t "float"); [by left|].
    destruct (String.eqb t "uuid"); [right; exists Re.HexHyphen; by repeat split|].
    right. exists Re.NotSlash. by repeat split.
  - right. exists Re.NotSlash. by repeat split.
Qed.

(** The group of a placeholder, when the match succeeds, took a value of
    its type. *)
Lemma hole_inv {A : Type} (ty : option string) (s acc : string)
      (K : string -> string -> option A) (r : A) :
  Re.m_items (hole_body ty) s acc K = Some r ->
  exists v b, s = (v ++ b)%string /\ value_ok ty v = true
              /\ K (Str.rev_onto acc v) b = Some r.
Proof.
  destruct (hole_body_cases ty) as [[-> Hok] | (k & -> & Hok & _)]; intros Hm.
  - apply float_inv in Hm as (v & b & ? & ? & ?). exists v, b. by rewrite Hok.
  - apply plus_inv in Hm as (v & b & ? & ? & ?). exists v, b. by rewrite Hok.
Qed.

(** The group of a placeholder in front of the end of a segment takes the
    value that stands there. *)
Lemma hole_take {A : Type} (ty : option string) (v rest acc : string)
      (K : string -> string -> option A) (r : A) :
  value_ok ty v = true -> ends_segment rest = true ->
  K (Str.rev_onto acc v) rest = Some r ->
  Re.m_items (hole_body ty) (v ++ rest)%string acc K = Some r.
Proof.
  destruct (hole_body_cases ty) as [[-> Hok] | (k & -> & Hok & Hk)];
    rewrite Hok; [apply float_take|].
  intros Hv Hrest. apply plus_take; [done|].
  destruct rest as [|c rest]; [done|]. simpl in Hrest.
  by apply Ascii.eqb_eq in Hrest as ->.
Qed.

Lemma rev_rev_onto (v : string) : Str.rev (Str.rev_onto "" v) = v.
Proof. apply rev_rev. Qed.

(** A match of the pattern of a template: the subject is the template
    filled with the captured values, up to what [$] allows after it. *)
Lemma m_atoms_inv (tpl : list piece) (s : string) caps res :
  Re.m_atoms (atoms tpl) s caps = Some res ->
  exists vs tail,
    Forall2 (fun ty v => value_ok ty v = true) (kinds tpl) vs
    /\ s = (fill tpl vs ++ tail)%string /\ Re.at_end tail = true
    /\ res = List.rev caps ++ zip (names tpl) vs.
Proof.
  revert s caps. induction tpl as [|p tpl IH]; intros s caps.
  - cbn [atoms Re.m_atoms]. destruct (Re.at_end s) eqn:Hend; [|done].
    intros [= <-]. exists [], s. repeat split; [constructor|done|].
    by rewrite app_nil_r.
  - destruct p as [t|n ty]; cbn [atoms kinds names omap list_omap fill].
    + rewrite m_atoms_lits.
      destruct (Str.strip_prefix t s) as [rest|] eqn:Hpre; [|done].
      apply strip_prefix_Some in Hpre as ->.
      intros Hm. apply IH in Hm as (vs & tail & Hvs & -> & Hend & ->).
      exists vs, tail. repeat split; try done. by rewrite app_assoc_string.
    + cbn [Re.m_atoms]. intros Hm.
      apply hole_inv in Hm as (v & b & -> & Hv & Hm).
      apply IH in Hm as (vs & tail & Hvs & -> & Hend & ->).
      exists (v :: vs), tail. repeat split; try done.
      * by constructor.
      * by rewrite app_assoc_string.
      * rewrite rev_rev_onto. cbn [List.rev zip zip_with].
        by rewrite <- List.app_assoc.
Qed.

Lemma segmented_tail (p : piece) (tpl : list piece) :
  segmented (p :: tpl) = true -> segmented tpl = true.
Proof.
  destruct p as [t|n ty]; cbn [segmented]; [done|].
  destruct tpl as [|[t|m ty'] tpl]; [done| |done].
  intros H. by apply andb_true_iff in H as [_ H].
Qed.

Lemma segmented_next (n : string) (ty : option string) (tpl : list piece)
      (vs : list string) :
  segmented (Hole n ty :: tpl) = true -> ends_segment (fill tpl vs) = true.
Proof.
  cbn [segmented]. destruct tpl as [|[t|m ty'] tpl]; [done| |done].
  intros H. apply andb_true_iff in H as [H _]. apply andb_true_iff in H as [Hne Ht].
  cbn [fill]. destruct t as [|c t]; [done|]. by rewrite app_String.
Qed.

(** The pattern of a segmented template on the template filled with
    values of the types of its placeholders: the values are captured. *)
Lemma m_atoms_fill (tpl : list piece) (vs : list string) caps :
  segmented tpl = true ->
  Forall2 (fun ty v => value_ok ty v = true) (kinds tpl) vs ->
  Re.m_atoms (atoms tpl) (fill tpl vs) caps
  = Some (List.rev caps ++ zip (names tpl) vs).
Proof.
  revert vs caps. induction tpl as [|p tpl IH]; intros vs caps Hseg Hvs.
  - cbn [kinds omap list_omap] in Hvs. apply Forall2_nil_inv_l in Hvs as ->.
    cbn [atoms fill Re.m_atoms Re.at_end names omap list_omap zip zip_with].
    by rewrite app_nil_r.
  - pose proof (segmented_tail p tpl Hseg) as Hseg'.
    destruct p as [t|n ty]; cbn [atoms kinds names omap list_omap fill] in *.
    + rewrite m_atoms_lits, strip_prefix_app. by apply IH.
    + apply Forall2_cons_inv_l in Hvs as (v & vs' & Hv & Hvs & ->).
      cbn [Re.m_atoms]. apply hole_take; [done|by eapply segmented_next|].
      rewrite rev_rev_onto, (IH vs' _ Hseg' Hvs). cbn [List.rev zip zip_with].
      by rewrite <- List.app_assoc.
Qed.

End TemplateMatch.

Section TemplateMatchRoutes.
Import Template.
Context {H : Type}.

(** X28.  What a route built from a template matches is the template
    filled in.  When [Route.match] returns parameters, the method is one of
    the route's, and the path is the template with a value of the
    placeholder's type in place of each placeholder, optionally followed by
    one newline; the parameters are these values, converted, under the
    names of the placeholders and in their order. *)
Theorem match_rebuilds_path (tpl : list piece) (ms : list string)
        (h : H) (cfg : option RouteConfig) :
  well_formed tpl = true -> NoDup (names tpl) ->
  exists r,
    Route_init (render tpl) ms h cfg = Built r
    /\ forall path method ps,
         Route_match r path method = Some ps ->
         method ∈ ms
         /\ exists vs,
              Forall2 (fun ty v => value_ok ty v = true) (kinds tpl) vs
              /\ (path = fill tpl vs \/ path = (fill tpl vs ++ Str.newline)%string)
              /\ ps = map (convert (declared tpl)) (zip (names tpl) vs).
Proof.
  intros Hwf Hnd. unfold Route_init. rewrite (compile_distinct tpl Hwf Hnd).
  eexists. split; [reflexivity|].
  intros path method ps. unfold Route_match. cbn [methods pattern param_types].
  destruct (decide (method ∈ ms)) as [Hm | Hm];
    [rewrite bool_decide_eq_true_2 by done
    |rewrite bool_decide_eq_false_2 by done; done].
  cbn [negb]. unfold Re.match_groupdict.
  destruct (Re.m_atoms (atoms tpl) path []) as [caps|] eqn:Hcaps; [|done].
  intros [= <-]. split; [done|].
  apply m_atoms_inv in Hcaps as (vs & tail & Hvs & -> & Hend & ->).
  exists vs. repeat split; [done|].
  apply at_end_cases in Hend as [-> | ->]; [left; by rewrite append_empty_r|by right].
Qed.

(** X29.  A route whose placeholders each fill a path segment to its end,
    each being the last piece of the template or followed by a slash,
    matches every path made by filling the template with values of the
    types of its placeholders, and returns exactly these values,
    converted, under the names of the placeholders. *)
Theorem filled_template_matches (tpl : list piece) (ms : list string)
        (h : H) (cfg : option RouteConfig) :
  well_formed tpl = true -> NoDup (names tpl) -> segmented tpl = true ->
  exists r,
    Route_init (render tpl) ms h cfg = Built r
    /\ forall vs method,
         method ∈ ms ->
         Forall2 (fun ty v => value_ok ty v = true) (kinds tpl) vs ->
         Route_match r (fill tpl vs) method
         = Some (map (convert (declared tpl)) (zip (names tpl) vs)).
Proof.
  intros Hwf Hnd Hseg. unfold Route_init. rewrite (compile_distinct tpl Hwf Hnd).
  eexists. split; [reflexivity|].
  intros vs method Hm Hvs. unfold Route_match. cbn [methods pattern param_types].
  rewrite bool_decide_eq_true_2 by done. cbn [negb]. unfold Re.match_groupdict.
  by rewrite (m_atoms_fill tpl vs [] Hseg Hvs).
Qed.

End TemplateMatchRoutes.

Section TemplateWitnesses.
Import Template.
Import TemplateSample.

Local Ltac distinct_names :=
  repeat (apply NoDup_cons; split;
          [let Hin := fresh "Hin" in
           intros Hin;
           repeat (apply elem_of_cons in Hin as [Hin | Hin]; [discriminate Hin|]);
           by apply elem_of_nil in Hin|]);
  apply NoDup_nil_2.

Lemma user_posts_distinct : NoDup (names user_posts).
Proof. change (NoDup ["id"; "slug"]). distinct_names. Qed.

Lemma twice_named_repeats : ~ NoDup (names twice_named).
Proof.
  change (~ NoDup ["a"; "a"]). intros Hnd.
  apply NoDup_cons in Hnd as [Hn _]. apply Hn, list_elem_of_here.
Qed.

Lemma compile_template_witness :
  Compile._compile_pattern (render user_posts)
  = (Re.Compiled (atoms user_posts), declared user_posts)
  /\ forall n t, declared user_posts !! n = Some t <-> Hole n (Some t) ∈ user_posts.
Proof.
  apply (compile_template user_posts); [reflexivity|apply user_posts_distinct].
Defined.

Lemma repeated_placeholder_raises_witness :
  (exists msg, (Compile._compile_pattern (render twice_named)).1
               = Re.CompileError (re_error msg))
  /\ forall (r : Router nat) methods h kwargs cfg,
       RouteConfig_init kwargs = Ok cfg ->
       exists msg, add_route r (render twice_named) methods h kwargs
                   = Raised (re_error msg).
Proof.
  apply (repeated_placeholder_raises twice_named); [reflexivity|apply twice_named_repeats].
Defined.

Lemma match_rebuilds_path_witness :
  exists r,
    Route_init (render user_posts) ["GET"] 1%nat None = Built r
    /\ forall path method ps,
         Route_match r path method = Some ps ->
         method ∈ ["GET"]
         /\ exists vs,
              Forall2 (fun ty v => value_ok ty v = true) (kinds user_posts) vs
              /\ (path = fill user_posts vs
                  \/ path = (fill user_posts vs ++ Str.newline)%string)
              /\ ps = map (convert (declared user_posts)) (zip (names user_posts) vs).
Proof.
  apply (match_rebuilds_path user_posts ["GET"] 1%nat None);
    [reflexivity|apply user_posts_distinct].
Defined.

Lemma filled_template_matches_witness :
  exists r,
    Route_init (render user_posts) ["GET"] 1%nat None = Built r
    /\ forall vs method,
         method ∈ ["GET"] ->
         Forall2 (fun ty v => value_ok ty v = true) (kinds user_posts) vs ->
         Route_match r (fill user_posts vs) method
         = Some (map (convert (declared user_posts)) (zip (names user_posts) vs)).
Proof.
  apply (filled_template_matches user_posts ["GET"] 1%nat None);
    [reflexivity|apply user_posts_distinct|reflexivity].
Defined.

End TemplateWitnesses.

Section TemplateRegistration.
Import Template.
Context {H : Type}.

(** X30.  Registering a template and resolving compose: on a router an
    application can hold, [add_route] for a template whose placeholders each
    fill a segment succeeds, and a request for the template filled with
    values of the placeholders' types, in one of the route's methods, that
    resolved to nothing before now resolves to the new handler with these
    values, converted, and the configuration given; a second lookup returns
    the same and leaves the router as the first left it. *)
Theorem registered_template_resolves (tpl : list piece) (r : Router H)
        (ms : list string) (h : H) kwargs cfg :
  well_formed tpl = true -> NoDup (names tpl) -> segmented tpl = true ->
  reachable r -> RouteConfig_init kwargs = Ok cfg ->
  exists r',
    add_route r (render tpl) ms h kwargs = Built r'
    /\ forall vs method,
         method ∈ ms ->
         Forall2 (fun ty v => value_ok ty v = true) (kinds tpl) vs ->
         (find_route r (fill tpl vs) method).1 = None ->
         (find_route r' (fill tpl vs) method).1
         = Some (h, map (convert (declared tpl)) (zip (names tpl) vs), cfg)
         /\ find_route (find_route r' (fill tpl vs) method).2 (fill tpl vs) method
            = find_route r' (fill tpl vs) method.
Proof.
  intros Hwf Hnd Hseg Hr Hcfg. unfold add_route, Route_init.
  rewrite Hcfg, (compile_distinct tpl Hwf Hnd). eexists. split; [reflexivity|].
  intros vs method Hm Hvs Hnone.
  rewrite (consistent_find_scan _ _ _ (reachable_consistent _ Hr)) in Hnone.
  rewrite find_route_cold by apply lookup_empty. cbn [routes _route_cache].
  rewrite scan_app, Hnone. unfold Route_match. cbn [methods pattern param_types handler config].
  rewrite bool_decide_eq_true_2 by done. cbn [negb]. unfold Re.match_groupdict.
  rewrite (m_atoms_fill tpl vs [] Hseg Hvs). cbn [List.rev List.app fst snd default].
  split; [done|]. apply find_route_cached. cbn [_route_cache]. apply lookup_insert_eq.
Qed.

End TemplateRegistration.

Section TemplateRegistrationWitness.
Import Template TemplateSample.

Lemma registered_template_resolves_witness :
  exists r',
    add_route (Router_init (Handler := nat)) (render user_posts) ["GET"] 1%nat [] = Built r'
    /\ forall vs method,
         method ∈ ["GET"] ->
         Forall2 (fun ty v => value_ok ty v = true) (kinds user_posts) vs ->
         (find_route (Router_init (Handler := nat)) (fill user_posts vs) method).1 = None ->
         (find_route r' (fill user_posts vs) method).1
         = Some (1%nat, map (convert (declared user_posts)) (zip (names user_posts) vs),
                 RouteConfig_default)
         /\ find_route (find_route r' (fill user_posts vs) method).2
                       (fill user_posts vs) method
            = find_route r' (fill user_posts vs) method.
Proof.
  apply (registered_template_resolves user_posts Router_init ["GET"] 1%nat []
           RouteConfig_default);
    [reflexivity|apply user_posts_distinct|reflexivity|apply reach_init|reflexivity].
Defined.

End TemplateRegistrationWitness.

(* --------------------------------------------------------------------- *)
(** ** Arguments are passed by keyword *)
(* --------------------------------------------------------------------- *)

Section KeywordCalls.
Context {W : Type}.





End KeywordCalls.

Section KeywordCallsWitness.
Import Fixture Sample.


End KeywordCallsWitness.
